(** * Topic patterns of the MQTT bus: tokenizer, matcher and parameter
      extraction ([lib/PatternHelpers.ts], [lib/Pattern.ts]), and the
      [Bus] class as far as it sets patterns, publishes and hands
      incoming messages to labels.

    Strings are lists of characters (the code tells apart only [/], [+],
    [#] and the operators of regular expressions, so the width of a
    character does not matter); a JavaScript object used as a parameter
    bag is a finite map keyed by strings; a thrown [Error] is the [Throw]
    result.  The regular expression the code assembles as a string is
    parsed and run by a model of the [RegExp] fragment the code can
    produce (greedy quantifiers, capture groups, negated classes,
    anchors), following the backtracking semantics of ECMA-262. *)

From Stdlib Require Import Ascii String.
From stdpp Require Import gmap strings list fin_maps pretty.

Local Open Scope char_scope.
Local Open Scope list_scope.

Abbreviation str := (list ascii).

(** String literals of the source, as character lists. *)
Definition s2l (s : string) : str := String.list_ascii_of_string s.
Notation "« s »" := (s2l s%string) (at level 0, s at level 0, format "« s »").

(** ** Results of code that can throw *)

Inductive result (A : Type) : Type :=
| Ok (a : A)
| Throw (msg : str).
Arguments Ok {A} a.
Arguments Throw {A} msg.

Global Instance result_ret : MRet result := @Ok.
Global Instance result_bind : MBind result := λ A B f r,
  match r with
  | Ok a => f a
  | Throw e => Throw e
  end.

(** [Array.prototype.map] with a callback that may throw: elements are
    visited left to right with their index, the first throw aborts. *)
Fixpoint mapi_result {A B} (f : A → nat → result B) (i : nat) (l : list A)
  : result (list B) :=
  match l with
  | [] => Ok []
  | a :: l' =>
      b ← f a i;
      bs ← mapi_result f (S i) l';
      Ok (b :: bs)
  end.

(** ** String primitives *)

(** [s.split(sep)] for a one-character separator: never empty, the empty
    string gives one empty piece. *)
Fixpoint split (sep : ascii) (s : str) : list str :=
  match s with
  | [] => [[]]
  | c :: s' =>
      if decide (c = sep) then [] :: split sep s'
      else match split sep s' with
           | [] => [[c]]
           | seg :: segs => (c :: seg) :: segs
           end
  end.

(** [items.join(sep)] for an array of strings. *)
Fixpoint join (sep : ascii) (l : list str) : str :=
  match l with
  | [] => []
  | [s] => s
  | s :: l' => s ++ sep :: join sep l'
  end.

(** [items[items.length - 1]]: [undefined] on an empty array or string. *)
Definition getLastItem {A} (items : list A) : option A := last items.

(** [items.slice(0, items.length - 1)]. *)
Definition removeLastItem {A} (items : list A) : list A :=
  take (length items - 1) items.

(** ** Tokens *)

Inductive TokenTypes : Type := SINGLE | MULTI | RAW.

Global Instance TokenTypes_eq_dec : EqDecision TokenTypes.
Proof. solve_decision. Defined.

Record Token : Type := mkToken {
  type : TokenTypes;
  name : option str;
  piece : str;
  last_ : str
}.

(** The character set of [matchOperatorsRe]. *)
Definition matchOperators : list ascii :=
  ["|"; "\"; "{"; "}"; "("; ")"; "["; "]"; "^"; "$"; "+"; "*"; "?"; "."].

Definition isOperator (c : ascii) : bool := bool_decide (c ∈ matchOperators).

(** [str.replace(matchOperatorsRe, '\\$&')]. *)
Fixpoint escapeStringRegexp (s : str) : str :=
  match s with
  | [] => []
  | c :: s' =>
      if isOperator c then "\" :: c :: escapeStringRegexp s'
      else c :: escapeStringRegexp s'
  end.

Definition processSingle (token : str) : Token :=
  {| type := SINGLE;
     name := Some (drop 1 token);
     piece := «"([^/#+]+/)"»;
     last_ := «"([^/#+]+/?)"» |}.

Definition processMulti (token : str) (last : bool) : result Token :=
  if negb last then Throw «"# wildcard must be at the end of the pattern"»
  else Ok {| type := MULTI;
             name := Some (drop 1 token);
             piece := «"((?:[^/#+]+/)*)"»;
             last_ := «"((?:[^/#+]+/?)*)"» |}.

Definition processRaw (token : str) : Token :=
  let token := escapeStringRegexp token in
  {| type := RAW;
     name := None;
     piece := token ++ «"/"»;
     last_ := token ++ «"/?"» |}.

(** [index === tokens.length - 1] is written [index + 1 = length] so that
    no subtraction below zero occurs. *)
Definition processToken (token : str) (index : nat) (tokens : list str)
  : result Token :=
  let last := bool_decide (index + 1 = length tokens) in
  match head token with
  | Some c =>
      if (c =? "+")%char then Ok (processSingle token)
      else if (c =? "#")%char then processMulti token last
      else Ok (processRaw token)
  | None => Ok (processRaw token)
  end.

Definition tokenize (pattern : str) : result (list Token) :=
  let segs := split "/" pattern in
  mapi_result (fun tok i => processToken tok i segs) 0 segs.

(** [token.piece.slice(0, -1)]. *)
Definition buildTopic (tokens : list Token) : str :=
  join "/" (map (fun token =>
    match type token with
    | RAW => take (length (piece token) - 1) (piece token)
    | SINGLE => «"+"»
    | MULTI => «"#"»
    end) tokens).

(** Truthiness of [token.name]: defined and not the empty string. *)
Definition truthy (s : option str) : bool :=
  match s with
  | Some (_ :: _) => true
  | _ => false
  end.

Definition isRaw (token : Token) : bool := bool_decide (type token = RAW).

(** [token.type !== RAW && token.name && token.name.length > 0]. *)
Definition buildParameterCount (tokens : list Token) : nat :=
  length (List.filter (fun token =>
    negb (isRaw token) && truthy (name token)
      && bool_decide (0 < length (default [] (name token)))) tokens).

Definition removeRawTokens (tokens : list Token) : list Token :=
  List.filter (fun token => negb (isRaw token)) tokens.

(** [buildRegularExpression]: the [reduce] that appends, token by token,
    the [last] fragment of the final token and of the token before a
    final multi wildcard, the [piece] fragment of the others.
    [index === tokens.length - 2] is written [index + 2 = length]. *)
Fixpoint regexFragments (n : nat) (lastIsMulti : bool) (index : nat)
    (tokens : list Token) : str :=
  match tokens with
  | [] => []
  | token :: rest =>
      let isLast := bool_decide (index + 1 = n) in
      let beforeMulti := bool_decide (index + 2 = n) && lastIsMulti in
      (if isLast || beforeMulti then last_ token else piece token)
        ++ regexFragments n lastIsMulti (S index) rest
  end.

Definition lastIsMULTI (tokens : list Token) : bool :=
  match getLastItem tokens with
  | Some t => bool_decide (type t = MULTI)
  | None => false
  end.

Definition regexStr (tokens : list Token) : str :=
  regexFragments (length tokens) (lastIsMULTI tokens) 0 tokens.

Definition regexSource (tokens : list Token) : str :=
  «"^"» ++ regexStr tokens ++ «"$"».

(** ** The [RegExp] fragment

    Abstract syntax of the patterns the helpers can assemble.  Capture
    groups carry their index in order of their opening parenthesis
    (counted from 0 here; the match array shifts them by one). *)

Inductive regex : Type :=
| Empty
| Chr (c : ascii)
| Dot
| NotIn (cs : list ascii)
| AssertStart
| AssertEnd
| Seq (r1 r2 : regex)
| Group (g : nat) (r : regex)
| Star (r : regex)
| Plus (r : regex)
| Opt (r : regex).

Record RegExp : Type := mkRegExp {
  re_body : regex;
  re_groups : nat
}.

(** *** Parsing the source string

    One left-to-right pass.  The frame under construction keeps the terms
    read so far, last one first, and whether the last one may still take
    a quantifier; an opening parenthesis pushes the frame.  Syntax
    outside the fragment (alternation, braces, class escapes, ranges,
    lazy quantifiers, look-around) is refused, like a syntax error. *)

Record frame : Type := mkFrame {
  terms : list regex;
  quantifiable : bool
}.

Definition frame0 : frame := {| terms := []; quantifiable := false |}.

Definition flush (f : frame) : regex := foldr Seq Empty (rev (terms f)).

Definition atom (a : regex) (f : frame) : frame :=
  {| terms := a :: terms f; quantifiable := true |}.

Definition assertion (a : regex) (f : frame) : frame :=
  {| terms := a :: terms f; quantifiable := false |}.

Definition quantify (q : regex → regex) (f : frame) : option frame :=
  match quantifiable f, terms f with
  | true, a :: ts => Some {| terms := q a :: ts; quantifiable := false |}
  | _, _ => None
  end.

Definition wrap (g : option nat) (r : regex) : regex :=
  match g with
  | Some i => Group i r
  | None => r
  end.

(** The syntax characters, each of which is its own identity escape. *)
Definition syntaxChars : list ascii :=
  ["^"; "$"; "\"; "."; "*"; "+"; "?"; "("; ")"; "["; "]"; "{"; "}"; "|"].

Definition isSyntax (c : ascii) : bool := bool_decide (c ∈ syntaxChars).

Fixpoint parse (s : str) (stk : list (frame * option nat)) (cur : frame)
    (cls : option (list ascii)) (n : nat) : option (regex * nat) :=
  match s with
  | [] =>
      match stk, cls with
      | [], None => Some (flush cur, n)
      | _, _ => None
      end
  | c :: s' =>
      match cls with
      | Some acc =>
          if (c =? "]")%char then parse s' stk (atom (NotIn (rev acc)) cur) None n
          else if ((c =? "\") || (c =? "-"))%char then None
          else parse s' stk cur (Some (c :: acc)) n
      | None =>
          if (c =? "^")%char then parse s' stk (assertion AssertStart cur) None n
          else if (c =? "$")%char then parse s' stk (assertion AssertEnd cur) None n
          else if (c =? "\")%char then
            match s' with
            | c2 :: s'' =>
                if isSyntax c2 || (c2 =? "/")%char
                then parse s'' stk (atom (Chr c2) cur) None n
                else None
            | [] => None
            end
          else if (c =? "(")%char then
            match s' with
            | c2 :: s'' =>
                if (c2 =? "?")%char then
                  match s'' with
                  | c3 :: s''' =>
                      if (c3 =? ":")%char
                      then parse s''' ((cur, None) :: stk) frame0 None n
                      else None
                  | [] => None
                  end
                else parse s' ((cur, Some n) :: stk) frame0 None (S n)
            | [] => None
            end
          else if (c =? ")")%char then
            match stk with
            | (f, g) :: stk' => parse s' stk' (atom (wrap g (flush cur)) f) None n
            | [] => None
            end
          else if (c =? "[")%char then
            match s' with
            | c2 :: s'' =>
                if (c2 =? "^")%char then parse s'' stk cur (Some []) n else None
            | [] => None
            end
          else if (c =? "*")%char then
            f ← quantify Star cur; parse s' stk f None n
          else if (c =? "+")%char then
            f ← quantify Plus cur; parse s' stk f None n
          else if (c =? "?")%char then
            f ← quantify Opt cur; parse s' stk f None n
          else if (c =? ".")%char then parse s' stk (atom Dot cur) None n
          else if isSyntax c then None
          else parse s' stk (atom (Chr c) cur) None n
      end
  end.

(** [new RegExp(source)]. *)
Definition RegExp_new (source : str) : result RegExp :=
  match parse source [] frame0 None 0 with
  | Some (r, n) => Ok {| re_body := r; re_groups := n |}
  | None => Throw «"Invalid regular expression"»
  end.

(** *** Matching

    A matcher takes the rest of the input, the captures so far and a
    continuation, and answers with the final state or a failure; the
    continuation is what makes backtracking into a finished term
    possible. *)

Abbreviation caps := (list (option str)).
Abbreviation cont := (str → caps → option (str * caps)).
Abbreviation matcher := (str → caps → cont → option (str * caps)).

Fixpoint groups (r : regex) : list nat :=
  match r with
  | Seq r1 r2 => groups r1 ++ groups r2
  | Group g r' => g :: groups r'
  | Star r' | Plus r' | Opt r' => groups r'
  | _ => []
  end.

(** Captures inside a quantified term are reset at each iteration. *)
Definition clear (gs : list nat) (c : caps) : caps :=
  foldr (fun g c => <[g := None]> c) c gs.

Definition isLineTerminator (c : ascii) : bool :=
  ((c =? "010") || (c =? "013"))%char.

(** Greedy iteration: one more round of [mr] first, the continuation
    otherwise.  A round that consumes nothing is refused, so the rounds
    left are bounded by the characters left. *)
Fixpoint repeat (mr : matcher) (gs : list nat) (n : nat) : matcher :=
  fun x c k =>
    match n with
    | 0 => k x c
    | S n' =>
        match mr x (clear gs c) (fun y c' =>
                if bool_decide (length y < length x)
                then repeat mr gs n' y c' k else None) with
        | Some z => Some z
        | None => k x c
        end
    end.

Fixpoint m (tot : nat) (r : regex) : matcher :=
  fun x c k =>
    match r with
    | Empty => k x c
    | Chr a =>
        match x with
        | b :: x' => if (a =? b)%char then k x' c else None
        | [] => None
        end
    | Dot =>
        match x with
        | b :: x' => if isLineTerminator b then None else k x' c
        | [] => None
        end
    | NotIn cs =>
        match x with
        | b :: x' => if bool_decide (b ∈ cs) then None else k x' c
        | [] => None
        end
    | AssertStart => if bool_decide (length x = tot) then k x c else None
    | AssertEnd => match x with [] => k x c | _ => None end
    | Seq r1 r2 => m tot r1 x c (fun y c' => m tot r2 y c' k)
    | Group g r' =>
        m tot r' x c (fun y c' =>
          k y (<[g := Some (take (length x - length y) x)]> c'))
    | Star r' => repeat (m tot r') (groups r') (length x) x c k
    | Plus r' =>
        m tot r' x (clear (groups r') c) (fun y c' =>
          repeat (m tot r') (groups r') (length y) y c' k)
    | Opt r' =>
        match m tot r' x (clear (groups r') c) (fun y c' =>
                if bool_decide (length y < length x) then k y c' else None) with
        | Some z => Some z
        | None => k x c
        end
    end.

(** [regex.exec(input)] without flags: the match is tried at every start
    index from 0 on; the array holds the matched text, then the
    captures. *)
Fixpoint exec_from (re : RegExp) (tot : nat) (x : str)
  : option (list (option str)) :=
  match m tot (re_body re) x (replicate (re_groups re) None)
          (fun y c => Some (y, c)) with
  | Some (y, c) => Some (Some (take (length x - length y) x) :: c)
  | None =>
      match x with
      | [] => None
      | _ :: x' => exec_from re tot x'
      end
  end.

Definition exec (re : RegExp) (input : str) : option (list (option str)) :=
  exec_from re (length input) input.

Definition buildRegularExpression (tokens : list Token) : result RegExp :=
  RegExp_new (regexSource tokens).

(** ** Parameter bags

    A parameter value is a string or an array of strings.  A bag is a
    plain object, held as the finite map of its own properties; its
    prototype is [Object.prototype], and two bags are deep-equal when
    they are the same map.  One name is special: [__proto__] is read and
    written through the accessor of [Object.prototype], see [assign]
    and [inherited]. *)

Inductive value : Type :=
| Scalar (s : str)
| Sequence (l : list str).

Global Instance value_eq_dec : EqDecision value.
Proof. solve_decision. Defined.

Abbreviation params := (gmap str value).

(** How [Array.prototype.join] renders an element: a string as itself,
    an array through its [toString], which joins with a comma. *)
Definition toString (v : value) : str :=
  match v with
  | Scalar s => s
  | Sequence l => join "," l
  end.

Definition protoName : str := «"__proto__"».

(** [params[key] = param] on the object that began as [{}].  Every name
    but one becomes an own property (the properties of
    [Object.prototype] are writable, so an inherited name is shadowed).
    Under [__proto__] the assignment runs the prototype setter: a string
    is ignored, and an array becomes the prototype of the object.  The
    object then has no own property of that name, but reads the array
    back under it; the bag keeps the array under [__proto__] to say
    so. *)
Definition assign (acc : params) (key : str) (param : value) : params :=
  match param with
  | Scalar _ =>
      if bool_decide (key = protoName) then acc else <[key := param]> acc
  | Sequence _ => <[key := param]> acc
  end.

(** The properties a plain object inherits from [Object.prototype], as
    [Array.prototype.join] renders their values: the prototype itself
    under [__proto__], a built-in function under the other names (its
    text is the one V8 prints, with the name of the function). *)
Definition objectPrototypeFunctions : list (str * str) :=
  [ («"constructor"», «"Object"»);
    («"__defineGetter__"», «"__defineGetter__"»);
    («"__defineSetter__"», «"__defineSetter__"»);
    («"hasOwnProperty"», «"hasOwnProperty"»);
    («"__lookupGetter__"», «"__lookupGetter__"»);
    («"__lookupSetter__"», «"__lookupSetter__"»);
    («"isPrototypeOf"», «"isPrototypeOf"»);
    («"propertyIsEnumerable"», «"propertyIsEnumerable"»);
    («"toString"», «"toString"»);
    («"valueOf"», «"valueOf"»);
    («"toLocaleString"», «"toLocaleString"») ].

Definition inherited (key : str) : option str :=
  if bool_decide (key = protoName) then Some «"[object Object]"»
  else
    match List.find (fun e => bool_decide (e.1 = key)) objectPrototypeFunctions with
    | Some (_, fname) => Some («"function "» ++ fname ++ «"() { [native code] }"»)
    | None => None
    end.

(** One round of the [forEach] of [buildParameterFunction].  Reading a
    property of [undefined] (no token at this index, or a group that did
    not take part in the match) throws. *)
Definition paramStep (captureTokens : list Token) (acc : params)
    (capture : option str) (index : nat) : result params :=
  match captureTokens !! index with
  | None => Throw «"TypeError"»
  | Some token =>
      if negb (truthy (name token)) then Ok acc
      else
        match capture with
        | None => Throw «"TypeError"»
        | Some capture =>
            let param :=
              if bool_decide (type token = MULTI) then
                let param := split "/" capture in
                if negb (truthy (getLastItem param))
                then Sequence (removeLastItem param)
                else Sequence param
              else if bool_decide (getLastItem capture = Some "/")
                then Scalar (removeLastItem capture)
                else Scalar capture in
            Ok (assign acc (default [] (name token)) param)
        end
  end.

Fixpoint forEachCapture (captureTokens : list Token) (acc : params)
    (captures : list (option str)) (index : nat) : result params :=
  match captures with
  | [] => Ok acc
  | capture :: rest =>
      acc' ← paramStep captureTokens acc capture index;
      forEachCapture captureTokens acc' rest (S index)
  end.

(** The closure returned by [buildParameterFunction], applied to the
    value [match] returned ([None] is [null]). *)
Definition buildParameterFunction (tokens : list Token)
    (results : option (list (option str))) : result params :=
  let captureTokens := removeRawTokens tokens in
  match results with
  | None => Ok ∅
  | Some results => forEachCapture captureTokens ∅ (drop 1 results) 0
  end.

(** ** The [Pattern] class *)

Record Pattern : Type := mkPattern {
  _pattern : str;
  _topic : str;
  _regex : RegExp;
  _tokens : list Token;
  _paramCount : nat
}.

Module Pattern.

Definition from (pattern : str) : result Pattern :=
  tokens ← tokenize pattern;
  regex ← buildRegularExpression tokens;
  Ok {| _pattern := pattern;
        _topic := buildTopic tokens;
        _regex := regex;
        _tokens := tokens;
        _paramCount := buildParameterCount tokens |}.

Definition getTopic (p : Pattern) : str := _topic p.
Definition getPattern (p : Pattern) : str := _pattern p.
Definition getParameterCount (p : Pattern) : nat := _paramCount p.

(** [key in params] holds for an own property and for an inherited
    one; [params[key]] is then the own value, or else the inherited
    one, which is no array and is rendered by the [join] that follows
    the [map]. *)
Definition substitute (ps : params) (token : str) : str :=
  match head token with
  | Some c =>
      if (c =? "+")%char then
        match ps !! drop 1 token with
        | Some v => toString v
        | None => default token (inherited (drop 1 token))
        end
      else if (c =? "#")%char then
        match ps !! drop 1 token with
        | Some (Sequence l) => join "/" l
        | Some (Scalar s) => s
        | None => default token (inherited (drop 1 token))
        end
      else token
  | None => token
  end.

Definition buildParameterizedTopic (p : Pattern) (ps : params) : str :=
  join "/" (map (substitute ps) (split "/" (_pattern p))).

Definition match_ (p : Pattern) (topic : str) : option (list (option str)) :=
  exec (_regex p) topic.

Definition getParameters (p : Pattern) (mt : option (list (option str)))
  : result params :=
  buildParameterFunction (_tokens p) mt.

End Pattern.


(** ** Vocabulary of the statements *)

(** The first character of a segment decides its kind. *)
Definition startsWith (c : ascii) (seg : str) : bool :=
  match head seg with
  | Some d => (d =? c)%char
  | None => false
  end.

Definition isWildcard (seg : str) : bool :=
  startsWith "+" seg || startsWith "#" seg.

(** The token a segment compiles to when it is accepted. *)
Definition tokenOf (seg : str) : Token :=
  if startsWith "+" seg then processSingle seg
  else if startsWith "#" seg then
    {| type := MULTI;
       name := Some (drop 1 seg);
       piece := «"((?:[^/#+]+/)*)"»;
       last_ := «"((?:[^/#+]+/?)*)"» |}
  else processRaw seg.

(** No multi wildcard before the final segment. *)
Fixpoint noEarlyMulti (segs : list str) : bool :=
  match segs with
  | [] => true
  | seg :: rest =>
      (negb (startsWith "#" seg) || bool_decide (rest = []))
        && noEarlyMulti rest
  end.

(** The regular expression of a pattern, term by term.  A token
    contributes its [last] form when it is the final one or stands
    directly before a final multi wildcard. *)
Definition useLastForm (rest : list str) : bool :=
  match rest with
  | [] => true
  | [m] => startsWith "#" m
  | _ => false
  end.

Definition fragment (seg : str) (useLast : bool) : str :=
  if useLast then last_ (tokenOf seg) else piece (tokenOf seg).

Fixpoint sourceOf (segs : list str) : str :=
  match segs with
  | [] => []
  | seg :: rest => fragment seg (useLastForm rest) ++ sourceOf rest
  end.

Definition wildChars : list ascii := ["/"; "#"; "+"].

Definition slash (useLast : bool) : regex :=
  if useLast then Opt (Chr "/") else Chr "/".

(** [[^/#+]+/] and [[^/#+]+/?] as the parser builds them. *)
Definition level (useLast : bool) : regex :=
  Seq (Plus (NotIn wildChars)) (Seq (slash useLast) Empty).

Definition itemsOf (seg : str) (useLast : bool) (g : nat) : list regex :=
  if startsWith "+" seg then [Group g (level useLast)]
  else if startsWith "#" seg then [Group g (Seq (Star (level useLast)) Empty)]
  else map Chr seg ++ [slash useLast].

Definition nextGroup (seg : str) (g : nat) : nat :=
  if isWildcard seg then S g else g.

Fixpoint itemsAll (g : nat) (segs : list str) : list regex :=
  match segs with
  | [] => []
  | seg :: rest =>
      itemsOf seg (useLastForm rest) g ++ itemsAll (nextGroup seg g) rest
  end.

Definition wildcards (segs : list str) : list str :=
  List.filter isWildcard segs.

Definition regexOf (segs : list str) : RegExp :=
  {| re_body := foldr Seq Empty (AssertStart :: itemsAll 0 segs ++ [AssertEnd]);
     re_groups := length (wildcards segs) |}.

Definition frameOf (seg : str) (useLast : bool) (g : nat) (cur : frame)
  : frame :=
  {| terms := rev (itemsOf seg useLast g) ++ terms cur;
     quantifiable := isWildcard seg || negb useLast |}.

Fixpoint frameAll (g : nat) (segs : list str) (cur : frame) : frame :=
  match segs with
  | [] => cur
  | seg :: rest =>
      frameAll (nextGroup seg g) rest (frameOf seg (useLastForm rest) g cur)
  end.

(** ** What the matcher accepts

    A level is the text a wildcard reads between two slashes: not empty
    and free of the three characters of [wildChars]. *)

Definition levelChar (b : ascii) : bool := negb (bool_decide (b ∈ wildChars)).

Definition isLevel (r : str) : bool :=
  match r with
  | [] => false
  | _ => forallb levelChar r
  end.

(** The slash after a level or a literal: mandatory in the [piece] form,
    optional in the [last] form. *)
Definition slashOf (useLast : bool) (sl : str) : Prop :=
  sl = «"/"» ∨ (useLast = true ∧ sl = []).

(** The text of a multi wildcard: levels, each with its slash. *)
Inductive levels (useLast : bool) : str → Prop :=
| levels_nil : levels useLast []
| levels_cons r sl s :
    isLevel r = true → slashOf useLast sl → levels useLast s →
    levels useLast (r ++ sl ++ s).

(** [accepts segs x captures]: [x] is made of one text per segment, in
    order, and [captures] are the texts of the wildcards. *)
Fixpoint accepts (segs : list str) (x : str) (captures : list str) : Prop :=
  match segs with
  | [] => x = [] ∧ captures = []
  | seg :: rest =>
      let ul := useLastForm rest in
      if startsWith "+" seg then
        ∃ r sl y captures',
          isLevel r = true ∧ slashOf ul sl ∧ x = r ++ sl ++ y
          ∧ captures = (r ++ sl) :: captures' ∧ accepts rest y captures'
      else if startsWith "#" seg then
        ∃ s y captures',
          levels ul s ∧ x = s ++ y
          ∧ captures = s :: captures' ∧ accepts rest y captures'
      else
        ∃ sl y, slashOf ul sl ∧ x = seg ++ sl ++ y ∧ accepts rest y captures
  end.

(** Captures are stored group by group, from group [g] on. *)
Fixpoint setCaps (g : nat) (captures : list str) (c : caps) : caps :=
  match captures with
  | [] => c
  | s :: rest => setCaps (S g) rest (<[g := Some s]> c)
  end.

(** The greedy reading of a topic, segment by segment: the longest run of
    level characters, then the slash when there is one.  It is the first
    path the backtracking matcher tries. *)
Fixpoint span (x : str) : str * str :=
  match x with
  | [] => ([], [])
  | b :: x' =>
      if levelChar b then let '(r, y) := span x' in (b :: r, y)
      else ([], x)
  end.

Fixpoint strip (prefix x : str) : option str :=
  match prefix, x with
  | [], _ => Some x
  | a :: prefix', b :: x' => if (a =? b)%char then strip prefix' x' else None
  | _ :: _, [] => None
  end.

Definition eatSlash (useLast : bool) (y : str) : option (str * str) :=
  match y with
  | b :: y' =>
      if (b =? "/")%char then Some («"/"», y')
      else if useLast then Some ([], y) else None
  | [] => if useLast then Some ([], y) else None
  end.

(** Levels and single slashes only, no slash first or after a slash. *)
Fixpoint isLevelsFrom (afterLevel : bool) (x : str) : bool :=
  match x with
  | [] => true
  | b :: x' =>
      if (b =? "/")%char then afterLevel && isLevelsFrom false x'
      else levelChar b && isLevelsFrom true x'
  end.

Definition isLevels (x : str) : bool := isLevelsFrom false x.

Fixpoint refMatch (segs : list str) (x : str) : option (list str) :=
  match segs with
  | [] => match x with [] => Some [] | _ => None end
  | seg :: rest =>
      let ul := useLastForm rest in
      if startsWith "+" seg then
        let '(r, y) := span x in
        if isLevel r then
          '(sl, y') ← eatSlash ul y;
          captures ← refMatch rest y';
          Some ((r ++ sl) :: captures)
        else None
      else if startsWith "#" seg then
        if isLevels x then
          captures ← refMatch rest [];
          Some (x :: captures)
        else None
      else
        y ← strip seg x;
        '(_, y') ← eatSlash ul y;
        refMatch rest y'
  end.

(** ** Derived views of a pattern *)

(** What [buildTopic] makes of a segment. *)
Definition render (seg : str) : str :=
  if startsWith "+" seg then «"+"»
  else if startsWith "#" seg then «"#"»
  else escapeStringRegexp seg.

(** The parameter a capture is turned into, and the bag the captures of
    the wildcards build up, in order. *)
Definition paramOf (seg capture : str) : value :=
  if startsWith "#" seg then
    let param := split "/" capture in
    if negb (truthy (getLastItem param)) then Sequence (removeLastItem param)
    else Sequence param
  else if bool_decide (getLastItem capture = Some "/")
    then Scalar (removeLastItem capture)
    else Scalar capture.

Fixpoint extract (ws captures : list str) (acc : params) : params :=
  match ws, captures with
  | w :: ws', capture :: captures' =>
      extract ws' captures'
        (if truthy (Some (drop 1 w))
         then assign acc (drop 1 w) (paramOf w capture) else acc)
  | _, _ => acc
  end.

(** ** Topics written segment by segment

    [conformsTo seg text]: the text a topic may carry in the place of the
    segment: the segment itself when it is raw, a level for a single
    wildcard, levels joined by slashes (or nothing) for a multi
    wildcard. *)
Definition isLevelList (text : str) : bool :=
  match text with
  | [] => true
  | _ => forallb isLevel (split "/" text)
  end.

Definition conformsTo (seg text : str) : bool :=
  if startsWith "+" seg then isLevel text
  else if startsWith "#" seg then isLevelList text
  else bool_decide (text = seg).

(** The captures of the wildcards on such a topic. *)
Fixpoint capsOf (segs texts : list str) : list str :=
  match segs, texts with
  | seg :: rest, text :: texts' =>
      if startsWith "+" seg then
        (text ++ match rest with [] => [] | _ => «"/"» end) :: capsOf rest texts'
      else if startsWith "#" seg then text :: capsOf rest texts'
      else capsOf rest texts'
  | _, _ => []
  end.

(** A parameter bag fits a pattern when every wildcard is named and finds
    a value of its kind made of levels, and the bag has no other key. *)
Definition typedSeg (ps : params) (seg : str) : bool :=
  if startsWith "+" seg then
    match ps !! drop 1 seg with
    | Some (Scalar r) => truthy (Some (drop 1 seg)) && isLevel r
    | _ => false
    end
  else if startsWith "#" seg then
    match ps !! drop 1 seg with
    | Some (Sequence l) => truthy (Some (drop 1 seg)) && forallb isLevel l
    | _ => false
    end
  else true.

Definition wellTyped (ps : params) (segs : list str) : bool :=
  forallb (typedSeg ps) segs.

Definition covered (ps : params) (segs : list str) : bool :=
  forallb (fun key => bool_decide (key ∈ map (drop 1) (wildcards segs)))
    (map fst (map_to_list ps)).

(** Whether the value of a wildcard is kept by [assign]: always for a
    multi wildcard, and for a single wildcard unless its name is
    [__proto__]. *)
Definition stored (w : str) : bool :=
  startsWith "#" w || negb (bool_decide (drop 1 w = protoName)).

(** A segment a bag can be read back from: a typed one, or the single
    wildcard named [__proto__] when the bag holds nothing under that
    name (the topic then carries the text of the prototype there, and
    the value read from it is dropped). *)
Definition fitsSeg (ps : params) (seg : str) : bool :=
  if isWildcard seg && negb (stored seg)
  then bool_decide (ps !! protoName = None)
  else typedSeg ps seg.

(** ** The segments of a topic that matches

    [shape segs T]: what the segments [T] of a matching topic look like,
    position by position.  A raw segment directly before a final multi
    wildcard only has to be a prefix of its topic segment; a final multi
    wildcard leaves level characters only in all that follows. *)
Definition levelOnly (t : str) : Prop := forallb levelChar t = true.

Definition beforeMulti (rest : list str) : bool :=
  match rest with
  | [m] => startsWith "#" m
  | _ => false
  end.

Definition headOK (seg t : str) (bm : bool) : Prop :=
  if startsWith "+" seg then isLevel t = true
  else if bm then ∃ e, t = seg ++ e ∧ levelOnly e
  else t = seg.

Fixpoint shape (segs : list str) (T : list str) : Prop :=
  match segs with
  | [] => T = [] ∨ T = [[]]
  | seg :: rest =>
      if startsWith "#" seg then Forall levelOnly T
      else match T with
           | [] => False
           | t :: T' => headOK seg t (beforeMulti rest) ∧ shape rest T'
           end
  end.

(** The compiled pattern of a pattern string known to compile. *)
Definition compiled (pattern : str) : Pattern :=
  match Pattern.from pattern with
  | Ok p => p
  | Throw _ =>
      {| _pattern := pattern; _topic := [];
         _regex := {| re_body := Empty; re_groups := 0 |};
         _tokens := []; _paramCount := 0 |}
  end.

(** ** Names and values of the extracted parameters *)

(** The wildcard segments that carry a name. *)
Definition namedWildcards (segs : list str) : list str :=
  List.filter (fun w => truthy (Some (drop 1 w))) (wildcards segs).

(** A value made of levels: one level, or a list of levels. *)
Definition levelValue (v : value) : bool :=
  match v with
  | Scalar r => isLevel r
  | Sequence l => forallb isLevel l
  end.

(** What a wildcard may capture: a level with or without its slash, or
    the text of a multi wildcard. *)
Definition captureOK (w capture : str) : Prop :=
  if startsWith "#" w then ∃ ul, levels ul capture
  else ∃ r sl, isLevel r = true ∧ capture = r ++ sl ∧ (sl = «"/"» ∨ sl = []).

(** The segments a multi wildcard is bound to: those of the list, without
    the empty one a slash at the end leaves. *)
Definition dropEmptyLast (T : list str) : list str :=
  if negb (truthy (getLastItem T)) then removeLastItem T else T.

(** ** The [Bus] class

    [_patterns] is a [Map] from labels to compiled patterns: its entries
    stay in insertion order, [set] on a label that is present replaces
    the pattern in place, and [for ... of] visits the entries in that
    order.  The MQTT client is a handle the model does not look into:
    only whether it is [null] is read.  A rejected promise and a thrown
    error are both the [Throw] result; an incoming packet is its topic,
    a string: the payload of a message takes no part in choosing the
    topic or the label and is left out. *)

Abbreviation entries := (list (str * Pattern)).

Definition Map_has (es : entries) (key : str) : bool :=
  bool_decide (key ∈ map fst es).

Fixpoint Map_get (es : entries) (key : str) : option Pattern :=
  match es with
  | [] => None
  | (k, v) :: es' => if decide (k = key) then Some v else Map_get es' key
  end.

Fixpoint Map_set (es : entries) (key : str) (v : Pattern) : entries :=
  match es with
  | [] => [(key, v)]
  | (k, v') :: es' =>
      if decide (k = key) then (k, v) :: es' else (k, v') :: Map_set es' key v
  end.

Definition Map_delete (es : entries) (key : str) : entries :=
  List.filter (fun e => negb (bool_decide (e.1 = key))) es.

Inductive Client : Type := MqttClient.

Record Bus : Type := mkBus {
  _patterns : entries;
  _client : option Client
}.

Module Bus.

(** The state the constructor leaves. *)
Definition new : Bus := {| _patterns := []; _client := None |}.

Definition isAvailable (bus : Bus) : bool :=
  match _client bus with
  | Some _ => true
  | None => false
  end.

Definition setPattern (bus : Bus) (label pattern : str) : result Bus :=
  if Map_has (_patterns bus) label
  then Throw («"label already in use ("» ++ label ++ «")"»)
  else
    p ← Pattern.from pattern;
    Ok {| _patterns := Map_set (_patterns bus) label p;
          _client := _client bus |}.

Definition removePattern (bus : Bus) (label : str) : result Bus :=
  if Map_has (_patterns bus) label
  then Throw («"unknown label ("» ++ label ++ «")"»)
  else Ok {| _patterns := Map_delete (_patterns bus) label;
             _client := _client bus |}.

(** [publish]: the topic handed to the client, or the rejection.
    [Object.keys(params).length] is the number of keys of the bag. *)
Definition publish (bus : Bus) (label : str) (ps : params) : result str :=
  if negb (isAvailable bus) then Throw «"bus not available"»
  else if negb (Map_has (_patterns bus) label)
  then Throw («"unknown label ("» ++ label ++ «")"»)
  else
    match Map_get (_patterns bus) label with
    | None => Throw «"TypeError"»
    | Some pattern =>
        let paramCount := size ps in
        let actualParamCount := Pattern.getParameterCount pattern in
        if negb (bool_decide (paramCount = actualParamCount))
        then Throw («"wrong parameter count, got "» ++ s2l (pretty paramCount)
                      ++ «", expected "» ++ s2l (pretty actualParamCount))
        else Ok (Pattern.buildParameterizedTopic pattern ps)
    end.

(** The loop of [_handleMessagePacket] over the entries, up to its call
    of [emit]: the label and the parameters of the packet that [emit] is
    called with, or nothing when the loop ends without a match.  What
    [emit] then does is left out (it calls the listeners of the label,
    and throws when one of them throws, or when the label is [error] and
    has no listener): [Throw] is an error raised before that call. *)
Fixpoint forOfPatterns (es : entries) (topic : str)
  : result (option (str * params)) :=
  match es with
  | [] => Ok None
  | (label, pattern) :: rest =>
      match Pattern.match_ pattern topic with
      | Some mt =>
          ps ← Pattern.getParameters pattern (Some mt);
          Ok (Some (label, ps))
      | None => forOfPatterns rest topic
      end
  end.

Definition _handleMessagePacket (bus : Bus) (topic : str)
  : result (option (str * params)) :=
  forOfPatterns (_patterns bus) topic.

End Bus.

(** The states a bus goes through: the constructor's, then calls of
    [setPattern] and [removePattern] that return, and connecting or
    ending, which only change the client. *)
Inductive reachable : Bus → Prop :=
| reachable_new : reachable Bus.new
| reachable_set bus label pattern bus' :
    reachable bus → Bus.setPattern bus label pattern = Ok bus' →
    reachable bus'
| reachable_remove bus label bus' :
    reachable bus → Bus.removePattern bus label = Ok bus' →
    reachable bus'
| reachable_client bus c :
    reachable bus →
    reachable {| _patterns := _patterns bus; _client := c |}.

(** Every entry holds a pattern that [Pattern.from] returned. *)
Definition compiledEntries (es : entries) : Prop :=
  Forall (fun e => ∃ pattern, Pattern.from pattern = Ok e.2) es.


(** * Properties *)

Local Arguments Ascii.eqb : simpl never.

(** ** Splitting and joining *)

Lemma split_not_nil sep s : split sep s ≠ [].
Proof.
  destruct s as [|c s]; simpl; [done|].
  case_decide; [done|]. by destruct (split sep s).
Qed.

Lemma join_cons sep s l :
  l ≠ [] → join sep (s :: l) = s ++ sep :: join sep l.
Proof. by destruct l. Qed.

Lemma join_split sep s : join sep (split sep s) = s.
Proof.
  induction s as [|c s IH]; simpl; [done|].
  case_decide as Hc.
  - rewrite join_cons by apply split_not_nil. simpl. by rewrite IH, Hc.
  - pose proof (split_not_nil sep s) as Hne.
    destruct (split sep s) as [|seg segs]; [done|].
    destruct segs as [|seg' segs]; simpl in *; by rewrite <- IH.
Qed.

Lemma split_no_sep sep s : sep ∉ s → split sep s = [s].
Proof.
  induction s as [|c s IH]; intros Hs; simpl; [done|].
  rewrite not_elem_of_cons in Hs. destruct Hs as [Hc Hs].
  rewrite decide_False by done. by rewrite IH.
Qed.

Lemma split_app sep a b :
  sep ∉ a → split sep (a ++ sep :: b) = a :: split sep b.
Proof.
  induction a as [|c a IH]; intros Ha; simpl.
  - by rewrite decide_True.
  - rewrite not_elem_of_cons in Ha. destruct Ha as [Hc Ha].
    rewrite decide_False by done. by rewrite IH.
Qed.

Lemma split_join sep l :
  l ≠ [] → Forall (fun s => sep ∉ s) l → split sep (join sep l) = l.
Proof.
  induction l as [|s l IH]; intros Hne Hl; [done|].
  inversion Hl as [|? ? Hs Hl']; subst.
  destruct l as [|s' l].
  - simpl. by apply split_no_sep.
  - rewrite join_cons by done. rewrite split_app by done.
    by rewrite IH.
Qed.

Lemma split_segments sep s : Forall (fun seg => sep ∉ seg) (split sep s).
Proof.
  induction s as [|c s IH]; simpl.
  - repeat constructor. by intros ?%elem_of_nil.
  - case_decide as Hc.
    + constructor; [by intros ?%elem_of_nil | done].
    + destruct (split sep s) as [|seg segs]; inversion IH; subst.
      * repeat constructor. by intros ->%list_elem_of_singleton.
      * constructor; [|done]. rewrite not_elem_of_cons. by split.
Qed.

(** ** The tokenizer *)

Lemma noEarlyMulti_spec segs :
  noEarlyMulti segs = false ↔
  ∃ i seg, segs !! i = Some seg ∧ startsWith "#" seg = true
           ∧ i + 1 ≠ length segs.
Proof.
  induction segs as [|seg rest IH]; simpl.
  - split; [done|]. by intros (i & s & Hi & _).
  - rewrite andb_false_iff, IH, orb_false_iff, negb_false_iff,
      bool_decide_eq_false. split.
    + intros [[Hm Hr]|(i & s & Hi & Hm & Hl)].
      * exists 0, seg. repeat split; [done|]. destruct rest; simpl; [done|lia].
      * exists (S i), s. repeat split; [done..|]. simpl; lia.
    + intros (i & s & Hi & Hm & Hl). destruct i as [|i]; simpl in *.
      * left. simplify_eq. split; [done|]. intros ->. simpl in *. lia.
      * right. exists i, s. repeat split; [done..|]. lia.
Qed.

Lemma processToken_eq seg i all :
  processToken seg i all =
  if startsWith "#" seg && negb (bool_decide (i + 1 = length all))
  then Throw «"# wildcard must be at the end of the pattern"»
  else Ok (tokenOf seg).
Proof.
  unfold processToken, tokenOf, startsWith, processMulti.
  destruct seg as [|c seg]; simpl; [done|].
  destruct (Ascii.eqb_spec c "+") as [->|Hp]; simpl; [done|].
  destruct (Ascii.eqb_spec c "#") as [->|Hm]; simpl; [|done].
  by destruct (bool_decide _).
Qed.

Lemma mapi_tokens pre l :
  mapi_result (fun tok i => processToken tok i (pre ++ l)) (length pre) l =
  if noEarlyMulti l then Ok (map tokenOf l)
  else Throw «"# wildcard must be at the end of the pattern"».
Proof.
  revert pre. induction l as [|seg rest IH]; intros pre; simpl; [done|].
  rewrite processToken_eq.
  assert (bool_decide (length pre + 1 = length (pre ++ seg :: rest))
          = bool_decide (rest = [])) as ->.
  { apply bool_decide_ext. rewrite length_app. simpl.
    destruct rest; simpl; split; (done || lia). }
  specialize (IH (pre ++ [seg])).
  rewrite <- app_assoc, length_app in IH. simpl in IH.
  replace (length pre + 1) with (S (length pre)) in IH by lia.
  destruct (startsWith "#" seg), (bool_decide (rest = [])); simpl; try done.
  all: unfold mbind; simpl; rewrite IH; by destruct (noEarlyMulti rest).
Qed.

Lemma tokenize_eq pattern :
  tokenize pattern =
  if noEarlyMulti (split "/" pattern)
  then Ok (map tokenOf (split "/" pattern))
  else Throw «"# wildcard must be at the end of the pattern"».
Proof. unfold tokenize. apply (mapi_tokens []). Qed.

(** ** The source string always parses *)

Lemma type_tokenOf seg :
  type (tokenOf seg) =
  if startsWith "+" seg then SINGLE
  else if startsWith "#" seg then MULTI else RAW.
Proof. unfold tokenOf. by repeat case_match. Qed.

Lemma lastIsMULTI_snoc pre m :
  lastIsMULTI (map tokenOf (pre ++ [m])) = startsWith "#" m.
Proof.
  unfold lastIsMULTI, getLastItem. rewrite map_app. simpl.
  rewrite last_snoc, type_tokenOf. unfold startsWith.
  destruct m as [|c m]; simpl; [done|].
  destruct (Ascii.eqb_spec c "+") as [->|?]; [done|].
  by destruct (c =? "#")%char.
Qed.

Lemma regexFragments_eq pre l :
  regexFragments (length (pre ++ l)) (lastIsMULTI (map tokenOf (pre ++ l)))
    (length pre) (map tokenOf l) = sourceOf l.
Proof.
  revert pre. induction l as [|seg rest IH]; intros pre; simpl; [done|].
  specialize (IH (pre ++ [seg])).
  rewrite <- app_assoc, (length_app pre [seg]) in IH. simpl in IH.
  replace (length pre + 1) with (S (length pre)) in IH by lia.
  rewrite IH. f_equal. unfold fragment.
  rewrite length_app. simpl.
  destruct rest as [|m [|m' rest]]; simpl.
  - rewrite bool_decide_eq_true_2 by lia. done.
  - rewrite (bool_decide_eq_false_2 (_ + 1 = _)) by lia.
    rewrite bool_decide_eq_true_2 by lia. simpl.
    replace (pre ++ [seg; m]) with ((pre ++ [seg]) ++ [m])
      by by rewrite <- app_assoc.
    by rewrite lastIsMULTI_snoc.
  - rewrite !bool_decide_eq_false_2 by lia. done.
Qed.

Lemma regexStr_eq segs : regexStr (map tokenOf segs) = sourceOf segs.
Proof.
  unfold regexStr. rewrite length_map. apply (regexFragments_eq [] segs).
Qed.

Lemma isOperator_isSyntax c : isSyntax c = isOperator c.
Proof.
  by destruct c as [[] [] [] [] [] [] [] []].
Qed.

Lemma parse_plain c rest stk cur n :
  isOperator c = false →
  parse (c :: rest) stk cur None n = parse rest stk (atom (Chr c) cur) None n.
Proof.
  intros Hc. simpl. rewrite isOperator_isSyntax, Hc.
  repeat lazymatch goal with
  | |- context [Ascii.eqb c ?d] =>
      destruct (Ascii.eqb_spec c d) as [->|?]; [by vm_compute in Hc|]
  end.
  done.
Qed.

Lemma parse_escaped c rest stk cur n :
  isOperator c = true →
  parse ("\" :: c :: rest) stk cur None n =
  parse rest stk (atom (Chr c) cur) None n.
Proof. intros Hc. simpl. by rewrite isOperator_isSyntax, Hc. Qed.

Lemma parse_literal seg rest stk cur n :
  parse (escapeStringRegexp seg ++ rest) stk cur None n =
  parse rest stk
    {| terms := rev (map Chr seg) ++ terms cur;
       quantifiable := match seg with [] => quantifiable cur | _ => true end |}
    None n.
Proof.
  revert cur. induction seg as [|c seg IH]; intros cur; simpl.
  - by destruct cur.
  - destruct (isOperator c) eqn:Hc.
    + change (parse rest stk ?f None n) with (parse rest stk f None n).
      rewrite <- app_comm_cons, <- app_comm_cons, parse_escaped, IH by done.
      f_equal. unfold atom; simpl. rewrite <- app_assoc. simpl.
      by destruct seg.
    + rewrite <- app_comm_cons, parse_plain, IH by done.
      f_equal. unfold atom; simpl. rewrite <- app_assoc. simpl.
      by destruct seg.
Qed.

Lemma parse_fragment seg useLast rest stk cur n :
  parse (fragment seg useLast ++ rest) stk cur None n =
  parse rest stk (frameOf seg useLast n cur) None (nextGroup seg n).
Proof.
  unfold fragment, frameOf, nextGroup, itemsOf, isWildcard, tokenOf.
  destruct (startsWith "+" seg) eqn:Hs; [by destruct useLast|].
  destruct (startsWith "#" seg) eqn:Hm; [by destruct useLast|].
  simpl. destruct useLast; simpl.
  - rewrite <- app_assoc, parse_literal. simpl.
    rewrite rev_app_distr. simpl. done.
  - rewrite <- app_assoc, parse_literal. simpl.
    rewrite rev_app_distr. simpl. done.
Qed.

Lemma parse_source segs rest stk cur n :
  parse (sourceOf segs ++ rest) stk cur None n =
  parse rest stk (frameAll n segs cur) None (n + length (wildcards segs)).
Proof.
  revert cur n. induction segs as [|seg segs IH]; intros cur n; simpl.
  - by rewrite Nat.add_0_r.
  - rewrite <- app_assoc, parse_fragment, IH. f_equal.
    unfold nextGroup. destruct (isWildcard seg); simpl; lia.
Qed.

Lemma terms_frameAll g segs cur :
  terms (frameAll g segs cur) = rev (itemsAll g segs) ++ terms cur.
Proof.
  revert g cur. induction segs as [|seg segs IH]; intros g cur; simpl; [done|].
  rewrite IH. simpl. by rewrite rev_app_distr, <- app_assoc.
Qed.

Lemma RegExp_new_source segs :
  RegExp_new (regexSource (map tokenOf segs)) = Ok (regexOf segs).
Proof.
  unfold RegExp_new, regexSource. rewrite regexStr_eq.
  change (parse («"^"» ++ sourceOf segs ++ «"$"») [] frame0 None 0)
    with (parse (sourceOf segs ++ «"$"») [] (assertion AssertStart frame0) None 0).
  rewrite parse_source. simpl. unfold flush, regexOf. simpl.
  rewrite terms_frameAll. simpl.
  by rewrite rev_app_distr, rev_involutive.
Qed.

Lemma from_eq pattern :
  Pattern.from pattern =
  if noEarlyMulti (split "/" pattern)
  then Ok {| _pattern := pattern;
             _topic := buildTopic (map tokenOf (split "/" pattern));
             _regex := regexOf (split "/" pattern);
             _tokens := map tokenOf (split "/" pattern);
             _paramCount := buildParameterCount (map tokenOf (split "/" pattern)) |}
  else Throw «"# wildcard must be at the end of the pattern"».
Proof.
  unfold Pattern.from. rewrite tokenize_eq.
  destruct (noEarlyMulti _); [|done].
  unfold mbind; simpl. unfold buildRegularExpression.
  by rewrite RegExp_new_source.
Qed.

(** ** The matcher on the terms of a pattern *)

Lemma strip_Some prefix x y : strip prefix x = Some y ↔ x = prefix ++ y.
Proof.
  revert x. induction prefix as [|a prefix IH]; intros x; simpl.
  - split; congruence.
  - destruct x as [|b x]; [done|].
    destruct (Ascii.eqb_spec a b) as [->|Hab].
    + rewrite IH. split; congruence.
    + split; [done|]. congruence.
Qed.

Lemma span_app x r y : span x = (r, y) → x = r ++ y.
Proof.
  revert r y. induction x as [|b x IH]; intros r y; simpl.
  - by intros [= <- <-].
  - destruct (levelChar b); [|by intros [= <- <-]].
    destruct (span x) as [r' y']. intros [= <- <-]. simpl.
    f_equal. by apply IH.
Qed.

Lemma eatSlash_app ul y sl y' :
  eatSlash ul y = Some (sl, y') → y = sl ++ y' ∧ slashOf ul sl.
Proof.
  unfold eatSlash, slashOf. destruct y as [|b y]; simpl.
  - destruct ul; [|done]. intros [= <- <-]. auto.
  - destruct (Ascii.eqb_spec b "/") as [->|Hb].
    + intros [= <- <-]. auto.
    + destruct ul; [|done]. intros [= <- <-]. auto.
Qed.

Lemma isLevel_forallb r : isLevel r = true → forallb levelChar r = true.
Proof. by destruct r. Qed.

Section Matcher.

Variable tot : nat.

Lemma m_literal seg its x c k :
  m tot (foldr Seq Empty (map Chr seg ++ its)) x c k =
  match strip seg x with
  | Some y => m tot (foldr Seq Empty its) y c k
  | None => None
  end.
Proof.
  revert x. induction seg as [|a seg IH]; intros x; simpl; [done|].
  destruct x as [|b x]; [done|]. destruct (a =? b)%char; [apply IH|done].
Qed.

Lemma slash_sound ul x c k z :
  m tot (slash ul) x c k = Some z →
  ∃ sl y, slashOf ul sl ∧ x = sl ++ y ∧ k y c = Some z.
Proof.
  unfold slashOf. destruct ul; simpl.
  - destruct x as [|b x]; simpl.
    + intros Hk. exists [], []. auto.
    + destruct (Ascii.eqb_spec "/" b) as [<-|Hb].
      * rewrite bool_decide_eq_true_2 by lia.
        destruct (k x c) eqn:Hk.
        -- intros [= <-]. exists «"/"», x. auto.
        -- intros Hk'. exists [], ("/" :: x). auto.
      * intros Hk'. exists [], (b :: x). auto.
  - destruct x as [|b x]; [done|].
    destruct (Ascii.eqb_spec "/" b) as [<-|Hb]; [|done].
    intros Hk. exists «"/"», x. auto.
Qed.

Lemma slash_greedy ul y sl y' c k z :
  eatSlash ul y = Some (sl, y') → k y' c = Some z →
  m tot (slash ul) y c k = Some z.
Proof.
  unfold eatSlash. destruct y as [|b y]; simpl.
  - destruct ul; [|done]. by intros [= <- <-].
  - rewrite (Ascii.eqb_sym b). destruct (Ascii.eqb_spec "/" b) as [<-|Hb].
    + intros [= <- <-] Hk. destruct ul; simpl; [|done].
      rewrite bool_decide_eq_true_2 by lia. by rewrite Hk.
    + destruct ul; [|done]. intros [= <- <-] Hk. simpl.
      apply Ascii.eqb_neq in Hb. by rewrite Hb.
Qed.

Lemma repeat_run_sound n x c k z :
  repeat (m tot (NotIn wildChars)) [] n x c k = Some z →
  ∃ r y, x = r ++ y ∧ forallb levelChar r = true ∧ k y c = Some z.
Proof.
  revert x. induction n as [|n IH]; intros x; simpl.
  - intros Hk. by exists [], x.
  - destruct x as [|b x]; [intros Hk; by exists [], []|].
    destruct (bool_decide (b ∈ wildChars)) eqn:Hb.
    { intros Hk. by exists [], (b :: x). }
    rewrite bool_decide_eq_true_2 by (simpl; lia).
    destruct (repeat _ _ n x c k) eqn:Hr.
    + intros [= <-]. apply IH in Hr as (r & y & -> & Hr & Hk).
      exists (b :: r), y. simpl. unfold levelChar at 1. by rewrite Hb.
    + intros Hk. by exists [], (b :: x).
Qed.

Lemma run_sound x c k z :
  m tot (Plus (NotIn wildChars)) x c k = Some z →
  ∃ r y, x = r ++ y ∧ isLevel r = true ∧ k y c = Some z.
Proof.
  simpl. destruct x as [|b x]; [done|].
  destruct (bool_decide (b ∈ wildChars)) eqn:Hb; [done|].
  intros (r & y & -> & Hr & Hk)%repeat_run_sound.
  exists (b :: r), y. simpl. unfold levelChar at 1. by rewrite Hb.
Qed.

Lemma repeat_S mr gs n x c k :
  repeat mr gs (S n) x c k =
  match mr x (clear gs c) (fun y c' =>
          if bool_decide (length y < length x)
          then repeat mr gs n y c' k else None) with
  | Some z => Some z
  | None => k x c
  end.
Proof. done. Qed.

Lemma m_NotIn cs b x c k :
  m tot (NotIn cs) (b :: x) c k =
  if bool_decide (b ∈ cs) then None else k x c.
Proof. done. Qed.

Lemma repeat_run_greedy x n c k z r y :
  span x = (r, y) → length x ≤ n → k y c = Some z →
  repeat (m tot (NotIn wildChars)) [] n x c k = Some z.
Proof.
  revert n r. induction x as [|b x IH]; intros n r.
  - intros [= <- <-] _ Hk. by destruct n.
  - cbn [span]. unfold levelChar at 1.
    destruct (bool_decide (b ∈ wildChars)) eqn:Hb; cbn [negb].
    + intros [= <- <-] _ Hk. destruct n; [done|].
      by rewrite repeat_S, m_NotIn, Hb.
    + destruct (span x) as [r' y'] eqn:Hs. intros [= <- <-] Hn Hk.
      destruct n as [|n]; [simpl in Hn; lia|].
      rewrite repeat_S, m_NotIn, Hb. change (clear [] c) with c.
      rewrite bool_decide_eq_true_2 by (simpl; lia).
      rewrite (IH n r') by (done || simpl in Hn; lia). done.
Qed.

Lemma m_Plus r x c k :
  m tot (Plus r) x c k =
  m tot r x (clear (groups r) c) (fun y c' =>
    repeat (m tot r) (groups r) (length y) y c' k).
Proof. done. Qed.

Lemma run_greedy x c k z r y :
  span x = (r, y) → isLevel r = true → k y c = Some z →
  m tot (Plus (NotIn wildChars)) x c k = Some z.
Proof.
  destruct x as [|b x]; cbn [span]; [by intros [= <- <-]|].
  unfold levelChar at 1.
  destruct (bool_decide (b ∈ wildChars)) eqn:Hb; cbn [negb].
  { by intros [= <- <-]. }
  destruct (span x) as [r' y'] eqn:Hs. intros [= <- <-] _ Hk.
  rewrite m_Plus, m_NotIn, Hb. by eapply repeat_run_greedy.
Qed.

Lemma level_sound ul x c k z :
  m tot (level ul) x c k = Some z →
  ∃ r sl y, isLevel r = true ∧ slashOf ul sl ∧ x = r ++ sl ++ y
            ∧ k y c = Some z.
Proof.
  unfold level. change (m tot (Seq ?a ?b) x c k)
    with (m tot a x c (fun y c' => m tot b y c' k)).
  intros (r & y & -> & Hr & Hk)%run_sound.
  change (m tot (Seq ?a Empty) y c k) with (m tot a y c k) in Hk.
  apply slash_sound in Hk as (sl & y' & Hsl & -> & Hk).
  by exists r, sl, y'.
Qed.

Lemma level_greedy ul x c k z r y sl y' :
  span x = (r, y) → isLevel r = true → eatSlash ul y = Some (sl, y') →
  k y' c = Some z →
  m tot (level ul) x c k = Some z.
Proof.
  intros Hs Hr He Hk. unfold level.
  change (m tot (Seq ?a ?b) x c k)
    with (m tot a x c (fun y c' => m tot b y c' k)).
  eapply run_greedy; [done..|].
  change (m tot (Seq ?a Empty) y c k) with (m tot a y c k).
  by eapply slash_greedy.
Qed.

Lemma levels_sound ul n x c k z :
  repeat (m tot (level ul)) [] n x c k = Some z →
  ∃ s y, levels ul s ∧ x = s ++ y ∧ k y c = Some z.
Proof.
  revert x. induction n as [|n IH]; intros x.
  - simpl. intros Hk. exists [], x. split; [constructor|done].
  - cbn [repeat]. change (clear [] c) with c.
    destruct (m tot (level ul) x c _) eqn:Hm.
    + intros [= <-].
      apply level_sound in Hm as (r & sl & y & Hr & Hsl & -> & Hk).
      case_bool_decide; [|done].
      apply IH in Hk as (s & y' & Hs & -> & Hk).
      exists (r ++ sl ++ s), y'. rewrite <- !app_assoc.
      split; [by constructor|done].
    + intros Hk. exists [], x. split; [constructor|done].
Qed.

Lemma levelChar_slash b : levelChar b = true → (b =? "/")%char = false.
Proof.
  destruct (Ascii.eqb_spec b "/") as [->|]; [|done]. by vm_compute.
Qed.

Lemma isLevelsFrom_span x r y :
  isLevelsFrom true x = true → span x = (r, y) →
  ∃ sl y', eatSlash true y = Some (sl, y') ∧ isLevels y' = true.
Proof.
  revert r. induction x as [|b x IH]; intros r; cbn [isLevelsFrom span].
  - intros _ [= <- <-]. by exists [], [].
  - destruct (Ascii.eqb_spec b "/") as [->|Hb].
    + intros Hx. change (levelChar "/") with false. intros [= <- <-].
      exists «"/"», x. by rewrite andb_true_l in Hx.
    + intros [Hc Hx]%andb_true_iff. rewrite Hc.
      destruct (span x) as [r' y'] eqn:Hs. intros [= <- <-]. by eapply IH.
Qed.

Lemma isLevel_span b x r y :
  levelChar b = true → span (b :: x) = (r, y) → isLevel r = true.
Proof.
  cbn [span]. intros Hb. rewrite Hb.
  destruct (span x) as [r' y'] eqn:Hs. intros [= <- <-].
  cbn. rewrite Hb. clear Hb b. revert r' Hs.
  induction x as [|b x IH]; intros r'; cbn [span].
  - by intros [= <- <-].
  - destruct (levelChar b) eqn:Hb; [|by intros [= <- <-]].
    destruct (span x) as [r'' y''] eqn:Hs. intros [= <- <-].
    cbn. rewrite Hb. by eapply IH.
Qed.

Lemma isLevels_step x :
  isLevels x = true → x ≠ [] →
  ∃ r y sl y', span x = (r, y) ∧ isLevel r = true
    ∧ eatSlash true y = Some (sl, y') ∧ isLevels y' = true
    ∧ length y' < length x.
Proof.
  destruct x as [|b x]; [done|]. intros Hx _.
  unfold isLevels in Hx. cbn [isLevelsFrom] in Hx.
  destruct (Ascii.eqb_spec b "/") as [->|Hb]; [done|].
  apply andb_true_iff in Hx as [Hc Hx].
  destruct (span (b :: x)) as [r y] eqn:Hs.
  pose proof (isLevel_span _ _ _ _ Hc Hs) as Hr.
  assert (∃ sl y', eatSlash true y = Some (sl, y') ∧ isLevels y' = true)
    as (sl & y' & He & Hy').
  { cbn [span] in Hs. rewrite Hc in Hs.
    destruct (span x) as [r' y0] eqn:Hs'. injection Hs as <- <-.
    by eapply isLevelsFrom_span. }
  exists r, y, sl, y'. repeat split; try done.
  apply span_app in Hs. apply eatSlash_app in He as [-> _].
  rewrite Hs, !length_app. destruct r; [done|]. simpl. lia.
Qed.

Lemma levels_greedy n x c k z :
  isLevels x = true → length x ≤ n → k [] c = Some z →
  repeat (m tot (level true)) [] n x c k = Some z.
Proof.
  revert x. induction n as [|n IH]; intros x Hx Hn Hk.
  - destruct x; [done|]. simpl in Hn. lia.
  - rewrite repeat_S. change (clear [] c) with c.
    destruct x as [|b x]; [by rewrite Hk|].
    destruct (isLevels_step (b :: x)) as (r & y & sl & y' & Hs & Hr & He & Hy' & Hlen);
      [done..|].
    erewrite level_greedy; [done..|].
    rewrite bool_decide_eq_true_2 by done.
    apply IH; [done| |done]. simpl in *. lia.
Qed.

Lemma take_consumed (a b : str) :
  take (length (a ++ b) - length b) (a ++ b) = a.
Proof.
  rewrite length_app, Nat.add_sub. by rewrite take_app_length.
Qed.

Lemma noEarlyMulti_multi seg rest :
  noEarlyMulti (seg :: rest) = true → startsWith "#" seg = true → rest = [].
Proof.
  simpl. intros [H _]%andb_true_iff Hm. rewrite Hm in H. simpl in H.
  by apply bool_decide_eq_true in H.
Qed.

Lemma noEarlyMulti_tail seg rest :
  noEarlyMulti (seg :: rest) = true → noEarlyMulti rest = true.
Proof. simpl. by intros [_ H]%andb_true_iff. Qed.

Lemma items_sound segs g x c k z :
  m tot (foldr Seq Empty (itemsAll g segs ++ [AssertEnd])) x c k = Some z →
  ∃ captures, accepts segs x captures ∧ k [] (setCaps g captures c) = Some z.
Proof.
  revert g x c. induction segs as [|seg rest IH]; intros g x c.
  - simpl. destruct x; [|done]. intros Hk. by exists [].
  - cbn [itemsAll accepts]. rewrite <- app_assoc.
    unfold itemsOf, nextGroup, isWildcard.
    destruct (startsWith "+" seg) eqn:Hs; [|destruct (startsWith "#" seg) eqn:Hm].
    + cbn [app foldr orb].
      change (m tot (Seq (Group g ?b) ?R) x c k)
        with (m tot b x c (fun y c' =>
                m tot R y (<[g := Some (take (length x - length y) x)]> c') k)).
      intros (r & sl & y & Hr & Hsl & -> & Hk)%level_sound.
      rewrite app_assoc, take_consumed in Hk.
      apply IH in Hk as (captures & Hacc & Hk).
      exists ((r ++ sl) :: captures). split; [|done].
      by exists r, sl, y, captures.
    + cbn [app foldr orb].
      assert (m tot (Seq (Group g (Seq (Star (level (useLastForm rest))) Empty))
                (foldr Seq Empty (itemsAll (S g) rest ++ [AssertEnd]))) x c k
              = repeat (m tot (level (useLastForm rest))) [] (length x) x c
                  (fun y c' =>
                     m tot (foldr Seq Empty (itemsAll (S g) rest ++ [AssertEnd])) y
                       (<[g := Some (take (length x - length y) x)]> c') k)) as ->
        by by destruct (useLastForm rest).
      intros (s & y & Hsl & -> & Hk)%levels_sound.
      rewrite take_consumed in Hk.
      apply IH in Hk as (captures & Hacc & Hk).
      exists (s :: captures). split; [|done].
      by exists s, y, captures.
    + cbn [orb]. rewrite <- app_assoc, m_literal.
      destruct (strip seg x) as [y|] eqn:Hy; [|done].
      apply strip_Some in Hy as ->. cbn [app foldr].
      change (m tot (Seq ?a ?R) y c k)
        with (m tot a y c (fun y c' => m tot R y c' k)).
      intros (sl & y' & Hsl & -> & Hk)%slash_sound.
      apply IH in Hk as (captures & Hacc & Hk).
      exists captures. split; [|done]. by exists sl, y'.
Qed.

Lemma items_greedy segs g x c k z captures :
  noEarlyMulti segs = true →
  refMatch segs x = Some captures →
  k [] (setCaps g captures c) = Some z →
  m tot (foldr Seq Empty (itemsAll g segs ++ [AssertEnd])) x c k = Some z.
Proof.
  revert g x c captures.
  induction segs as [|seg rest IH]; intros g x c captures Hne.
  - simpl. destruct x; [|done]. by intros [= <-].
  - pose proof (noEarlyMulti_tail _ _ Hne) as Hne'.
    cbn [itemsAll refMatch]. rewrite <- app_assoc.
    unfold itemsOf, nextGroup, isWildcard.
    destruct (startsWith "+" seg) eqn:Hs; [|destruct (startsWith "#" seg) eqn:Hm].
    + cbn [app foldr orb].
      destruct (span x) as [r y] eqn:Hx.
      destruct (isLevel r) eqn:Hr; [|done].
      destruct (eatSlash _ y) as [[sl y']|] eqn:He; [|done]. cbn.
      destruct (refMatch rest y') as [captures'|] eqn:Hrest; [|done]. cbn.
      intros [= <-] Hk.
      change (m tot (Seq (Group g ?b) ?R) x c k)
        with (m tot b x c (fun y c' =>
                m tot R y (<[g := Some (take (length x - length y) x)]> c') k)).
      eapply level_greedy; [done..|]. cbn beta.
      apply span_app in Hx as ->. apply eatSlash_app in He as [-> _].
      rewrite app_assoc, take_consumed. by eapply IH.
    + cbn [app foldr orb].
      pose proof (noEarlyMulti_multi _ _ Hne Hm) as ->.
      destruct (isLevels x) eqn:Hx; [|done]. cbn.
      intros [= <-] Hk.
      change (m tot (Seq (Group g (Seq (Star ?b) Empty)) ?R) x c k)
        with (repeat (m tot b) [] (length x) x c (fun y c' =>
                m tot R y (<[g := Some (take (length x - length y) x)]> c') k)).
      apply levels_greedy; [done..|]. cbn beta.
      by rewrite Nat.sub_0_r, firstn_all.
    + cbn [orb]. rewrite <- app_assoc, m_literal.
      destruct (strip seg x) as [y|] eqn:Hy; [|done]. cbn.
      destruct (eatSlash _ y) as [[sl y']|] eqn:He; [|done]. cbn.
      intros Hrest Hk. cbn [app foldr].
      change (m tot (Seq ?a ?R) y c k)
        with (m tot a y c (fun y c' => m tot R y c' k)).
      eapply slash_greedy; [done|]. by eapply IH.
Qed.

End Matcher.

(** ** The whole match *)

Lemma setCaps_replicate pre captures :
  setCaps (length pre) captures (pre ++ replicate (length captures) None)
  = pre ++ map Some captures.
Proof.
  revert pre. induction captures as [|s captures IH]; intros pre; simpl.
  - done.
  - rewrite insert_app_r_alt, Nat.sub_diag by lia. simpl.
    specialize (IH (pre ++ [Some s])).
    rewrite length_app, <- !app_assoc in IH. simpl in IH.
    by rewrite Nat.add_1_r in IH.
Qed.

Lemma accepts_length segs x captures :
  accepts segs x captures → length captures = length (wildcards segs).
Proof.
  revert x captures. induction segs as [|seg rest IH]; intros x captures.
  - by intros [_ ->].
  - cbn [accepts wildcards List.filter]. unfold isWildcard.
    destruct (startsWith "+" seg); [|destruct (startsWith "#" seg)]; cbn.
    + intros (r & sl & y & captures' & _ & _ & _ & -> & H).
      simpl. f_equal. by eapply IH.
    + intros (s & y & captures' & _ & _ & -> & H).
      simpl. f_equal. by eapply IH.
    + intros (sl & y & _ & _ & H). by eapply IH.
Qed.

Lemma exec_from_short re tot x :
  length x < tot →
  (∀ y c k, length y ≠ tot → m tot (re_body re) y c k = None) →
  exec_from re tot x = None.
Proof.
  intros Hx Hre. induction x as [|b x IH]; simpl.
  - rewrite Hre by lia. done.
  - rewrite Hre by (simpl in *; lia). apply IH. simpl in Hx. lia.
Qed.

Lemma exec_regexOf segs topic :
  exec (regexOf segs) topic =
  match m (length topic) (foldr Seq Empty (itemsAll 0 segs ++ [AssertEnd]))
          topic (replicate (length (wildcards segs)) None)
          (fun y c => Some (y, c)) with
  | Some (y, c) => Some (Some (take (length topic - length y) topic) :: c)
  | None => None
  end.
Proof.
  assert (∀ tot y c k, length y ≠ tot →
            m tot (re_body (regexOf segs)) y c k = None) as Hstart.
  { intros tot y c k Hy. simpl. by rewrite bool_decide_eq_false_2. }
  unfold exec. destruct topic as [|b x].
  - simpl. by destruct (m 0 _ _ _ _) as [[]|].
  - cbn [exec_from]. cbn [regexOf re_body re_groups foldr].
    change (m ?tot (Seq AssertStart ?R) ?y ?c ?k)
      with (if bool_decide (length y = tot) then m tot R y c k else None).
    rewrite bool_decide_eq_true_2 by done.
    destruct (m _ _ _ _ _) as [[]|]; [done|].
    apply exec_from_short; [simpl; lia|]. intros. by apply Hstart.
Qed.

Lemma exec_sound segs topic arr :
  exec (regexOf segs) topic = Some arr →
  ∃ captures, accepts segs topic captures
              ∧ arr = Some topic :: map Some captures.
Proof.
  rewrite exec_regexOf.
  destruct (m _ _ _ _ _) as [[y c]|] eqn:Hm; [|done]. intros [= <-].
  apply items_sound in Hm as (captures & Hacc & [= <- <-]).
  exists captures. split; [done|].
  rewrite Nat.sub_0_r, firstn_all.
  rewrite <- (accepts_length _ _ _ Hacc).
  by rewrite (setCaps_replicate []).
Qed.

Lemma refMatch_length segs x captures :
  refMatch segs x = Some captures → length captures = length (wildcards segs).
Proof.
  revert x captures. induction segs as [|seg rest IH]; intros x captures.
  - simpl. destruct x; [|done]. by intros [= <-].
  - cbn [refMatch wildcards List.filter]. unfold isWildcard.
    destruct (startsWith "+" seg); [|destruct (startsWith "#" seg)]; cbn.
    + destruct (span x) as [r y]. destruct (isLevel r); [|done].
      destruct (eatSlash _ y) as [[sl y']|]; [|done]. cbn.
      destruct (refMatch rest y') as [captures'|] eqn:Hrest; [|done]. cbn.
      intros [= <-]. simpl. f_equal. by eapply IH.
    + destruct (isLevels x); [|done].
      destruct (refMatch rest []) as [captures'|] eqn:Hrest; [|done]. cbn.
      intros [= <-]. simpl. f_equal. by eapply IH.
    + destruct (strip seg x) as [y|]; [|done]. cbn.
      destruct (eatSlash _ y) as [[sl y']|]; [|done]. cbn. apply IH.
Qed.

Lemma exec_greedy segs topic captures :
  noEarlyMulti segs = true →
  refMatch segs topic = Some captures →
  exec (regexOf segs) topic = Some (Some topic :: map Some captures).
Proof.
  intros Hne Href. rewrite exec_regexOf.
  erewrite items_greedy; [|done..]. cbn [length].
  rewrite Nat.sub_0_r, firstn_all. do 2 f_equal.
  rewrite <- (refMatch_length _ _ _ Href).
  by rewrite (setCaps_replicate []).
Qed.

(** ** Compilation *)

(** C4. [Pattern.from] throws exactly when a segment starting with [#]
    stands before the final segment; the error is the tokenizer's (so no
    matcher has been built), and every other pattern compiles: building
    the regular expression never fails. *)
Theorem from_throws_iff_early_multi (pattern : str) :
  let segs := split "/" pattern in
  let early := ∃ i seg, segs !! i = Some seg ∧ startsWith "#" seg = true
                        ∧ i + 1 ≠ length segs in
  ((∃ e, Pattern.from pattern = Throw e) ↔ early)
  ∧ ((∃ e, tokenize pattern = Throw e) ↔ early)
  ∧ (∀ e, Pattern.from pattern = Throw e ↔ tokenize pattern = Throw e)
  ∧ ((∃ p, Pattern.from pattern = Ok p) ↔ ¬ early).
Proof.
  intros segs early. unfold early, segs.
  rewrite <- noEarlyMulti_spec, from_eq, tokenize_eq.
  destruct (noEarlyMulti (split "/" pattern)); repeat split;
    try (intros [? ?]); try congruence; try done; eauto.
Qed.

Lemma from_throws_iff_early_multi_witness :
  (∃ e, Pattern.from «"#all/status"» = Throw e)
  ∧ (∃ p, Pattern.from «"status/#all"» = Ok p).
Proof.
  split.
  - apply (from_throws_iff_early_multi «"#all/status"»).
    exists 0, «"#all"». by vm_compute.
  - apply (from_throws_iff_early_multi «"status/#all"»).
    intros (i & seg & Hi & Hseg & Hlen).
    destruct i as [|[|i]]; simpl in Hi; [|done..].
    injection Hi as <-. by vm_compute in Hseg.
Defined.

(** ** The subscribable topic *)

Lemma buildTopic_render segs :
  buildTopic (map tokenOf segs) = join "/" (map render segs).
Proof.
  unfold buildTopic. rewrite map_map. f_equal. apply map_ext. intros seg.
  unfold render. rewrite type_tokenOf. unfold tokenOf.
  destruct (startsWith "+" seg); [done|].
  destruct (startsWith "#" seg); [done|]. simpl.
  rewrite length_app. simpl. rewrite Nat.add_sub. by rewrite take_app_length.
Qed.

(** C2. The raw segment [a.b] is rendered [a\.b] in the subscribable
    topic: [buildTopic] cuts the slash off the [piece] fragment, which
    holds the escaped text.  [buildParameterizedTopic] keeps the segment
    as it is written. *)
Theorem getTopic_renders_escaped_text :
  ∃ p, Pattern.from «"a.b/+x"» = Ok p
       ∧ Pattern.getTopic p = «"a\.b/+"»
       ∧ Pattern.buildParameterizedTopic p {[ «"x"» := Scalar «"v"» ]}
         = «"a.b/v"».
Proof. eexists. split; [by vm_compute|]. split; by vm_compute. Qed.

(** ** Patterns without wildcards *)

Lemma substitute_raw ps seg :
  isWildcard seg = false → Pattern.substitute ps seg = seg.
Proof.
  unfold isWildcard, startsWith, Pattern.substitute.
  destruct (head seg); [|done]. by intros [-> ->]%orb_false_iff.
Qed.

Lemma noEarlyMulti_no_wildcards segs :
  Forall (fun seg => isWildcard seg = false) segs → noEarlyMulti segs = true.
Proof.
  induction 1 as [|seg rest Hseg _ IH]; simpl; [done|].
  apply orb_false_iff in Hseg as [_ ->]. by rewrite IH.
Qed.

Lemma buildParameterCount_no_wildcards segs :
  Forall (fun seg => isWildcard seg = false) segs →
  buildParameterCount (map tokenOf segs) = 0.
Proof.
  unfold buildParameterCount.
  induction 1 as [|seg rest Hseg _ IH]; simpl; [done|].
  apply orb_false_iff in Hseg as [Hs Hm].
  unfold isRaw. rewrite type_tokenOf, Hs, Hm. simpl. apply IH.
Qed.

(** C8. A pattern none of whose segments starts with [+] or [#] compiles,
    has parameter count 0 and is rebuilt unchanged from the empty
    parameter bag. *)
Theorem no_wildcards_identity (pattern : str) :
  Forall (fun seg => isWildcard seg = false) (split "/" pattern) →
  ∃ p, Pattern.from pattern = Ok p
       ∧ Pattern.getParameterCount p = 0
       ∧ Pattern.buildParameterizedTopic p ∅ = pattern.
Proof.
  intros Hraw. rewrite from_eq, noEarlyMulti_no_wildcards by done.
  eexists. split; [done|]. split.
  - by apply buildParameterCount_no_wildcards.
  - unfold Pattern.buildParameterizedTopic. simpl.
    rewrite (map_ext_Forall _ id); [by rewrite map_id, join_split|].
    eapply Forall_impl; [exact Hraw|]. intros seg. apply substitute_raw.
Qed.

Lemma no_wildcards_identity_witness :
  ∃ p, Pattern.from «"devices/my-device/a+b"» = Ok p
       ∧ Pattern.getParameterCount p = 0
       ∧ Pattern.buildParameterizedTopic p ∅ = «"devices/my-device/a+b"».
Proof.
  apply (no_wildcards_identity «"devices/my-device/a+b"»).
  vm_compute. repeat constructor.
Defined.

(** ** Parameter extraction *)

Lemma removeRawTokens_wildcards segs :
  removeRawTokens (map tokenOf segs) = map tokenOf (wildcards segs).
Proof.
  unfold removeRawTokens, wildcards.
  induction segs as [|seg rest IH]; simpl; [done|].
  rewrite IH. unfold isRaw, isWildcard. rewrite type_tokenOf.
  destruct (startsWith "+" seg); [done|].
  by destruct (startsWith "#" seg).
Qed.

Lemma wildcards_isWildcard segs w :
  w ∈ wildcards segs → isWildcard w = true.
Proof.
  unfold wildcards. rewrite list_elem_of_In, filter_In. by intros [_ ?].
Qed.

Lemma assign_plain (acc : params) key v :
  key ≠ protoName → assign acc key v = <[key := v]> acc.
Proof.
  intros Hkey. unfold assign. destruct v; [|done].
  by rewrite bool_decide_eq_false_2.
Qed.

Lemma assign_multi (acc : params) w capture :
  startsWith "#" w = true →
  assign acc (drop 1 w) (paramOf w capture)
  = <[drop 1 w := paramOf w capture]> acc.
Proof.
  intros Hm. unfold assign, paramOf. rewrite Hm. by destruct (negb _).
Qed.

Lemma assign_single_proto (acc : params) w capture :
  startsWith "#" w = false → drop 1 w = protoName →
  assign acc (drop 1 w) (paramOf w capture) = acc.
Proof.
  intros Hm Hw. unfold assign, paramOf. rewrite Hm, Hw.
  by destruct (bool_decide (getLastItem _ = _)).
Qed.

Lemma assign_cases (acc : params) key v :
  assign acc key v = acc ∨ assign acc key v = <[key := v]> acc.
Proof. unfold assign. destruct v; [case_bool_decide|]; auto. Qed.

Lemma assign_lookup_ne (acc : params) key v k :
  k ≠ key → assign acc key v !! k = acc !! k.
Proof.
  intros Hk. destruct (assign_cases acc key v) as [->| ->]; [done|].
  by rewrite lookup_insert_ne.
Qed.

Lemma paramStep_wildcard toks acc w capture i :
  isWildcard w = true →
  toks !! i = Some (tokenOf w) →
  paramStep toks acc (Some capture) i =
  Ok (if truthy (Some (drop 1 w))
      then assign acc (drop 1 w) (paramOf w capture) else acc).
Proof.
  intros Hw Hi. unfold paramStep. rewrite Hi.
  unfold paramOf, tokenOf, isWildcard in *.
  destruct (startsWith "+" w) eqn:Hs; simpl.
  - destruct w as [|c w]; [done|]. unfold startsWith in *. simpl in *.
    apply Ascii.eqb_eq in Hs as ->. change ("+" =? "#")%char with false.
    simpl. destruct w; [done|]. simpl.
    destruct (bool_decide (getLastItem capture = Some "/")); done.
  - simpl in Hw. rewrite Hw. simpl. destruct (drop 1 w); [done|]. simpl.
    by destruct (truthy (getLastItem (split "/" capture))).
Qed.

Lemma forEachCapture_extract pre ws captures acc :
  Forall (fun w => isWildcard w = true) ws →
  length captures = length ws →
  forEachCapture (map tokenOf (pre ++ ws)) acc (map Some captures) (length pre)
  = Ok (extract ws captures acc).
Proof.
  intros Hws. revert pre captures acc.
  induction Hws as [|w ws Hw _ IH]; intros pre captures acc Hlen.
  - by destruct captures.
  - destruct captures as [|capture captures]; [done|]. simpl.
    rewrite (paramStep_wildcard _ _ w) by
      (done || by rewrite list_lookup_fmap, lookup_app_r, Nat.sub_diag by lia).
    unfold mbind; simpl.
    specialize (IH (pre ++ [w]) captures).
    rewrite <- app_assoc, length_app, Nat.add_1_r in IH. simpl in IH.
    apply IH. simpl in Hlen. lia.
Qed.

Lemma buildParameterFunction_captures segs topic captures :
  length captures = length (wildcards segs) →
  buildParameterFunction (map tokenOf segs)
    (Some (Some topic :: map Some captures))
  = Ok (extract (wildcards segs) captures ∅).
Proof.
  intros Hlen. unfold buildParameterFunction.
  rewrite removeRawTokens_wildcards. simpl. rewrite drop_0.
  apply (forEachCapture_extract []); [|done].
  apply Forall_forall. intros w. apply wildcards_isWildcard.
Qed.

Lemma from_Ok pattern p :
  Pattern.from pattern = Ok p →
  noEarlyMulti (split "/" pattern) = true
  ∧ _pattern p = pattern
  ∧ _topic p = buildTopic (map tokenOf (split "/" pattern))
  ∧ _regex p = regexOf (split "/" pattern)
  ∧ _tokens p = map tokenOf (split "/" pattern)
  ∧ _paramCount p = buildParameterCount (map tokenOf (split "/" pattern)).
Proof.
  rewrite from_eq. destruct (noEarlyMulti _); [|done].
  by intros [= <-].
Qed.

(** What a successful match looks like, and what is extracted from it. *)
Lemma match_sound pattern p topic arr :
  Pattern.from pattern = Ok p →
  Pattern.match_ p topic = Some arr →
  ∃ captures,
    accepts (split "/" pattern) topic captures
    ∧ arr = Some topic :: map Some captures
    ∧ Pattern.getParameters p (Some arr)
      = Ok (extract (wildcards (split "/" pattern)) captures ∅).
Proof.
  intros (Hne & _ & _ & Hre & Htok & _)%from_Ok.
  unfold Pattern.match_, Pattern.getParameters. rewrite Hre, Htok.
  intros (captures & Hacc & ->)%exec_sound.
  exists captures. repeat split; [done|].
  apply buildParameterFunction_captures. by eapply accepts_length.
Qed.

Lemma match_greedy pattern p topic captures :
  Pattern.from pattern = Ok p →
  refMatch (split "/" pattern) topic = Some captures →
  Pattern.match_ p topic = Some (Some topic :: map Some captures)
  ∧ Pattern.getParameters p (Pattern.match_ p topic)
    = Ok (extract (wildcards (split "/" pattern)) captures ∅).
Proof.
  intros (Hne & _ & _ & Hre & Htok & _)%from_Ok Href.
  unfold Pattern.match_, Pattern.getParameters. rewrite Hre, Htok.
  rewrite (exec_greedy _ _ captures) by done. split; [done|].
  apply buildParameterFunction_captures. by eapply refMatch_length.
Qed.

(** ** Matching never fails *)

(** C7. For a compiled pattern, [match] answers [null] or a capture array
    whose first entry is the topic itself; [getParameters] of [null] is
    the empty bag, and [getParameters] of whatever [match] answered never
    throws. *)
Theorem no_match_is_not_an_error (pattern : str) (p : Pattern) (topic : str) :
  Pattern.from pattern = Ok p →
  (Pattern.match_ p topic = None
   ∨ ∃ arr, Pattern.match_ p topic = Some arr ∧ arr !! 0 = Some (Some topic))
  ∧ Pattern.getParameters p None = Ok ∅
  ∧ ∃ ps, Pattern.getParameters p (Pattern.match_ p topic) = Ok ps.
Proof.
  intros Hp. destruct (Pattern.match_ p topic) as [arr|] eqn:Hm.
  - destruct (match_sound _ _ _ _ Hp Hm) as (captures & _ & -> & Hps).
    split; [right; by eexists|]. split; [done|]. by eexists.
  - split; [by left|]. split; [done|]. by eexists.
Qed.

Lemma no_match_is_not_an_error_witness :
  let p := compiled «"devices/+deviceId/status"» in
  (Pattern.match_ p «"devices/42/43/status"» = None
   ∨ ∃ arr, Pattern.match_ p «"devices/42/43/status"» = Some arr
            ∧ arr !! 0 = Some (Some «"devices/42/43/status"»))
  ∧ Pattern.getParameters p None = Ok ∅
  ∧ ∃ ps, Pattern.getParameters p
            (Pattern.match_ p «"devices/42/43/status"») = Ok ps.
Proof.
  intros p.
  apply (no_match_is_not_an_error «"devices/+deviceId/status"» p).
  by vm_compute.
Defined.

(** ** Values of a multi wildcard *)

Lemma removeLastItem_snoc {A} (l : list A) (a : A) :
  removeLastItem (l ++ [a]) = l.
Proof.
  unfold removeLastItem. rewrite length_app. simpl.
  by rewrite Nat.add_sub, take_app_length.
Qed.

Lemma snoc_cases {A} (l : list A) : l = [] ∨ ∃ l' a, l = l' ++ [a].
Proof.
  induction l as [|a l IH] using rev_ind; [by left|]. right. by exists l, a.
Qed.

Lemma levelChar_not_slash r : forallb levelChar r = true → "/" ∉ r.
Proof.
  induction r as [|b r IH]; simpl; [intros _; by intros ?%elem_of_nil|].
  intros [Hb Hr]%andb_true_iff. rewrite not_elem_of_cons. split; [|by apply IH].
  intros <-. by vm_compute in Hb.
Qed.

Lemma split_app_nosep sep a b :
  sep ∉ a →
  split sep (a ++ b) =
  match split sep b with
  | seg :: rest => (a ++ seg) :: rest
  | [] => [a]
  end.
Proof.
  induction a as [|c a IH]; intros Ha; simpl.
  - pose proof (split_not_nil sep b). by destruct (split sep b).
  - rewrite not_elem_of_cons in Ha. destruct Ha as [Hc Ha].
    rewrite decide_False by done. rewrite IH by done.
    pose proof (split_not_nil sep b). by destruct (split sep b).
Qed.

Lemma removeLastItem_cons {A} (a : A) (l : list A) :
  l ≠ [] → removeLastItem (a :: l) = a :: removeLastItem l.
Proof.
  intros Hl. unfold removeLastItem. destruct l; [done|]. simpl.
  by rewrite Nat.sub_0_r.
Qed.

Lemma levels_split ul s :
  levels ul s → Forall (fun e => e ≠ []) (removeLastItem (split "/" s)).
Proof.
  induction 1 as [|r sl s Hr Hsl Hs IH]; [by constructor|].
  pose proof (levelChar_not_slash r (isLevel_forallb r Hr)) as Hns.
  pose proof (split_not_nil "/" s) as Hne.
  destruct Hsl as [->|[_ ->]]; simpl.
  - rewrite split_app, removeLastItem_cons by done.
    constructor; [by destruct r|done].
  - rewrite split_app_nosep by done.
    destruct (split "/" s) as [|seg rest]; [done|].
    destruct rest as [|seg' rest]; [by constructor|].
    rewrite removeLastItem_cons in IH |- * by done.
    inversion IH; subst. constructor; [by destruct r|done].
Qed.

Lemma paramOf_multi ul m s :
  startsWith "#" m = true → levels ul s →
  ∃ l, paramOf m s = Sequence l ∧ Forall (fun e => e ≠ []) l.
Proof.
  intros Hm Hs%levels_split. unfold paramOf. rewrite Hm.
  destruct (snoc_cases (split "/" s)) as [Hnil|(l' & a & Hl)].
  { by destruct (split_not_nil "/" s). }
  rewrite Hl in *. rewrite removeLastItem_snoc in *.
  unfold getLastItem. rewrite last_snoc.
  destruct a as [|c a]; simpl.
  - by exists l'.
  - exists (l' ++ [c :: a]). split; [done|].
    apply Forall_app. split; [done|]. by repeat constructor.
Qed.

Lemma accepts_snoc_multi pre m x captures :
  startsWith "+" m = false → startsWith "#" m = true →
  accepts (pre ++ [m]) x captures →
  ∃ captures' s, captures = captures' ++ [s] ∧ levels true s
                 ∧ length captures' = length (wildcards pre).
Proof.
  intros Hs Hm. revert x captures.
  induction pre as [|seg pre IH]; intros x captures.
  - simpl. rewrite Hs, Hm.
    intros (s & y & captures' & Hl & _ & -> & _ & ->). by exists [], s.
  - cbn [app accepts wildcards List.filter]. unfold isWildcard.
    destruct (startsWith "+" seg); [|destruct (startsWith "#" seg)]; cbn.
    + intros (r & sl & y & c' & _ & _ & _ & -> & (c'' & s & -> & ? & ?)%IH).
      exists ((r ++ sl) :: c''), s. simpl. auto.
    + intros (s0 & y & c' & _ & _ & -> & (c'' & s & -> & ? & ?)%IH).
      exists (s0 :: c''), s. simpl. auto.
    + intros (sl & y & _ & _ & H). by apply IH in H.
Qed.

Lemma multi_is_last segs m :
  noEarlyMulti segs = true → m ∈ segs → startsWith "#" m = true →
  ∃ pre, segs = pre ++ [m].
Proof.
  induction segs as [|seg rest IH]; intros Hne Hin Hm.
  - by apply elem_of_nil in Hin.
  - apply elem_of_cons in Hin as [->|Hin].
    + rewrite (noEarlyMulti_multi _ _ Hne Hm). by exists [].
    + destruct (IH (noEarlyMulti_tail _ _ Hne) Hin Hm) as [pre ->].
      by exists (seg :: pre).
Qed.

Lemma wildcards_app a b : wildcards (a ++ b) = wildcards a ++ wildcards b.
Proof. unfold wildcards. apply List.filter_app. Qed.

Lemma extract_snoc ws w captures capture acc :
  length captures = length ws →
  extract (ws ++ [w]) (captures ++ [capture]) acc =
  if truthy (Some (drop 1 w))
  then assign (extract ws captures acc) (drop 1 w) (paramOf w capture)
  else extract ws captures acc.
Proof.
  revert captures acc. induction ws as [|w' ws IH]; intros captures acc Hlen.
  - by destruct captures.
  - destruct captures as [|c' captures]; [done|]. simpl.
    apply IH. simpl in Hlen. lia.
Qed.

(** C10. When a pattern with a named multi wildcard matches, the value
    extracted under that name is a list, and none of its elements is the
    empty string. *)
Theorem multi_values_have_no_empty_element
    (pattern : str) (p : Pattern) (topic : str) (arr : list (option str))
    (nm : str) :
  Pattern.from pattern = Ok p →
  ("#" :: nm) ∈ split "/" pattern →
  nm ≠ [] →
  Pattern.match_ p topic = Some arr →
  ∃ ps l, Pattern.getParameters p (Some arr) = Ok ps
          ∧ ps !! nm = Some (Sequence l)
          ∧ Forall (fun e => e ≠ []) l.
Proof.
  intros Hp Hin Hnm Hm.
  destruct (match_sound _ _ _ _ Hp Hm) as (captures & Hacc & _ & Hps).
  apply from_Ok in Hp as (Hne & _).
  destruct (multi_is_last _ _ Hne Hin eq_refl) as [pre Hsegs].
  rewrite Hsegs in *.
  apply accepts_snoc_multi in Hacc as (captures' & s & -> & Hs & Hlen);
    [|done..].
  destruct (paramOf_multi true ("#" :: nm) s eq_refl Hs) as (l & Hl & Hall).
  eexists _, l. split; [done|]. split; [|done].
  rewrite wildcards_app. change (wildcards ["#" :: nm]) with ["#" :: nm].
  rewrite extract_snoc, assign_multi by done.
  change (drop 1 ("#" :: nm)) with nm. destruct nm; [done|]. cbn [truthy].
  by rewrite lookup_insert_eq, Hl.
Qed.

(** ** Topics written segment by segment *)

Lemma span_level r y :
  forallb levelChar r = true →
  match y with b :: _ => levelChar b = false | [] => True end →
  span (r ++ y) = (r, y).
Proof.
  intros Hr Hy. induction r as [|b r IH]; simpl.
  - destruct y as [|b y]; [done|]. simpl. by rewrite Hy.
  - simpl in Hr. apply andb_true_iff in Hr as [Hb Hr].
    by rewrite Hb, IH.
Qed.

Lemma strip_app prefix y : strip prefix (prefix ++ y) = Some y.
Proof. by apply strip_Some. Qed.

Lemma isLevelsFrom_level b r y :
  isLevel r = true → isLevelsFrom b (r ++ y) = isLevelsFrom true y.
Proof.
  destruct r as [|c r]; [done|]. cbn [isLevel]. revert b c.
  induction r as [|c' r IH]; intros b c; cbn.
  - rewrite andb_true_r. intros Hc. by rewrite (levelChar_slash _ Hc), Hc.
  - intros [Hc Hr]%andb_true_iff. rewrite (levelChar_slash _ Hc), Hc.
    by apply (IH true c').
Qed.

Lemma isLevels_join l :
  forallb isLevel l = true → isLevels (join "/" l) = true.
Proof.
  unfold isLevels. induction l as [|r l IH]; [done|].
  cbn [forallb]. intros [Hr Hl]%andb_true_iff.
  destruct l as [|r' l].
  - simpl. rewrite <- (app_nil_r r). by rewrite isLevelsFrom_level.
  - rewrite join_cons by done. rewrite isLevelsFrom_level by done.
    cbn [isLevelsFrom]. change ("/" =? "/")%char with true. by apply IH.
Qed.

Lemma isLevelList_isLevels text :
  isLevelList text = true → isLevels text = true.
Proof.
  destruct text as [|b text]; [done|]. unfold isLevelList.
  intros H%isLevels_join. by rewrite join_split in H.
Qed.

Lemma refMatch_texts segs texts :
  noEarlyMulti segs = true →
  Forall2 (fun seg text => conformsTo seg text = true) segs texts →
  refMatch segs (join "/" texts) = Some (capsOf segs texts).
Proof.
  intros Hne H. induction H as [|seg text rest texts' Hc Hrest IH]; [done|].
  specialize (IH (noEarlyMulti_tail _ _ Hne)).
  cbn [refMatch capsOf]. unfold conformsTo in Hc.
  assert (∀ t, (join "/" (t :: texts') =
                match rest with [] => t | _ => t ++ "/" :: join "/" texts' end))
    as Hjoin.
  { intros t. inversion Hrest; subst; [done|]. by rewrite join_cons. }
  assert (∀ ul y, eatSlash ul ("/" :: y) = Some («"/"», y)) as Hslash by done.
  rewrite Hjoin.
  destruct (startsWith "+" seg) eqn:Hs; [|destruct (startsWith "#" seg) eqn:Hm].
  - destruct rest as [|seg' rest].
    + inversion Hrest; subst. rewrite <- (app_nil_r text) at 1.
      rewrite span_level by (done || by apply isLevel_forallb).
      by rewrite Hc.
    + rewrite span_level by (done || by apply isLevel_forallb).
      rewrite Hc, Hslash. cbn [mbind option_bind]. by rewrite IH.
  - pose proof (noEarlyMulti_multi _ _ Hne Hm) as ->.
    inversion Hrest; subst.
    by rewrite (isLevelList_isLevels _ Hc).
  - apply bool_decide_eq_true in Hc as ->.
    destruct rest as [|seg' rest].
    + inversion Hrest; subst. rewrite <- (app_nil_r seg) at 2.
      by rewrite strip_app.
    + rewrite strip_app. cbn [mbind option_bind].
      rewrite Hslash. cbn [mbind option_bind]. by rewrite IH.
Qed.

Lemma isLevel_last r : isLevel r = true → getLastItem r ≠ Some "/".
Proof.
  intros Hr%isLevel_forallb. unfold getLastItem.
  destruct (snoc_cases r) as [->|(r' & b & ->)]; [done|].
  rewrite last_snoc. intros [= ->].
  apply levelChar_not_slash in Hr. apply Hr. set_solver.
Qed.

Lemma paramOf_single w r sl :
  startsWith "#" w = false → isLevel r = true →
  sl = «"/"» ∨ sl = [] →
  paramOf w (r ++ sl) = Scalar r.
Proof.
  intros Hw Hr Hsl. unfold paramOf. rewrite Hw.
  destruct Hsl as [->| ->].
  - unfold getLastItem. simpl. rewrite last_snoc.
    rewrite bool_decide_eq_true_2 by done. by rewrite removeLastItem_snoc.
  - rewrite app_nil_r. by rewrite bool_decide_eq_false_2 by by apply isLevel_last.
Qed.

Lemma isLevel_not_slash r : isLevel r = true → "/" ∉ r.
Proof. intros. by apply levelChar_not_slash, isLevel_forallb. Qed.

Lemma paramOf_join m l :
  startsWith "#" m = true → forallb isLevel l = true →
  paramOf m (join "/" l) = Sequence l.
Proof.
  intros Hm Hl. unfold paramOf. rewrite Hm.
  destruct (snoc_cases l) as [->|(l' & r & ->)]; [done|].
  rewrite split_join.
  - unfold getLastItem. rewrite last_snoc.
    apply forallb_forall with (x := r) in Hl; [|apply in_app_iff; simpl; auto].
    by destruct r.
  - by destruct l'.
  - apply Forall_forall. intros e He%list_elem_of_In.
    apply isLevel_not_slash. by eapply forallb_forall in Hl.
Qed.

(** ** Building a topic and reading it back *)

Lemma substitute_single ps seg :
  startsWith "+" seg = true →
  Pattern.substitute ps seg =
  match ps !! drop 1 seg with
  | Some v => toString v
  | None => default seg (inherited (drop 1 seg))
  end.
Proof.
  unfold startsWith, Pattern.substitute.
  destruct (head seg); [|done]. by intros ->.
Qed.

Lemma substitute_multi ps seg :
  startsWith "+" seg = false → startsWith "#" seg = true →
  Pattern.substitute ps seg =
  match ps !! drop 1 seg with
  | Some (Sequence l) => join "/" l
  | Some (Scalar s) => s
  | None => default seg (inherited (drop 1 seg))
  end.
Proof.
  unfold startsWith, Pattern.substitute.
  destruct (head seg); [|done]. by intros -> ->.
Qed.

Lemma isLevelList_join l :
  forallb isLevel l = true → isLevelList (join "/" l) = true.
Proof.
  intros Hl. unfold isLevelList. destruct (join "/" l) eqn:Hj; [done|].
  rewrite <- Hj. rewrite split_join; [done|by destruct l|].
  apply Forall_forall. intros e He%list_elem_of_In.
  apply isLevel_not_slash. by eapply forallb_forall in Hl.
Qed.

Lemma startsWith_plus_hash seg :
  startsWith "+" seg = true → startsWith "#" seg = false.
Proof.
  unfold startsWith. destruct (head seg); [|done].
  by intros ->%Ascii.eqb_eq.
Qed.

Lemma assign_paramOf (acc : params) w capture :
  assign acc (drop 1 w) (paramOf w capture)
  = if stored w then <[drop 1 w := paramOf w capture]> acc else acc.
Proof.
  unfold stored. destruct (startsWith "#" w) eqn:Hm; cbn [orb].
  - by apply assign_multi.
  - case_bool_decide as Hw; cbn [negb].
    + by apply assign_single_proto.
    + by apply assign_plain.
Qed.

(** The two ways a wildcard segment fits a bag. *)
Lemma fitsSeg_wildcard ps seg :
  isWildcard seg = true → fitsSeg ps seg = true →
  truthy (Some (drop 1 seg)) = true
  ∧ if stored seg
    then typedSeg ps seg = true
    else startsWith "+" seg = true ∧ drop 1 seg = protoName
         ∧ ps !! protoName = None.
Proof.
  unfold fitsSeg. intros Hw. rewrite Hw. cbn [andb].
  destruct (stored seg) eqn:Hst; cbn [negb].
  - intros Hty. split; [|done]. unfold typedSeg, isWildcard in *.
    destruct (startsWith "+" seg); [|destruct (startsWith "#" seg); [|done]];
      destruct (ps !! drop 1 seg) as [[r|l]|]; try done;
      by apply andb_true_iff in Hty as [? _].
  - intros Hps%bool_decide_eq_true. unfold stored, isWildcard in *.
    destruct (startsWith "#" seg); [done|]. cbn [orb] in Hst.
    apply negb_false_iff, bool_decide_eq_true in Hst.
    rewrite orb_false_r in Hw. by rewrite Hst.
Qed.

Lemma substitute_fits ps seg :
  fitsSeg ps seg = true → conformsTo seg (Pattern.substitute ps seg) = true.
Proof.
  intros Hfit. destruct (isWildcard seg) eqn:Hw.
  - destruct (fitsSeg_wildcard _ _ Hw Hfit) as [_ Hcase].
    destruct (stored seg).
    + unfold typedSeg, conformsTo in *.
      destruct (startsWith "+" seg) eqn:Hs;
        [|destruct (startsWith "#" seg) eqn:Hm].
      * rewrite substitute_single by done.
        destruct (ps !! drop 1 seg) as [[r|l]|]; [|done..].
        by apply andb_true_iff in Hcase as [_ ?].
      * rewrite substitute_multi by done.
        destruct (ps !! drop 1 seg) as [[r|l]|]; [done| |done].
        apply andb_true_iff in Hcase as [_ ?]. by apply isLevelList_join.
      * unfold isWildcard in Hw. by rewrite Hs, Hm in Hw.
    + destruct Hcase as (Hs & Hname & Hps). unfold conformsTo.
      rewrite Hs, substitute_single, Hname, Hps by done. done.
  - unfold conformsTo. rewrite substitute_raw by done.
    unfold isWildcard in Hw. apply orb_false_iff in Hw as [-> ->].
    by apply bool_decide_eq_true.
Qed.

Lemma fits_conforms ps segs :
  forallb (fitsSeg ps) segs = true →
  Forall2 (fun seg text => conformsTo seg text = true)
    segs (map (Pattern.substitute ps) segs).
Proof.
  induction segs as [|seg rest IH]; [constructor|].
  cbn [forallb map]. intros [Hseg Hrest]%andb_true_iff.
  constructor; [by apply substitute_fits|by apply IH].
Qed.

Lemma capsOf_fits ps segs :
  forallb (fitsSeg ps) segs = true →
  Forall2 (fun w capture =>
             truthy (Some (drop 1 w)) = true
             ∧ if stored w then ps !! drop 1 w = Some (paramOf w capture)
               else ps !! drop 1 w = None)
    (wildcards segs) (capsOf segs (map (Pattern.substitute ps) segs)).
Proof.
  induction segs as [|seg rest IH]; [constructor|].
  cbn [forallb]. intros [Hseg Hrest]%andb_true_iff. specialize (IH Hrest).
  cbn [wildcards List.filter map capsOf].
  destruct (isWildcard seg) eqn:Hw.
  2: { unfold isWildcard in Hw. by apply orb_false_iff in Hw as [-> ->]. }
  destruct (fitsSeg_wildcard _ _ Hw Hseg) as [Hnm Hcase].
  assert (∀ capture,
            (if startsWith "+" seg
             then capture = Pattern.substitute ps seg
                            ++ match rest with [] => [] | _ => «"/"» end
             else capture = Pattern.substitute ps seg) →
            if stored seg then ps !! drop 1 seg = Some (paramOf seg capture)
            else ps !! drop 1 seg = None) as Hcap.
  { intros capture Hc. destruct (stored seg).
    - unfold typedSeg in Hcase.
      destruct (startsWith "+" seg) eqn:Hs;
        [|destruct (startsWith "#" seg) eqn:Hm].
      + subst capture. rewrite substitute_single by done.
        destruct (ps !! drop 1 seg) as [[r|l]|] eqn:Hps; [|done..].
        apply andb_true_iff in Hcase as [_ Hr]. cbn [toString].
        rewrite paramOf_single; [done|by apply startsWith_plus_hash|done|].
        destruct rest; auto.
      + subst capture. rewrite substitute_multi by done.
        destruct (ps !! drop 1 seg) as [[r|l]|] eqn:Hps; [done| |done].
        apply andb_true_iff in Hcase as [_ Hl]. by rewrite paramOf_join.
      + unfold isWildcard in Hw. by rewrite Hs, Hm in Hw.
    - destruct Hcase as (_ & -> & Hps). done. }
  destruct (startsWith "+" seg) eqn:Hs; [|destruct (startsWith "#" seg) eqn:Hm].
  - constructor; [|done]. split; [done|]. by apply Hcap.
  - constructor; [|done]. split; [done|]. by apply Hcap.
  - unfold isWildcard in Hw. by rewrite Hs, Hm in Hw.
Qed.

Lemma extract_sub (ps : params) ws captures acc :
  Forall2 (fun w capture =>
             truthy (Some (drop 1 w)) = true
             ∧ if stored w then ps !! drop 1 w = Some (paramOf w capture)
               else ps !! drop 1 w = None) ws captures →
  acc ⊆ ps →
  extract ws captures acc ⊆ ps
  ∧ ∀ key, is_Some (acc !! key)
           ∨ key ∈ map (drop 1) (List.filter stored ws) →
           is_Some (extract ws captures acc !! key).
Proof.
  intros H. revert acc.
  induction H as [|w capture ws captures [Hnm Hw] _ IH]; intros acc Hacc.
  - split; [done|]. intros key [H|H]; [done|]. by apply elem_of_nil in H.
  - cbn [extract List.filter]. rewrite Hnm, assign_paramOf.
    destruct (stored w).
    + destruct (IH (<[drop 1 w := paramOf w capture]> acc)) as [Hsub Hdom].
      { by apply insert_subseteq_l. }
      split; [done|]. intros key Hkey. apply Hdom.
      destruct (decide (key = drop 1 w)) as [->|Hne].
      * left. rewrite lookup_insert_eq. by eexists.
      * rewrite lookup_insert_ne by done.
        destruct Hkey as [?|Hin]; [by left|]. right.
        simpl in Hin. by apply elem_of_cons in Hin as [?|?].
    + by apply IH.
Qed.

Lemma covered_spec (ps : params) segs key :
  covered ps segs = true → is_Some (ps !! key) →
  key ∈ map (drop 1) (wildcards segs).
Proof.
  unfold covered. rewrite forallb_forall. intros Hcov [v Hv].
  eapply bool_decide_eq_true_1, Hcov, in_map_iff.
  exists (key, v). split; [done|].
  by apply list_elem_of_In, elem_of_map_to_list.
Qed.

Lemma fitting_bag_reads_back (pattern : str) (p : Pattern) (ps : params) :
  Pattern.from pattern = Ok p →
  forallb (fitsSeg ps) (split "/" pattern) = true →
  covered ps (split "/" pattern) = true →
  ∃ arr, Pattern.match_ p (Pattern.buildParameterizedTopic p ps) = Some arr
         ∧ Pattern.getParameters p (Some arr) = Ok ps.
Proof.
  intros Hp Hfit Hcov.
  pose proof (from_Ok _ _ Hp) as (Hne & Hpat & _).
  unfold Pattern.buildParameterizedTopic. rewrite Hpat.
  pose proof (refMatch_texts _ _ Hne (fits_conforms _ _ Hfit)) as Href.
  destruct (match_greedy _ _ _ _ Hp Href) as [Hm' Hps''].
  rewrite Hm' in Hps'' |- *. eexists. split; [done|]. rewrite Hps''. f_equal.
  destruct (extract_sub ps _ _ ∅ (capsOf_fits _ _ Hfit)) as [Hsub Hdom].
  { apply map_empty_subseteq. }
  apply subseteq_dom_eq; [done|].
  intros key Hkey%elem_of_dom. apply elem_of_dom, Hdom. right.
  pose proof (covered_spec ps _ key Hcov Hkey) as (w & -> & Hin)%list_elem_of_fmap.
  apply list_elem_of_fmap. exists w. split; [done|].
  apply list_elem_of_In, filter_In. split; [by apply list_elem_of_In|].
  destruct (stored w) eqn:Hst; [done|]. exfalso.
  assert (fitsSeg ps w = true) as Hw.
  { eapply forallb_forall in Hfit; [done|].
    apply list_elem_of_In in Hin. by apply filter_In in Hin as [? _]. }
  apply fitsSeg_wildcard in Hw as [_ Hw];
    [|by apply (wildcards_isWildcard (split "/" pattern))].
  rewrite Hst in Hw. destruct Hw as (_ & Hname & Hnone).
  rewrite Hname, Hnone in Hkey. by destruct Hkey.
Qed.

(** With no wildcard named [__proto__], a typed bag fits. *)
Lemma wellTyped_fits ps segs :
  protoName ∉ map (drop 1) (wildcards segs) →
  wellTyped ps segs = true → forallb (fitsSeg ps) segs = true.
Proof.
  unfold wellTyped. rewrite !forallb_forall. intros Hproto Hty seg Hin.
  unfold fitsSeg. destruct (isWildcard seg) eqn:Hw; [|by apply Hty].
  destruct (stored seg) eqn:Hst; [by apply Hty|]. exfalso. apply Hproto.
  unfold stored in Hst. apply orb_false_iff in Hst as [_ Hst].
  apply negb_false_iff, bool_decide_eq_true in Hst. rewrite <- Hst.
  apply list_elem_of_fmap_2, list_elem_of_In, filter_In. by split.
Qed.

(** C1, as the code has it.  For a compiled pattern none of whose
    wildcards is named [__proto__], and a parameter bag that fits it
    (every wildcard named, a level for each single wildcard, a list of
    levels for a multi wildcard, no other key), the topic built from the
    bag matches, and the parameters extracted from the match are the
    bag. *)
Theorem round_trip_on_levels (pattern : str) (p : Pattern) (ps : params) :
  Pattern.from pattern = Ok p →
  protoName ∉ map (drop 1) (wildcards (split "/" pattern)) →
  wellTyped ps (split "/" pattern) = true →
  covered ps (split "/" pattern) = true →
  Pattern.getParameters p
    (Pattern.match_ p (Pattern.buildParameterizedTopic p ps)) = Ok ps.
Proof.
  intros Hp Hproto Hty Hcov.
  destruct (fitting_bag_reads_back pattern p ps) as (arr & Hm & Hps);
    [done|by apply wellTyped_fits|done|].
  by rewrite Hm.
Qed.

Lemma round_trip_on_levels_witness :
  let ps : params :=
    <[ «"deviceId"» := Scalar «"42"» ]> {[ «"keys"» := Sequence [«"a"»; «"b"»] ]} in
  let p := compiled «"devices/+deviceId/config/#keys"» in
  Pattern.buildParameterizedTopic p ps = «"devices/42/config/a/b"»
  ∧ Pattern.getParameters p
      (Pattern.match_ p (Pattern.buildParameterizedTopic p ps)) = Ok ps.
Proof.
  intros ps p. split; [by vm_compute|].
  apply (round_trip_on_levels «"devices/+deviceId/config/#keys"» p ps);
    [by vm_compute|apply (bool_decide_unpack _); by vm_compute
    |by vm_compute|by vm_compute].
Defined.

(** C1 as stated fails: the string [a/b] is a scalar for the single
    wildcard, the bag is complete, and the topic built from it does not
    match, so the parameters read back are the empty bag. *)
Lemma round_trip_fails_on_slash :
  let ps : params := {[ «"deviceId"» := Scalar «"a/b"» ]} in
  let p := compiled «"devices/+deviceId/status"» in
  Pattern.from «"devices/+deviceId/status"» = Ok p
  ∧ Pattern.getParameterCount p = size ps
  ∧ Pattern.buildParameterizedTopic p ps = «"devices/a/b/status"»
  ∧ Pattern.getParameters p
      (Pattern.match_ p (Pattern.buildParameterizedTopic p ps)) = Ok ∅
  ∧ Pattern.getParameters p
      (Pattern.match_ p (Pattern.buildParameterizedTopic p ps)) ≠ Ok ps.
Proof.
  intros ps p. split; [by vm_compute|]. split; [by vm_compute|].
  split; [by vm_compute|].
  assert (Pattern.getParameters p
            (Pattern.match_ p (Pattern.buildParameterizedTopic p ps)) = Ok ∅)
    as -> by by vm_compute.
  split; [done|]. by intros [= H].
Qed.

(** ** The segments of a topic that matches *)

Lemma levelOnly_app a b : levelOnly a → levelOnly b → levelOnly (a ++ b).
Proof. unfold levelOnly. rewrite forallb_app. by intros -> ->. Qed.

Lemma levels_levelOnly ul s : levels ul s → Forall levelOnly (split "/" s).
Proof.
  induction 1 as [|r sl s Hr Hsl Hs IH]; [by repeat constructor|].
  pose proof (isLevel_forallb r Hr) as Hr'.
  pose proof (levelChar_not_slash r Hr') as Hns.
  destruct Hsl as [->|[_ ->]]; simpl.
  - rewrite split_app by done. by constructor.
  - rewrite split_app_nosep by done.
    destruct (split "/" s) as [|e0 T]; [by repeat constructor|].
    inversion IH; subst. constructor; [by apply levelOnly_app|done].
Qed.

Lemma isLevel_app r e : isLevel r = true → levelOnly e → isLevel (r ++ e) = true.
Proof.
  intros Hr He. pose proof (isLevel_forallb r Hr) as Hr'.
  destruct r as [|b r]; [done|]. cbn [app isLevel].
  change (b :: r ++ e) with ((b :: r) ++ e). rewrite forallb_app.
  by rewrite Hr', He.
Qed.

Lemma accepts_shape segs x captures :
  noEarlyMulti segs = true →
  Forall (fun seg => "/" ∉ seg) segs →
  accepts segs x captures →
  shape segs (split "/" x).
Proof.
  intros Hne Hsegs. revert x captures.
  induction Hsegs as [|seg rest Hseg Hrest IH]; intros x captures.
  - intros [-> _]. by right.
  - specialize (IH (noEarlyMulti_tail _ _ Hne)).
    cbn [accepts shape].
    destruct (startsWith "+" seg) eqn:Hs; [|destruct (startsWith "#" seg) eqn:Hm].
    + assert (startsWith "#" seg = false) as ->.
      { unfold startsWith in *. destruct (head seg); [|done].
        by apply Ascii.eqb_eq in Hs as ->. }
      intros (r & sl & y & captures' & Hr & Hsl & -> & _ & Hacc).
      pose proof (isLevel_not_slash r Hr) as Hns.
      unfold headOK. rewrite Hs.
      destruct Hsl as [->|[Hul ->]]; simpl.
      * rewrite split_app by done. split; [done|]. by eapply IH.
      * rewrite split_app_nosep by done.
        destruct rest as [|m' [|m'' rest']]; [| |by simpl in Hul].
        -- destruct Hacc as [-> _]. simpl. rewrite app_nil_r.
           split; [done|]. by left.
        -- simpl in Hul. cbn [accepts] in Hacc. rewrite Hul in Hacc.
           assert (startsWith "+" m' = false) as Hs'.
           { unfold startsWith in *. destruct (head m'); [|done].
             by apply Ascii.eqb_eq in Hul as ->. }
           rewrite Hs' in Hacc.
           destruct Hacc as (s & y' & c' & Hlev & -> & _ & [-> _]).
           rewrite app_nil_r. apply levels_levelOnly in Hlev.
           pose proof (split_not_nil "/" s) as Hnil.
           destruct (split "/" s) as [|e0 T]; [done|].
           inversion Hlev; subst. split; [by apply isLevel_app|].
           cbn [shape]. by rewrite Hul.
    + pose proof (noEarlyMulti_multi _ _ Hne Hm) as ->.
      intros (s & y & c' & Hlev & -> & _ & [-> _]).
      rewrite app_nil_r. by eapply levels_levelOnly.
    + intros (sl & y & Hsl & -> & Hacc).
      unfold headOK. rewrite Hs.
      destruct Hsl as [->|[Hul ->]]; simpl.
      * rewrite split_app by done. split; [|by eapply IH].
        destruct (beforeMulti rest); [|done].
        exists []. by rewrite app_nil_r.
      * rewrite split_app_nosep by done.
        destruct rest as [|m' [|m'' rest']]; [| |by simpl in Hul].
        -- destruct Hacc as [-> _]. simpl. rewrite app_nil_r. split; [done|].
           by left.
        -- simpl in Hul. cbn [accepts] in Hacc. rewrite Hul in Hacc.
           assert (startsWith "+" m' = false) as Hs'.
           { unfold startsWith in *. destruct (head m'); [|done].
             by apply Ascii.eqb_eq in Hul as ->. }
           rewrite Hs' in Hacc.
           destruct Hacc as (s & y' & c' & Hlev & -> & _ & [-> _]).
           rewrite app_nil_r. apply levels_levelOnly in Hlev.
           pose proof (split_not_nil "/" s) as Hnil.
           destruct (split "/" s) as [|e0 T]; [done|].
           inversion Hlev; subst. cbn [beforeMulti]. rewrite Hul.
           split; [by exists e0|]. cbn [shape]. by rewrite Hul.
Qed.

Lemma match_shape pattern p topic arr :
  Pattern.from pattern = Ok p →
  Pattern.match_ p topic = Some arr →
  shape (split "/" pattern) (split "/" topic).
Proof.
  intros Hp Hm.
  destruct (match_sound _ _ _ _ Hp Hm) as (captures & Hacc & _).
  apply from_Ok in Hp as (Hne & _).
  eapply accepts_shape; [done| |done]. apply split_segments.
Qed.

(** ** A pattern does not match its own subscribable topic *)

Lemma escape_no_slash seg : "/" ∉ seg → "/" ∉ escapeStringRegexp seg.
Proof.
  induction seg as [|c seg IH]; simpl; [done|].
  rewrite not_elem_of_cons. intros [Hc Hseg].
  destruct (isOperator c); rewrite !not_elem_of_cons; auto.
Qed.

Lemma render_no_slash seg : "/" ∉ seg → "/" ∉ render seg.
Proof.
  intros Hseg. unfold render.
  destruct (startsWith "+" seg); [by intros [=]%list_elem_of_singleton|].
  destruct (startsWith "#" seg); [by intros [=]%list_elem_of_singleton|].
  by apply escape_no_slash.
Qed.

Lemma shape_render segs :
  shape segs (map render segs) →
  Forall (fun seg => isWildcard seg = false) segs.
Proof.
  induction segs as [|seg rest IH]; [by constructor|].
  cbn [shape map]. unfold headOK, isWildcard.
  destruct (startsWith "+" seg) eqn:Hs.
  - assert (render seg = «"+"») as -> by (unfold render; by rewrite Hs).
    assert (startsWith "#" seg = false) as ->;
      [|intros [H _]; by vm_compute in H].
    unfold startsWith in *. destruct (head seg); [|done].
    by apply Ascii.eqb_eq in Hs as ->.
  - destruct (startsWith "#" seg) eqn:Hm.
    + assert (render seg = «"#"») as -> by (unfold render; by rewrite Hs, Hm).
      intros H. inversion H as [|? ? Hl _]. by vm_compute in Hl.
    + intros [_ H]. constructor; [by rewrite Hs, Hm|by apply IH].
Qed.

(** C9. A compiled pattern with at least one wildcard segment does not
    match the subscribable topic derived from it. *)
Theorem own_topic_never_matches (pattern : str) (p : Pattern) :
  Pattern.from pattern = Ok p →
  Exists (fun seg => isWildcard seg = true) (split "/" pattern) →
  Pattern.match_ p (Pattern.getTopic p) = None.
Proof.
  intros Hp Hwild.
  destruct (Pattern.match_ p (Pattern.getTopic p)) as [arr|] eqn:Hm; [|done].
  pose proof (match_shape _ _ _ _ Hp Hm) as Hshape.
  apply from_Ok in Hp as (_ & _ & Htopic & _).
  unfold Pattern.getTopic in Hshape.
  rewrite Htopic, buildTopic_render, split_join in Hshape.
  - apply shape_render in Hshape. apply Exists_exists in Hwild as (seg & Hin & Hw).
    rewrite Forall_forall in Hshape. by rewrite (Hshape seg Hin) in Hw.
  - pose proof (split_not_nil "/" pattern). by destruct (split "/" pattern).
  - apply Forall_forall. intros t (seg & -> & Hin)%list_elem_of_fmap.
    apply render_no_slash.
    by apply (proj1 (Forall_forall _ _) (split_segments "/" pattern)).
Qed.

Lemma own_topic_never_matches_witness :
  let p := compiled «"devices/+deviceId/#rest"» in
  Pattern.getTopic p = «"devices/+/#"»
  ∧ Pattern.match_ p (Pattern.getTopic p) = None.
Proof.
  intros p. split; [by vm_compute|].
  apply (own_topic_never_matches «"devices/+deviceId/#rest"» p);
    [by vm_compute|].
  apply Exists_cons_tl, Exists_cons_hd. by vm_compute.
Defined.

(** ** Literal segments *)

Lemma shape_raw segs T i seg :
  noEarlyMulti segs = true →
  shape segs T →
  segs !! i = Some seg → isWildcard seg = false →
  ∃ t e, T !! i = Some t ∧ t = seg ++ e ∧ levelOnly e
         ∧ (beforeMulti (drop (S i) segs) = false → e = []).
Proof.
  revert T i. induction segs as [|s rest IH]; intros T i Hne; [done|].
  cbn [shape]. destruct (startsWith "#" s) eqn:Hm.
  - pose proof (noEarlyMulti_multi _ _ Hne Hm) as ->.
    intros _ Hi Hseg. destruct i; simpl in Hi; [|done].
    injection Hi as ->. unfold isWildcard in Hseg.
    by rewrite Hm, orb_true_r in Hseg.
  - destruct T as [|t T']; [done|]. intros [Hhead Hshape] Hi Hseg.
    destruct i as [|i]; simpl in Hi.
    + injection Hi as ->. unfold headOK in Hhead.
      apply orb_false_iff in Hseg as [Hs _]. rewrite Hs in Hhead.
      simpl. rewrite drop_0.
      destruct (beforeMulti rest).
      * destruct Hhead as (e & -> & He). by exists (seg ++ e), e.
      * subst t. exists seg, []. by rewrite app_nil_r.
    + by apply (IH T' i (noEarlyMulti_tail _ _ Hne)).
Qed.

(** When a compiled pattern matches a topic, the topic segment at the
    position of a raw segment starts with the text of that segment,
    character for character, and is equal to it unless the raw segment
    stands directly before a final multi wildcard. *)
Theorem raw_segment_matches_literally
    (pattern : str) (p : Pattern) (topic : str) (arr : list (option str))
    (i : nat) (seg : str) :
  Pattern.from pattern = Ok p →
  Pattern.match_ p topic = Some arr →
  split "/" pattern !! i = Some seg →
  isWildcard seg = false →
  ∃ t e, split "/" topic !! i = Some t ∧ t = seg ++ e
         ∧ (beforeMulti (drop (S i) (split "/" pattern)) = false → t = seg).
Proof.
  intros Hp Hm Hi Hseg.
  pose proof (match_shape _ _ _ _ Hp Hm) as Hshape.
  apply from_Ok in Hp as (Hne & _).
  destruct (shape_raw _ _ _ _ Hne Hshape Hi Hseg) as (t & e & Ht & -> & _ & He).
  exists (seg ++ e), e. repeat split; [done|].
  intros ->%He. by rewrite app_nil_r.
Qed.

Lemma raw_segment_matches_literally_witness :
  let p := compiled «"a.b/+x"» in
  Pattern.match_ p «"a.b/v"» = Some [Some «"a.b/v"»; Some «"v"»]
  ∧ Pattern.match_ p «"axb/v"» = None
  ∧ ∃ t e, split "/" «"a.b/v"» !! 0 = Some t ∧ t = «"a.b"» ++ e
           ∧ (beforeMulti (drop 1 (split "/" «"a.b/+x"»)) = false → t = «"a.b"»).
Proof.
  intros p. split; [by vm_compute|]. split; [by vm_compute|].
  apply (raw_segment_matches_literally «"a.b/+x"» p «"a.b/v"»
           [Some «"a.b/v"»; Some «"v"»] 0 «"a.b"»); by vm_compute.
Defined.

(** C6.  A raw segment that stands directly before a final multi
    wildcard is not matched exactly: [buildRegularExpression] gives it
    its [last] form, whose slash is optional, so the multi wildcard goes
    on reading inside the same topic segment.  The pattern [a.b/#x]
    matches the topic [a.bc], whose first segment is not [a.b], and
    binds [x] to [c]; the pattern [devices/my-device/config/#keys]
    matches [devices/my-device/configuration] with [uration] as its
    keys.  In any other place the same text is refused: [a.b/+x] does
    not match [a.bc/v]. *)
Theorem raw_segment_before_multi_is_a_prefix :
  let p := compiled «"a.b/#x"» in
  let q := compiled «"devices/my-device/config/#keys"» in
  Pattern.from «"a.b/#x"» = Ok p
  ∧ split "/" «"a.b/#x"» !! 0 = Some «"a.b"»
  ∧ split "/" «"a.bc"» !! 0 = Some «"a.bc"»
  ∧ Pattern.match_ p «"a.bc"» = Some [Some «"a.bc"»; Some «"c"»]
  ∧ Pattern.getParameters p (Pattern.match_ p «"a.bc"»)
    = Ok {[ «"x"» := Sequence [«"c"»] ]}
  ∧ Pattern.from «"devices/my-device/config/#keys"» = Ok q
  ∧ Pattern.getParameters q
      (Pattern.match_ q «"devices/my-device/configuration"»)
    = Ok {[ «"keys"» := Sequence [«"uration"»] ]}
  ∧ Pattern.match_ (compiled «"a.b/+x"») «"a.bc/v"» = None.
Proof. intros p q. repeat split; by vm_compute. Qed.

(** ** Whole topics *)

Lemma shape_length segs T :
  Forall (fun seg => startsWith "#" seg = false) segs →
  shape segs T →
  length T = length segs
  ∨ (length T = S (length segs) ∧ last T = Some []).
Proof.
  intros Hsegs. revert T.
  induction Hsegs as [|seg rest Hseg _ IH]; intros T.
  - intros [->| ->]; [by left|by right].
  - cbn [shape]. rewrite Hseg. destruct T as [|t T']; [done|].
    intros [_ [Hlen|[Hlen Hlast]]%IH]; simpl.
    + left. by rewrite Hlen.
    + right. split; [by rewrite Hlen|]. by destruct T'.
Qed.

(** C5, as the code has it.  A match always spans the topic from its
    first to its last character.  When the pattern has no multi
    wildcard, a topic that matches has as many segments as the pattern,
    or one more that is empty: the slash at the end of a topic is
    optional.  For [devices/+deviceId/status], the topic
    [devices/42/status] matches with [deviceId] bound to [42], and
    [devices/42/43/status] does not match. *)
Theorem match_spans_the_whole_topic :
  (∀ (pattern : str) (p : Pattern) (topic : str) (arr : list (option str)),
     Pattern.from pattern = Ok p →
     Pattern.match_ p topic = Some arr →
     arr !! 0 = Some (Some topic)
     ∧ (Forall (fun seg => startsWith "#" seg = false) (split "/" pattern) →
        length (split "/" topic) = length (split "/" pattern)
        ∨ (length (split "/" topic) = S (length (split "/" pattern))
           ∧ last (split "/" topic) = Some [])))
  ∧ (let p := compiled «"devices/+deviceId/status"» in
     Pattern.from «"devices/+deviceId/status"» = Ok p
     ∧ Pattern.getTopic p = «"devices/+/status"»
     ∧ Pattern.match_ p «"devices/42/status"»
       = Some [Some «"devices/42/status"»; Some «"42/"»]
     ∧ Pattern.getParameters p (Pattern.match_ p «"devices/42/status"»)
       = Ok {[ «"deviceId"» := Scalar «"42"» ]}
     ∧ Pattern.match_ p «"devices/42/43/status"» = None).
Proof.
  split.
  - intros pattern p topic arr Hp Hm.
    pose proof (match_shape _ _ _ _ Hp Hm) as Hshape.
    destruct (match_sound _ _ _ _ Hp Hm) as (captures & _ & -> & _).
    split; [done|]. intros Hsegs. by apply shape_length.
  - intros p. repeat split; by vm_compute.
Qed.

Lemma match_spans_the_whole_topic_witness :
  let p := compiled «"devices/+deviceId/status"» in
  Pattern.match_ p «"devices/42/status/"»
    = Some [Some «"devices/42/status/"»; Some «"42/"»]
  ∧ [Some «"devices/42/status/"»; Some «"42/"»] !! 0
    = Some (Some «"devices/42/status/"»)
  ∧ length (split "/" «"devices/42/status/"») = 4
  ∧ last (split "/" «"devices/42/status/"») = Some [].
Proof.
  intros p.
  assert (Pattern.from «"devices/+deviceId/status"» = Ok p) as Hp
    by by vm_compute.
  assert (Pattern.match_ p «"devices/42/status/"»
          = Some [Some «"devices/42/status/"»; Some «"42/"»]) as Hm
    by by vm_compute.
  destruct (proj1 match_spans_the_whole_topic _ _ _ _ Hp Hm) as [H0 Hlen].
  split; [done|]. split; [done|].
  destruct Hlen as [Hlen|[Hlen Hlast]].
  - vm_compute. repeat constructor.
  - by vm_compute in Hlen.
  - by split.
Defined.

(** C5 as stated fails: the pattern [a/+x] has two segments and no multi
    wildcard, the topic [a/v/] has three, and the match succeeds. *)
Lemma trailing_empty_segment_matches :
  let p := compiled «"a/+x"» in
  Pattern.from «"a/+x"» = Ok p
  ∧ split "/" «"a/+x"» = [«"a"»; «"+x"»]
  ∧ split "/" «"a/v/"» = [«"a"»; «"v"»; []]
  ∧ Pattern.match_ p «"a/v/"» = Some [Some «"a/v/"»; Some «"v/"»].
Proof. intros p. repeat split; by vm_compute. Qed.

(** ** Single wildcards *)

Lemma extract_preserve ws captures acc key :
  Forall (fun w => drop 1 w ≠ key) ws →
  extract ws captures acc !! key = acc !! key.
Proof.
  intros Hws. revert captures acc.
  induction Hws as [|w ws Hw _ IH]; intros captures acc; [done|].
  destruct captures as [|capture captures]; [done|]. cbn [extract].
  rewrite IH. destruct (truthy _); [|done]. by rewrite assign_lookup_ne.
Qed.

Lemma extract_bind pre tpre nm post r tpost acc :
  length tpre = length pre →
  nm ≠ [] → nm ≠ protoName → isLevel r = true →
  Forall (fun w => drop 1 w ≠ nm) (wildcards post) →
  extract (wildcards (pre ++ ("+" :: nm) :: post))
    (capsOf (pre ++ ("+" :: nm) :: post) (tpre ++ r :: tpost)) acc !! nm
  = Some (Scalar r).
Proof.
  intros Hlen Hnm Hproto Hr Hpost. revert tpre acc Hlen.
  induction pre as [|seg pre IH]; intros tpre acc Hlen.
  - destruct tpre; [|done]. cbn [app capsOf wildcards List.filter].
    change (isWildcard ("+" :: nm)) with true.
    change (startsWith "+" ("+" :: nm)) with true. cbn [extract].
    change (drop 1 ("+" :: nm)) with nm.
    destruct nm as [|c nm]; [done|]. cbn [truthy].
    rewrite extract_preserve, assign_plain by done. rewrite lookup_insert_eq.
    rewrite paramOf_single; [done..|]. destruct post; auto.
  - destruct tpre as [|t tpre]; [done|]. simpl in Hlen.
    cbn [app capsOf wildcards List.filter]. unfold isWildcard.
    destruct (startsWith "+" seg); [|destruct (startsWith "#" seg)];
      cbn [orb extract]; apply IH; lia.
Qed.

Lemma shape_single segs T i seg :
  noEarlyMulti segs = true →
  shape segs T →
  segs !! i = Some seg → startsWith "+" seg = true →
  ∃ t, T !! i = Some t ∧ isLevel t = true.
Proof.
  revert T i. induction segs as [|s rest IH]; intros T i Hne; [done|].
  cbn [shape]. destruct (startsWith "#" s) eqn:Hm.
  - pose proof (noEarlyMulti_multi _ _ Hne Hm) as ->.
    intros _ Hi Hseg. destruct i; simpl in Hi; [|done].
    injection Hi as ->. unfold startsWith in *. destruct (head seg); [|done].
    apply Ascii.eqb_eq in Hseg as ->. done.
  - destruct T as [|t T']; [done|]. intros [Hhead Hshape] Hi Hseg.
    destruct i as [|i]; simpl in Hi.
    + injection Hi as ->. unfold headOK in Hhead. rewrite Hseg in Hhead.
      by exists t.
    + by apply (IH T' i (noEarlyMulti_tail _ _ Hne)).
Qed.

(** C3, as the code has it.  Take a compiled pattern with a named single
    wildcard [+nm] after the segments [pre], its name other than
    [__proto__].  A topic written segment by segment, each conforming to
    its pattern segment, with the level [r] (not empty, no [/], [#] or
    [+]) in the place of the wildcard, matches and binds [r] to [nm],
    provided no later wildcard has the same name.
    Conversely, in every topic that matches, the segment in the place of
    the wildcard is one level, and when the pattern has no multi
    wildcard the topic has as many segments as the pattern, or one more
    that is empty. *)
Theorem single_wildcard_binds_one_level
    (pattern : str) (p : Pattern) (pre : list str) (nm : str)
    (post : list str) :
  Pattern.from pattern = Ok p →
  split "/" pattern = pre ++ ("+" :: nm) :: post →
  nm ≠ [] →
  nm ≠ protoName →
  (∀ (tpre : list str) (r : str) (tpost : list str),
     length tpre = length pre →
     Forall2 (fun seg text => conformsTo seg text = true)
       (split "/" pattern) (tpre ++ r :: tpost) →
     Forall (fun w => drop 1 w ≠ nm) (wildcards post) →
     ∃ arr ps,
       Pattern.match_ p (join "/" (tpre ++ r :: tpost)) = Some arr
       ∧ Pattern.getParameters p (Some arr) = Ok ps
       ∧ ps !! nm = Some (Scalar r))
  ∧ (∀ (topic : str) (arr : list (option str)),
       Pattern.match_ p topic = Some arr →
       (∃ r, split "/" topic !! length pre = Some r ∧ isLevel r = true)
       ∧ (Forall (fun seg => startsWith "#" seg = false) (split "/" pattern) →
          length (split "/" topic) = length (split "/" pattern)
          ∨ (length (split "/" topic) = S (length (split "/" pattern))
             ∧ last (split "/" topic) = Some []))).
Proof.
  intros Hp Hsegs Hnm Hproto.
  pose proof (from_Ok _ _ Hp) as (Hne & _). split.
  - intros tpre r tpost Hlen Hconf Hpost.
    pose proof (refMatch_texts _ _ Hne Hconf) as Href.
    destruct (match_greedy _ _ _ _ Hp Href) as [Hm Hps].
    eexists _, _. split; [done|]. rewrite <- Hm. split; [done|].
    rewrite Hsegs in Hconf |- *.
    apply extract_bind; [done..| |done].
    apply Forall2_app_inv in Hconf as [_ Hconf]; [|done].
    by inversion Hconf.
  - intros topic arr Hm. pose proof (match_shape _ _ _ _ Hp Hm) as Hshape.
    split; [|intros Hno; by apply shape_length].
    apply (shape_single _ _ _ ("+" :: nm) Hne Hshape); [|done].
    rewrite Hsegs. by rewrite lookup_app_r, Nat.sub_diag by lia.
Qed.

Lemma single_wildcard_binds_one_level_witness :
  let p := compiled «"devices/+deviceId/status"» in
  ∃ arr ps,
    Pattern.match_ p (join "/" [«"devices"»; «"42"»; «"status"»]) = Some arr
    ∧ Pattern.getParameters p (Some arr) = Ok ps
    ∧ ps !! «"deviceId"» = Some (Scalar «"42"»).
Proof.
  intros p.
  destruct (single_wildcard_binds_one_level «"devices/+deviceId/status"» p
              [«"devices"»] «"deviceId"» [«"status"»]) as [Hbind _];
    [by vm_compute..|].
  apply (Hbind [«"devices"»] «"42"» [«"status"»]).
  - done.
  - vm_compute. repeat constructor.
  - vm_compute. constructor.
Defined.

(** C3 as stated fails: in [devices/a+b/status] the place of the wildcard
    of [devices/+deviceId/status] holds exactly one segment and the other
    segments are those of the pattern, yet the topic does not match. *)
Lemma single_wildcard_rejects_plus :
  let p := compiled «"devices/+deviceId/status"» in
  Pattern.from «"devices/+deviceId/status"» = Ok p
  ∧ split "/" «"devices/+deviceId/status"»
    = [«"devices"»; «"+deviceId"»; «"status"»]
  ∧ split "/" «"devices/a+b/status"» = [«"devices"»; «"a+b"»; «"status"»]
  ∧ Pattern.match_ p «"devices/a+b/status"» = None.
Proof. intros p. repeat split; by vm_compute. Qed.

Lemma multi_values_have_no_empty_element_witness :
  let p := compiled «"devices/my-device/config/#keys"» in
  ∃ ps l,
    Pattern.getParameters p
      (Some [Some «"devices/my-device/config/a/b/"»; Some «"a/b/"»]) = Ok ps
    ∧ ps !! «"keys"» = Some (Sequence l)
    ∧ Forall (fun e => e ≠ []) l.
Proof.
  intros p.
  apply (multi_values_have_no_empty_element «"devices/my-device/config/#keys"»
           p «"devices/my-device/config/a/b/"»).
  - by vm_compute.
  - vm_compute. do 3 apply list_elem_of_further. apply list_elem_of_here.
  - done.
  - by vm_compute.
Defined.

(** ** The matcher is the greedy reader

    Whatever the backtracking matcher accepts, the greedy reading accepts
    too, so [match] is exactly [refMatch]. *)

Lemma isLevelsFrom_mono x : isLevelsFrom false x = true → isLevelsFrom true x = true.
Proof.
  destruct x as [|b x]; [done|]. cbn [isLevelsFrom].
  by destruct (b =? "/")%char.
Qed.

Lemma levels_isLevels s : levels true s → isLevels s = true.
Proof.
  unfold isLevels. induction 1 as [|r sl s Hr Hsl Hs IH]; [done|].
  rewrite isLevelsFrom_level by done.
  destruct Hsl as [->|[_ ->]]; simpl.
  - by change ("/" =? "/")%char with true.
  - by apply isLevelsFrom_mono.
Qed.

Lemma span_isLevel r y :
  isLevel r = true →
  match y with b :: _ => levelChar b = false | [] => True end →
  span (r ++ y) = (r, y).
Proof. intros Hr. apply span_level. by apply isLevel_forallb. Qed.

Lemma levels_head s :
  levels true s →
  match s with b :: _ => levelChar b = true | [] => True end.
Proof.
  induction 1 as [|r sl s Hr Hsl Hs IH]; [done|].
  destruct r as [|b r]; [done|]. simpl in *.
  by apply andb_true_iff in Hr as [-> _].
Qed.

Lemma accepts_refMatch segs x captures :
  noEarlyMulti segs = true →
  accepts segs x captures →
  ∃ captures', refMatch segs x = Some captures'.
Proof.
  intros Hne. revert x captures.
  induction segs as [|seg rest IH]; intros x captures.
  - intros [-> _]. by exists [].
  - specialize (IH (noEarlyMulti_tail _ _ Hne)). cbn [accepts refMatch].
    destruct (startsWith "+" seg) eqn:Hs; [|destruct (startsWith "#" seg) eqn:Hm].
    + intros (r & sl & y & captures' & Hr & Hsl & -> & _ & Hacc).
      destruct Hsl as [->|[Hul ->]].
      * rewrite span_isLevel, Hr by done.
        change (eatSlash ?ul («"/"» ++ y)) with (Some («"/"», y)).
        cbn [mbind option_bind].
        destruct (IH _ _ Hacc) as [c ->]. by eexists.
      * destruct rest as [|m' [|m'' rest']]; [| |by simpl in Hul].
        -- destruct Hacc as [-> _]. cbn [app].
           rewrite span_isLevel, Hr by done. by eexists.
        -- simpl in Hul. cbn [accepts] in Hacc. rewrite Hul in Hacc.
           assert (startsWith "+" m' = false) as Hs'.
           { unfold startsWith in *. destruct (head m'); [|done].
             by apply Ascii.eqb_eq in Hul as ->. }
           rewrite Hs' in Hacc.
           destruct Hacc as (s & y' & c' & Hlev & -> & _ & [-> _]).
           rewrite app_nil_r. cbn [app].
           assert (isLevels (r ++ s) = true) as Hx.
           { unfold isLevels. rewrite isLevelsFrom_level by done.
             by apply isLevelsFrom_mono, levels_isLevels. }
           destruct (isLevels_step (r ++ s)) as (r' & y & sl & y'' & -> & -> & He & Hy & _);
             [done|by destruct r|].
           cbn [useLastForm]. rewrite Hul, He. cbn [mbind option_bind refMatch].
           rewrite Hs', Hul, Hy. by eexists.
    + pose proof (noEarlyMulti_multi _ _ Hne Hm) as ->.
      intros (s & y & c' & Hlev & -> & _ & [-> _]).
      rewrite app_nil_r, (levels_isLevels _ Hlev). by eexists.
    + intros (sl & y & Hsl & -> & Hacc). rewrite strip_app.
      cbn [mbind option_bind].
      destruct Hsl as [->|[Hul ->]].
      * change (eatSlash ?ul («"/"» ++ y)) with (Some («"/"», y)).
        cbn [mbind option_bind]. by eapply IH.
      * cbn [app]. destruct rest as [|m' [|m'' rest']]; [| |by simpl in Hul].
        -- destruct Hacc as [-> _]. by eexists.
        -- simpl in Hul. pose proof Hacc as Hacc'.
           cbn [accepts] in Hacc. rewrite Hul in Hacc.
           assert (startsWith "+" m' = false) as Hs'.
           { unfold startsWith in *. destruct (head m'); [|done].
             by apply Ascii.eqb_eq in Hul as ->. }
           rewrite Hs' in Hacc.
           destruct Hacc as (s & y' & c' & Hlev & -> & _ & [-> _]).
           rewrite app_nil_r in *.
           assert (eatSlash (useLastForm [m']) s = Some ([], s)) as ->.
           { cbn [useLastForm]. rewrite Hul.
             pose proof (levels_head _ Hlev) as Hh.
             destruct s as [|b s]; [done|]. cbn [eatSlash].
             by rewrite (levelChar_slash _ Hh). }
           cbn [mbind option_bind]. by eapply IH.
Qed.

(** [match] computed by the greedy reader. *)
Lemma match_refMatch pattern p topic :
  Pattern.from pattern = Ok p →
  Pattern.match_ p topic =
  (captures ← refMatch (split "/" pattern) topic;
   Some (Some topic :: map Some captures)).
Proof.
  intros Hp.
  destruct (refMatch (split "/" pattern) topic) as [captures|] eqn:Href.
  - by destruct (match_greedy _ _ _ _ Hp Href) as [-> _].
  - destruct (Pattern.match_ p topic) as [arr|] eqn:Hm; [|done].
    destruct (match_sound _ _ _ _ Hp Hm) as (c & Hacc & _).
    apply from_Ok in Hp as (Hne & _).
    destruct (accepts_refMatch _ _ _ Hne Hacc) as [c' Hc']. congruence.
Qed.

(** ** The examples of the documentation *)

Example config_topic :
  Pattern.getTopic (compiled «"devices/my-device/config/#keys"»)
  = «"devices/my-device/config/#"».
Proof. by vm_compute. Qed.

Example config_build :
  Pattern.buildParameterizedTopic (compiled «"devices/my-device/config/#keys"»)
    {[ «"keys"» := Sequence [«"a"»; «"b"»] ]}
  = «"devices/my-device/config/a/b"».
Proof. by vm_compute. Qed.

Example config_read_back :
  let p := compiled «"devices/my-device/config/#keys"» in
  Pattern.getParameters p (Pattern.match_ p «"devices/my-device/config/a/b"»)
  = Ok {[ «"keys"» := Sequence [«"a"»; «"b"»] ]}.
Proof. by vm_compute. Qed.

Example config_build_empty :
  Pattern.buildParameterizedTopic (compiled «"devices/my-device/config/#keys"»)
    {[ «"keys"» := Sequence [] ]}
  = «"devices/my-device/config/"».
Proof. by vm_compute. Qed.

Example config_read_back_empty :
  let p := compiled «"devices/my-device/config/#keys"» in
  Pattern.getParameters p (Pattern.match_ p «"devices/my-device/config/"»)
  = Ok {[ «"keys"» := Sequence [] ]}.
Proof. by vm_compute. Qed.

Example unnamed_wildcards_are_not_counted :
  let p := compiled «"+/+a/#"» in
  Pattern.getParameterCount p = 1
  ∧ Pattern.getParameters p (Pattern.match_ p «"u/v/w"»)
    = Ok {[ «"a"» := Scalar «"v"» ]}.
Proof. split; by vm_compute. Qed.

Example missing_parameter_passes_through :
  Pattern.buildParameterizedTopic (compiled «"devices/+deviceId/#keys"») ∅
  = «"devices/+deviceId/#keys"».
Proof. by vm_compute. Qed.

Example later_name_overwrites :
  let p := compiled «"+a/+a"» in
  Pattern.getParameters p (Pattern.match_ p «"u/v"»)
  = Ok {[ «"a"» := Scalar «"v"» ]}.
Proof. by vm_compute. Qed.

(** Without the escaping, the dot of a raw segment would be read as a
    metacharacter by [RegExp]. *)
Example unescaped_dot_matches_any_character :
  (re ← RegExp_new «"^a.b$"»; Ok (exec re «"axb"»)) = Ok (Some [Some «"axb"»])
  ∧ (re ← RegExp_new «"^a\.b$"»; Ok (exec re «"axb"»)) = Ok None
  ∧ (re ← RegExp_new «"^a\.b$"»; Ok (exec re «"a.b"»))
    = Ok (Some [Some «"a.b"»]).
Proof. repeat split; by vm_compute. Qed.

(** The names a plain object treats specially.  A single wildcard named
    [__proto__] matches and binds nothing; a bag that has such a key is
    not read back; a name that objects inherit is substituted although
    the bag has no such key, and the topic built this way matches. *)
Example proto_name_binds_nothing :
  let p := compiled «"+__proto__"» in
  Pattern.match_ p «"v"» = Some [Some «"v"»; Some «"v"»]
  ∧ Pattern.getParameters p (Pattern.match_ p «"v"») = Ok ∅
  ∧ Pattern.buildParameterizedTopic p {[ «"__proto__"» := Scalar «"v"» ]}
    = «"v"»
  ∧ Pattern.buildParameterizedTopic p ∅ = «"[object Object]"».
Proof. intros p. repeat split; by vm_compute. Qed.

Example inherited_name_is_substituted :
  let p := compiled «"+constructor/a"» in
  Pattern.buildParameterizedTopic p ∅
  = «"function Object() { [native code] }/a"»
  ∧ Pattern.match_ p (Pattern.buildParameterizedTopic p ∅) ≠ None.
Proof. intros p. split; by vm_compute. Qed.

(** * Further properties of the pattern engine *)

(** ** Segments that look like wildcards never match *)

Lemma isLevel_head t :
  isLevel t = true → isWildcard t = false.
Proof.
  destruct t as [|b t]; [done|]. cbn [isLevel forallb].
  intros [Hb _]%andb_true_iff. unfold isWildcard, startsWith. cbn [head].
  destruct (Ascii.eqb_spec b "+") as [->|_]; [by vm_compute in Hb|].
  destruct (Ascii.eqb_spec b "#") as [->|_]; [by vm_compute in Hb|done].
Qed.

Lemma levelOnly_head t : levelOnly t → isWildcard t = false.
Proof.
  destruct t as [|b t]; [done|]. unfold levelOnly. cbn [forallb].
  intros Ht. apply isLevel_head. by cbn [isLevel forallb].
Qed.

Lemma isWildcard_app seg e :
  seg ≠ [] → isWildcard (seg ++ e) = isWildcard seg.
Proof. by destruct seg. Qed.

Lemma shape_no_wildcard segs T :
  shape segs T → Forall (fun t => isWildcard t = false) T.
Proof.
  revert T. induction segs as [|seg rest IH]; intros T; cbn [shape].
  - intros [->| ->]; by repeat constructor.
  - destruct (startsWith "#" seg) eqn:Hm.
    + intros H. eapply Forall_impl; [done|]. apply levelOnly_head.
    + destruct T as [|t T']; [done|]. intros [Hhead Hshape].
      constructor; [|by apply IH]. unfold headOK in Hhead.
      destruct (startsWith "+" seg) eqn:Hs; [by apply isLevel_head|].
      assert (isWildcard seg = false) as Hseg
        by (unfold isWildcard; by rewrite Hs, Hm).
      destruct (beforeMulti rest); [|by subst].
      destruct Hhead as (e & -> & He).
      destruct seg; [by apply levelOnly_head|]. by rewrite isWildcard_app.
Qed.

(** No compiled pattern matches a topic one of whose segments starts with
    [+] or [#]. *)
Theorem wildcard_like_segment_never_matches
    (pattern : str) (p : Pattern) (topic t : str) :
  Pattern.from pattern = Ok p →
  t ∈ split "/" topic →
  isWildcard t = true →
  Pattern.match_ p topic = None.
Proof.
  intros Hp Ht Hw.
  destruct (Pattern.match_ p topic) as [arr|] eqn:Hm; [|done].
  pose proof (shape_no_wildcard _ _ (match_shape _ _ _ _ Hp Hm)) as Hno.
  rewrite Forall_forall in Hno. by rewrite (Hno t Ht) in Hw.
Qed.

Lemma wildcard_like_segment_never_matches_witness :
  Pattern.match_ (compiled «"devices/#rest"») «"devices/a/+/b"» = None.
Proof.
  apply (wildcard_like_segment_never_matches «"devices/#rest"» _ _ «"+"»).
  - by vm_compute.
  - vm_compute. do 2 apply list_elem_of_further. apply list_elem_of_here.
  - by vm_compute.
Defined.

(** ** Parameters left out *)

Lemma split_app_sep sep a b :
  split sep (a ++ sep :: b) = split sep a ++ split sep b.
Proof.
  induction a as [|c a IH]; simpl.
  - by rewrite decide_True.
  - case_decide; [by rewrite IH|]. rewrite IH.
    pose proof (split_not_nil sep a). by destruct (split sep a).
Qed.

Lemma split_join_elem sep l s :
  s ∈ l → sep ∉ s → s ∈ split sep (join sep l).
Proof.
  induction l as [|s0 l IH]; intros Hin Hs; [by apply elem_of_nil in Hin|].
  destruct l as [|s1 l].
  - apply list_elem_of_singleton in Hin as ->. simpl.
    rewrite split_no_sep by done. apply list_elem_of_here.
  - rewrite join_cons by done. rewrite split_app_sep.
    apply elem_of_app. apply elem_of_cons in Hin as [->|Hin].
    + left. rewrite split_no_sep by done. apply list_elem_of_here.
    + right. by apply IH.
Qed.

Lemma substitute_missing ps seg :
  ps !! drop 1 seg = None → inherited (drop 1 seg) = None →
  Pattern.substitute ps seg = seg.
Proof.
  intros Hps Hin. unfold Pattern.substitute. rewrite Hps, Hin.
  destruct (head seg); [|done]. by repeat case_match.
Qed.

(** A wildcard whose name is neither a key of the parameters nor a name
    that objects inherit ([constructor], [toString], [__proto__] and
    the like) is copied into the built topic as it is written, and no
    compiled pattern, the pattern itself included, matches that topic.
    The bag is a plain object: it holds nothing under [__proto__]. *)
Theorem missing_parameter_builds_unmatched_topic
    (pattern : str) (p : Pattern) (ps : params) (seg : str)
    (pattern' : str) (q : Pattern) :
  Pattern.from pattern = Ok p →
  seg ∈ split "/" pattern →
  isWildcard seg = true →
  ps !! drop 1 seg = None →
  inherited (drop 1 seg) = None →
  ps !! protoName = None →
  Pattern.from pattern' = Ok q →
  seg ∈ split "/" (Pattern.buildParameterizedTopic p ps)
  ∧ Pattern.match_ q (Pattern.buildParameterizedTopic p ps) = None.
Proof.
  intros Hp Hin Hw Hps Hinh _ Hq.
  assert (seg ∈ split "/" (Pattern.buildParameterizedTopic p ps)) as Hseg.
  { apply from_Ok in Hp as (_ & Hpat & _).
    unfold Pattern.buildParameterizedTopic. rewrite Hpat.
    apply split_join_elem.
    - apply list_elem_of_fmap. exists seg. by rewrite substitute_missing.
    - by apply (proj1 (Forall_forall _ _) (split_segments "/" pattern)). }
  split; [done|].
  destruct (Pattern.match_ q _) as [arr|] eqn:Hm; [|done].
  pose proof (shape_no_wildcard _ _ (match_shape _ _ _ _ Hq Hm)) as Hno.
  rewrite Forall_forall in Hno. by rewrite (Hno seg Hseg) in Hw.
Qed.

Lemma missing_parameter_builds_unmatched_topic_witness :
  let p := compiled «"devices/+deviceId/#keys"» in
  let ps : params := {[ «"deviceId"» := Scalar «"42"» ]} in
  Pattern.buildParameterizedTopic p ps = «"devices/42/#keys"»
  ∧ Pattern.match_ p (Pattern.buildParameterizedTopic p ps) = None.
Proof.
  intros p ps. split; [by vm_compute|].
  apply (missing_parameter_builds_unmatched_topic
           «"devices/+deviceId/#keys"» p ps «"#keys"»
           «"devices/+deviceId/#keys"» p).
  - by vm_compute.
  - vm_compute. do 2 apply list_elem_of_further. apply list_elem_of_here.
  - by vm_compute.
  - by vm_compute.
  - by vm_compute.
  - by vm_compute.
  - by vm_compute.
Defined.

(** ** Names and values of the extracted parameters *)

Lemma extract_keys ws captures acc key :
  length captures = length ws →
  is_Some (extract ws captures acc !! key) ↔
  is_Some (acc !! key)
  ∨ (key ≠ [] ∧ key ∈ map (drop 1) (List.filter stored ws)).
Proof.
  revert captures acc. induction ws as [|w ws IH]; intros captures acc Hlen.
  - destruct captures; [|done]. simpl. split; [by left|].
    intros [?|[_ H]]; [done|]. by apply elem_of_nil in H.
  - destruct captures as [|capture captures]; [done|].
    cbn [extract List.filter].
    rewrite IH by (simpl in Hlen; lia). rewrite assign_paramOf.
    destruct (stored w); cbn [map]; [rewrite elem_of_cons|].
    + destruct (drop 1 w) as [|c nm] eqn:Hw; cbn [truthy].
      * split; [intros [?|[? ?]]; auto|].
        intros [?|[Hk [->|?]]]; auto. done.
      * destruct (decide (key = c :: nm)) as [->|Hne].
        -- rewrite lookup_insert_eq. split; [intros _; right; auto|].
           intros _. left. by eexists.
        -- rewrite lookup_insert_ne by done.
           split; [intros [?|[? ?]]; auto|]. intros [?|[Hk [?|?]]]; auto. done.
    + by destruct (truthy _).
Qed.

Lemma stored_all ws :
  protoName ∉ map (drop 1) ws → List.filter stored ws = ws.
Proof.
  intros Hproto. apply forallb_filter_id, forallb_forall.
  intros w Hw%list_elem_of_In. unfold stored.
  rewrite bool_decide_eq_false_2; [by destruct (startsWith "#" w)|].
  intros Heq. apply Hproto. rewrite <- Heq. by apply list_elem_of_fmap_2.
Qed.

Lemma namedWildcards_names segs key :
  key ∈ map (drop 1) (namedWildcards segs) ↔
  key ≠ [] ∧ key ∈ map (drop 1) (wildcards segs).
Proof.
  unfold namedWildcards. rewrite !list_elem_of_fmap. split.
  - intros (w & -> & Hw%list_elem_of_In%filter_In). destruct Hw as [Hw Hnm].
    split; [by destruct (drop 1 w)|]. exists w. by rewrite list_elem_of_In.
  - intros (Hkey & w & -> & Hw). exists w. split; [done|].
    apply list_elem_of_In, filter_In. split; [by apply list_elem_of_In|].
    by destruct (drop 1 w).
Qed.

(** When a compiled pattern none of whose wildcards is named
    [__proto__] matches, the keys of the extracted parameters are
    exactly the non-empty names of its wildcards; the empty name of an
    unnamed wildcard is never a key. *)
Theorem extracted_keys_are_the_wildcard_names
    (pattern : str) (p : Pattern) (topic : str) (arr : list (option str)) :
  Pattern.from pattern = Ok p →
  protoName ∉ map (drop 1) (wildcards (split "/" pattern)) →
  Pattern.match_ p topic = Some arr →
  ∃ ps, Pattern.getParameters p (Some arr) = Ok ps
        ∧ ps !! [] = None
        ∧ ∀ key, is_Some (ps !! key) ↔
                 key ∈ map (drop 1) (namedWildcards (split "/" pattern)).
Proof.
  intros Hp Hproto Hm.
  destruct (match_sound _ _ _ _ Hp Hm) as (captures & Hacc & _ & Hps).
  eexists. split; [done|].
  pose proof (accepts_length _ _ _ Hacc) as Hlen.
  assert (∀ key, is_Some (extract (wildcards (split "/" pattern)) captures ∅ !! key)
                 ↔ key ∈ map (drop 1) (namedWildcards (split "/" pattern))) as Hkeys.
  { intros key. rewrite extract_keys, stored_all, namedWildcards_names by done.
    rewrite lookup_empty. split; [intros [[? [=]]|?]; done|by right]. }
  split; [|done].
  apply eq_None_not_Some. intros H%Hkeys%namedWildcards_names. by destruct H.
Qed.

Lemma extracted_keys_are_the_wildcard_names_witness :
  let p := compiled «"+/+a/#"» in
  ∃ ps, Pattern.getParameters p (Some [Some «"u/v/w"»; Some «"u/"»; Some «"v/"»; Some «"w"»]) = Ok ps
        ∧ ps !! [] = None
        ∧ ∀ key, is_Some (ps !! key) ↔
                 key ∈ map (drop 1) (namedWildcards (split "/" «"+/+a/#"»)).
Proof.
  intros p.
  apply (extracted_keys_are_the_wildcard_names «"+/+a/#"» p «"u/v/w"»);
    [by vm_compute|apply (bool_decide_unpack _); by vm_compute|by vm_compute].
Defined.

(** ** The parameter count *)

Lemma counted_tokenOf seg :
  negb (isRaw (tokenOf seg)) && truthy (name (tokenOf seg))
    && bool_decide (0 < length (default [] (name (tokenOf seg))))
  = isWildcard seg && truthy (Some (drop 1 seg)).
Proof.
  unfold isRaw, isWildcard. rewrite type_tokenOf. unfold tokenOf.
  destruct (startsWith "+" seg); [|destruct (startsWith "#" seg)]; cbn;
    [| |done]; by destruct (drop 1 seg).
Qed.

Lemma buildParameterCount_named segs :
  buildParameterCount (map tokenOf segs) = length (namedWildcards segs).
Proof.
  unfold buildParameterCount, namedWildcards, wildcards.
  induction segs as [|seg rest IH]; [done|]. cbn [map List.filter].
  rewrite counted_tokenOf.
  destruct (isWildcard seg); cbn [andb List.filter]; [|done].
  destruct (truthy (Some (drop 1 seg))); cbn [length]; by rewrite IH.
Qed.

Lemma size_list_to_set_le (l : list str) :
  size (list_to_set l : gset str) ≤ length l.
Proof.
  induction l as [|x l IH]; simpl; [done|].
  rewrite size_union_alt, size_singleton.
  assert (size (list_to_set l ∖ {[x]} : gset str) ≤ size (list_to_set l : gset str))
    by by apply subseteq_size, subseteq_difference_l.
  lia.
Qed.

(** [getParameterCount] is the number of wildcard segments with a
    non-empty name.  The parameters extracted from a match never have
    more keys than that, and have exactly as many when the names are
    pairwise different and none of them is [__proto__]. *)
Theorem parameter_count_bounds_extracted_keys
    (pattern : str) (p : Pattern) (topic : str) (arr : list (option str)) :
  Pattern.from pattern = Ok p →
  Pattern.match_ p topic = Some arr →
  Pattern.getParameterCount p = length (namedWildcards (split "/" pattern))
  ∧ ∃ ps, Pattern.getParameters p (Some arr) = Ok ps
          ∧ size ps ≤ Pattern.getParameterCount p
          ∧ (NoDup (map (drop 1) (namedWildcards (split "/" pattern))) →
             protoName ∉ map (drop 1) (wildcards (split "/" pattern)) →
             size ps = Pattern.getParameterCount p).
Proof.
  intros Hp Hm.
  destruct (match_sound _ _ _ _ Hp Hm) as (captures & Hacc & _ & Hps).
  pose proof (accepts_length _ _ _ Hacc) as Hlen.
  apply from_Ok in Hp as (_ & _ & _ & _ & _ & Hcount).
  unfold Pattern.getParameterCount. rewrite Hcount, buildParameterCount_named.
  split; [done|]. eexists. split; [done|].
  set (ps := extract _ _ _).
  set (names := map (drop 1) (namedWildcards (split "/" pattern))).
  assert (∀ key, key ∈ dom ps ↔
                 key ≠ [] ∧ key ∈ map (drop 1)
                                    (List.filter stored (wildcards (split "/" pattern))))
    as Hkeys.
  { intros key. rewrite elem_of_dom. unfold ps. rewrite extract_keys by done.
    rewrite lookup_empty. split; [intros [[? [=]]|?]; done|by right]. }
  rewrite <- size_dom. split.
  - etrans; [|by rewrite <- (length_map (drop 1)); apply size_list_to_set_le].
    apply subseteq_size. intros key [Hne Hin]%Hkeys.
    apply elem_of_list_to_set, namedWildcards_names. split; [done|].
    apply list_elem_of_fmap in Hin as (w & -> & Hw).
    apply list_elem_of_fmap_2.
    apply list_elem_of_In, filter_In in Hw as [Hw _]. by apply list_elem_of_In.
  - intros Hnd Hproto.
    assert (dom ps = list_to_set names) as ->.
    { apply set_eq. intros key. rewrite Hkeys, stored_all by done.
      unfold names. by rewrite elem_of_list_to_set, namedWildcards_names. }
    unfold names. by rewrite size_list_to_set, length_map.
Qed.

Lemma parameter_count_bounds_extracted_keys_witness :
  let p := compiled «"+a/+a/+b"» in
  Pattern.getParameterCount p = 3
  ∧ ∃ ps, Pattern.getParameters p
            (Some [Some «"u/v/w"»; Some «"u/"»; Some «"v/"»; Some «"w"»]) = Ok ps
          ∧ size ps ≤ Pattern.getParameterCount p.
Proof.
  intros p.
  destruct (parameter_count_bounds_extracted_keys «"+a/+a/+b"» p «"u/v/w"»
              [Some «"u/v/w"»; Some «"u/"»; Some «"v/"»; Some «"w"»])
    as (Hcount & ps & Hps & Hle & _); [by vm_compute..|].
  split; [by vm_compute|]. by exists ps.
Defined.

(** ** The extracted values *)

Lemma accepts_captures segs x captures :
  accepts segs x captures → Forall2 captureOK (wildcards segs) captures.
Proof.
  revert x captures. induction segs as [|seg rest IH]; intros x captures.
  - intros [_ ->]. constructor.
  - cbn [accepts wildcards List.filter]. unfold isWildcard.
    destruct (startsWith "+" seg) eqn:Hs; [|destruct (startsWith "#" seg) eqn:Hm];
      cbn [orb].
    + intros (r & sl & y & captures' & Hr & Hsl & _ & -> & Hacc).
      constructor; [|by eapply IH]. unfold captureOK.
      assert (startsWith "#" seg = false) as ->.
      { unfold startsWith in *. destruct (head seg); [|done].
        by apply Ascii.eqb_eq in Hs as ->. }
      exists r, sl. repeat split; [done|]. destruct Hsl as [?|[_ ?]]; auto.
    + intros (s & y & captures' & Hlev & _ & -> & Hacc).
      constructor; [|by eapply IH]. unfold captureOK. rewrite Hm. by eexists.
    + intros (sl & y & _ & _ & Hacc). by eapply IH.
Qed.

Lemma isLevel_iff e : isLevel e = true ↔ e ≠ [] ∧ levelOnly e.
Proof. destruct e; [by split; [|intros [? _]]|]. by split; [|intros [_ ?]]. Qed.

Lemma paramOf_levelValue w capture :
  captureOK w capture → levelValue (paramOf w capture) = true.
Proof.
  unfold captureOK, paramOf. destruct (startsWith "#" w).
  - intros [ul Hlev].
    pose proof (levels_split _ _ Hlev) as Hne.
    pose proof (levels_levelOnly _ _ Hlev) as Hlo.
    destruct (snoc_cases (split "/" capture)) as [Hnil|(l' & a & Hl)].
    { by destruct (split_not_nil "/" capture). }
    rewrite Hl in *. rewrite removeLastItem_snoc in *.
    unfold getLastItem. rewrite last_snoc.
    apply Forall_app in Hlo as [Hlo Ha].
    assert (forallb isLevel l' = true) as Hl'.
    { apply forallb_forall. intros e He%list_elem_of_In. apply isLevel_iff.
      rewrite Forall_forall in Hne, Hlo. auto. }
    destruct a as [|c a]; cbn [truthy negb levelValue]; [done|].
    rewrite forallb_app, Hl'. cbn [forallb andb].
    rewrite andb_true_r. apply isLevel_iff. split; [done|]. by inversion Ha.
  - intros (r & sl & Hr & -> & Hsl).
    destruct Hsl as [->| ->].
    + unfold getLastItem. simpl. rewrite last_snoc.
      rewrite bool_decide_eq_true_2 by done. by rewrite removeLastItem_snoc.
    + rewrite app_nil_r.
      by rewrite bool_decide_eq_false_2 by by apply isLevel_last.
Qed.

Lemma extract_levelValues ws captures acc :
  Forall2 captureOK ws captures →
  map_Forall (fun _ v => levelValue v = true) acc →
  map_Forall (fun _ v => levelValue v = true) (extract ws captures acc).
Proof.
  intros H. revert acc.
  induction H as [|w capture ws captures Hw _ IH]; intros acc Hacc; [done|].
  cbn [extract]. apply IH. destruct (truthy _); [|done].
  destruct (assign_cases acc (drop 1 w) (paramOf w capture)) as [->| ->];
    [done|].
  apply map_Forall_insert_2; [by apply paramOf_levelValue|done].
Qed.

(** Whatever topic matched, every extracted value is made of levels: a
    scalar is one level (not empty, no [/], [#] or [+]) and a list holds
    levels only. *)
Theorem extracted_values_are_levels
    (pattern : str) (p : Pattern) (topic : str) (arr : list (option str)) :
  Pattern.from pattern = Ok p →
  Pattern.match_ p topic = Some arr →
  ∃ ps, Pattern.getParameters p (Some arr) = Ok ps
        ∧ ∀ key v, ps !! key = Some v → levelValue v = true.
Proof.
  intros Hp Hm.
  destruct (match_sound _ _ _ _ Hp Hm) as (captures & Hacc & _ & Hps).
  eexists. split; [done|]. intros key v Hv.
  eapply (extract_levelValues _ _ ∅ (accepts_captures _ _ _ Hacc)); [|done].
  apply map_Forall_empty.
Qed.

Lemma extracted_values_are_levels_witness :
  let p := compiled «"+a/#b"» in
  ∃ ps, Pattern.getParameters p
          (Some [Some «"u/v/w/"»; Some «"u/"»; Some «"v/w/"»]) = Ok ps
        ∧ ∀ key v, ps !! key = Some v → levelValue v = true.
Proof.
  intros p.
  apply (extracted_values_are_levels «"+a/#b"» p «"u/v/w/"»); by vm_compute.
Defined.

(** ** What a single wildcard is bound to *)

Lemma span_maximal x r y :
  span x = (r, y) →
  forallb levelChar r = true
  ∧ match y with b :: _ => levelChar b = false | [] => True end.
Proof.
  revert r. induction x as [|b x IH]; intros r; cbn [span].
  - by intros [= <- <-].
  - destruct (levelChar b) eqn:Hb; [|intros [= <- <-]; by rewrite Hb].
    destruct (span x) as [r' y'] eqn:Hs. intros [= <- <-].
    destruct (IH r' eq_refl) as [Hr Hy]. split; [|done].
    cbn. by rewrite Hb.
Qed.

Lemma isLevels_head y :
  isLevels y = true →
  match y with b :: _ => levelChar b = true | [] => True end.
Proof.
  destruct y as [|b y]; [done|]. unfold isLevels. cbn [isLevelsFrom].
  destruct (b =? "/")%char; [done|]. by intros [? _]%andb_true_iff.
Qed.

Lemma refMatch_single_segment pre w post x captures :
  noEarlyMulti (pre ++ w :: post) = true →
  Forall (fun seg => "/" ∉ seg) pre →
  startsWith "+" w = true →
  refMatch (pre ++ w :: post) x = Some captures →
  ∃ c1 t sl c2,
    captures = c1 ++ (t ++ sl) :: c2
    ∧ length c1 = length (wildcards pre)
    ∧ length c2 = length (wildcards post)
    ∧ split "/" x !! length pre = Some t
    ∧ isLevel t = true
    ∧ (sl = «"/"» ∨ sl = []).
Proof.
  intros Hne Hpre Hw. revert x captures Hne.
  assert (startsWith "#" w = false) as Hwm.
  { unfold startsWith in *. destruct (head w); [|done].
    by apply Ascii.eqb_eq in Hw as ->. }
  induction Hpre as [|seg pre Hseg _ IH]; intros x captures Hne.
  - cbn [app refMatch]. rewrite Hw.
    destruct (span x) as [r y] eqn:Hx.
    destruct (isLevel r) eqn:Hr; [|done].
    destruct (eatSlash _ y) as [[sl y']|] eqn:He; [|done].
    cbn [mbind option_bind].
    destruct (refMatch post y') as [c2|] eqn:Hpost; [|done].
    cbn [mbind option_bind]. intros [= <-].
    exists [], r, sl, c2. split; [done|]. split; [done|].
    split; [by eapply refMatch_length|].
    pose proof (span_app _ _ _ Hx) as ->.
    pose proof (span_maximal _ _ _ Hx) as [_ Hy].
    pose proof (isLevel_not_slash _ Hr) as Hns.
    unfold eatSlash in He. destruct y as [|b y].
    + destruct (useLastForm post); [|done]. injection He as <- <-.
      rewrite app_nil_r, split_no_sep by done. auto.
    + destruct (Ascii.eqb_spec b "/") as [->|Hb].
      * injection He as <- <-. rewrite split_app by done. auto.
      * destruct (useLastForm post) eqn:Hul; [|done]. injection He as <- <-.
        exfalso. destruct post as [|m' [|m'' post']]; [done| |done].
        simpl in Hul. cbn [refMatch] in Hpost. rewrite Hul in Hpost.
        assert (startsWith "+" m' = false) as Hs'.
        { unfold startsWith in *. destruct (head m'); [|done].
          by apply Ascii.eqb_eq in Hul as ->. }
        rewrite Hs' in Hpost.
        destruct (isLevels (b :: y)) eqn:Hlev; [|done].
        apply isLevels_head in Hlev. congruence.
  - pose proof (noEarlyMulti_tail _ _ Hne) as Hne'.
    assert (useLastForm (pre ++ w :: post) = false) as Hul.
    { destruct pre as [|s1 [|s2 pre]]; [|done..].
      destruct post; [by simpl|done]. }
    change ((seg :: pre) ++ w :: post) with (seg :: pre ++ w :: post).
    cbn [refMatch]. rewrite Hul.
    assert (∀ y, eatSlash false y = Some («"/"», drop 1 y) ∧ y = "/" :: drop 1 y
                 ∨ eatSlash false y = None) as Heat.
    { intros [|b y]; [by right|]. cbn [eatSlash].
      destruct (Ascii.eqb_spec b "/") as [->|]; [left|right]; by rewrite ?drop_0. }
    destruct (startsWith "+" seg) eqn:Hs; [|destruct (startsWith "#" seg) eqn:Hm].
    + destruct (span x) as [r y] eqn:Hx.
      destruct (isLevel r) eqn:Hr; [|done].
      destruct (Heat y) as [[-> Hy]| ->]; [|done]. cbn [mbind option_bind].
      destruct (refMatch _ (drop 1 y)) as [c|] eqn:Hrest; [|done].
      cbn [mbind option_bind]. intros [= <-].
      destruct (IH _ _ Hne' Hrest) as (c1 & t & sl & c2 & -> & Hl1 & Hl2 & Ht & Hlev & Hsl).
      exists ((r ++ «"/"») :: c1), t, sl, c2. split; [done|].
      split; [cbn [wildcards List.filter]; unfold isWildcard; rewrite Hs; simpl;
              by rewrite Hl1|].
      split; [done|]. split; [|done].
      apply span_app in Hx as ->. rewrite Hy.
      rewrite split_app by by apply isLevel_not_slash. done.
    + pose proof (noEarlyMulti_multi _ _ Hne Hm) as Hnil. by destruct pre.
    + destruct (strip seg x) as [y|] eqn:Hx; [|done]. cbn [mbind option_bind].
      destruct (Heat y) as [[-> Hy]| ->]; [|done]. cbn [mbind option_bind].
      intros Hrest.
      destruct (IH _ _ Hne' Hrest) as (c1 & t & sl & c2 & -> & Hl1 & Hl2 & Ht & Hlev & Hsl).
      exists c1, t, sl, c2. split; [done|].
      split; [cbn [wildcards List.filter]; unfold isWildcard; by rewrite Hs, Hm|].
      split; [done|]. split; [|done].
      apply strip_Some in Hx as ->. rewrite Hy. by rewrite split_app.
Qed.

Lemma extract_app_lookup ws1 w ws2 c1 capture c2 acc :
  length c1 = length ws1 →
  drop 1 w ≠ [] →
  stored w = true →
  Forall (fun w' => drop 1 w' ≠ drop 1 w) ws2 →
  extract (ws1 ++ w :: ws2) (c1 ++ capture :: c2) acc !! drop 1 w
  = Some (paramOf w capture).
Proof.
  intros Hlen Hnm Hst Hws2. revert c1 acc Hlen.
  induction ws1 as [|w1 ws1 IH]; intros c1 acc Hlen.
  - destruct c1; [|done]. cbn [app extract].
    rewrite assign_paramOf, Hst.
    destruct (drop 1 w) eqn:Hd; [done|]. cbn [truthy].
    rewrite extract_preserve by by rewrite <- Hd in Hws2 |- *.
    by rewrite lookup_insert_eq.
  - destruct c1 as [|c c1]; [done|]. cbn [app extract].
    apply IH. simpl in Hlen. lia.
Qed.

(** Whatever topic matched, a named single wildcard whose name is not
    [__proto__] is bound to the whole topic segment that stands at its
    position, provided no later wildcard has the same name. *)
Theorem single_wildcard_value_is_the_topic_segment
    (pattern : str) (p : Pattern) (pre : list str) (nm : str)
    (post : list str) (topic : str) (arr : list (option str)) :
  Pattern.from pattern = Ok p →
  split "/" pattern = pre ++ ("+" :: nm) :: post →
  nm ≠ [] →
  nm ≠ protoName →
  Forall (fun w => drop 1 w ≠ nm) (wildcards post) →
  Pattern.match_ p topic = Some arr →
  ∃ t ps, split "/" topic !! length pre = Some t
          ∧ Pattern.getParameters p (Some arr) = Ok ps
          ∧ ps !! nm = Some (Scalar t).
Proof.
  intros Hp Hsegs Hnm Hproto Hpost Hm.
  assert (stored ("+" :: nm) = true) as Hst.
  { unfold stored. change (drop 1 ("+" :: nm)) with nm.
    by rewrite bool_decide_eq_false_2. }
  pose proof (from_Ok _ _ Hp) as (Hne & _ & _ & _ & Htok & _).
  rewrite (match_refMatch _ _ _ Hp) in Hm.
  destruct (refMatch (split "/" pattern) topic) as [captures|] eqn:Href; [|done].
  injection Hm as <-.
  pose proof (refMatch_length _ _ _ Href) as Hlen.
  unfold Pattern.getParameters. rewrite Htok.
  rewrite buildParameterFunction_captures by done.
  rewrite Hsegs in Href, Hne |- *.
  destruct (refMatch_single_segment pre ("+" :: nm) post topic captures)
    as (c1 & t & sl & c2 & -> & Hl1 & Hl2 & Ht & Hlev & Hsl); [done| |done..|].
  { pose proof (split_segments "/" pattern) as Hall. rewrite Hsegs in Hall.
    by apply Forall_app in Hall as [? _]. }
  exists t. eexists. split; [done|]. split; [done|].
  rewrite wildcards_app. change (wildcards (("+" :: nm) :: post))
    with (("+" :: nm) :: wildcards post).
  pose proof (extract_app_lookup (wildcards pre) ("+" :: nm) (wildcards post)
                c1 (t ++ sl) c2 ∅ Hl1 Hnm Hst Hpost) as Hx.
  change (drop 1 ("+" :: nm)) with nm in Hx. rewrite Hx.
  by rewrite paramOf_single.
Qed.

Lemma single_wildcard_value_is_the_topic_segment_witness :
  let p := compiled «"devices/+deviceId/#rest"» in
  ∃ t ps, split "/" «"devices/42/a/b"» !! 1 = Some t
          ∧ Pattern.getParameters p
              (Some [Some «"devices/42/a/b"»; Some «"42/"»; Some «"a/b"»]) = Ok ps
          ∧ ps !! «"deviceId"» = Some (Scalar t).
Proof.
  intros p.
  apply (single_wildcard_value_is_the_topic_segment «"devices/+deviceId/#rest"»
           p [«"devices"»] «"deviceId"» [«"#rest"»] «"devices/42/a/b"»).
  - by vm_compute.
  - by vm_compute.
  - done.
  - done.
  - vm_compute. repeat constructor. done.
  - by vm_compute.
Defined.

(** ** What a multi wildcard is bound to *)

Lemma paramOf_dropEmptyLast m s :
  startsWith "#" m = true →
  paramOf m s = Sequence (dropEmptyLast (split "/" s)).
Proof.
  intros Hm. unfold paramOf, dropEmptyLast. rewrite Hm.
  by destruct (truthy _).
Qed.

Lemma refMatch_multi_segments pre m x captures :
  noEarlyMulti (pre ++ [m]) = true →
  Forall (fun seg => "/" ∉ seg) pre →
  startsWith "#" m = true →
  (∀ seg, last pre = Some seg → isWildcard seg = false →
          split "/" x !! (length pre - 1) = Some seg) →
  refMatch (pre ++ [m]) x = Some captures →
  ∃ c1 s,
    captures = c1 ++ [s]
    ∧ length c1 = length (wildcards pre)
    ∧ dropEmptyLast (split "/" s)
      = dropEmptyLast (drop (length pre) (split "/" x)).
Proof.
  intros Hne Hpre Hm.
  assert (startsWith "+" m = false) as Hms.
  { unfold startsWith in *. destruct (head m); [|done].
    by apply Ascii.eqb_eq in Hm as ->. }
  revert x captures Hne.
  induction Hpre as [|seg pre Hseg _ IH]; intros x captures Hne Hraw.
  - cbn [app refMatch]. rewrite Hms, Hm.
    destruct (isLevels x); [|done]. cbn. intros [= <-].
    exists [], x. by rewrite drop_0.
  - change ((seg :: pre) ++ [m]) with (seg :: pre ++ [m]) in *.
    pose proof (noEarlyMulti_tail _ _ Hne) as Hne'.
    cbn [refMatch].
    assert (startsWith "#" seg = false) as Hsm.
    { destruct (startsWith "#" seg) eqn:H; [|done].
      pose proof (noEarlyMulti_multi _ _ Hne H). by destruct pre. }
    rewrite Hsm.
    (* the rest of the topic after this segment and its slash *)
    assert (∀ body y sl y' c,
              x = body ++ y → "/" ∉ body →
              eatSlash (useLastForm (pre ++ [m])) y = Some (sl, y') →
              refMatch (pre ++ [m]) y' = Some c →
              (sl = [] → y' ≠ [] → isWildcard seg = false ∧ body = seg) →
              ∃ c1 s, c = c1 ++ [s] ∧ length c1 = length (wildcards pre)
                      ∧ dropEmptyLast (split "/" s)
                        = dropEmptyLast (drop (length (seg :: pre)) (split "/" x)))
      as Hstep.
    { intros body y sl y' c -> Hbody He Hrest Hprefix.
      pose proof (eatSlash_app _ _ _ _ He) as [-> Hsl].
      destruct Hsl as [->|[Hul ->]].
      - change («"/"» ++ y') with ("/" :: y') in *.
        rewrite split_app by done. cbn [length drop]. apply IH; [done| |done].
        intros s Hlast Hs. specialize (Hraw s).
        destruct pre as [|s1 pre]; [done|].
        rewrite split_app in Hraw by done.
        replace (length (seg :: s1 :: pre) - 1)
          with (S (length (s1 :: pre) - 1)) in Hraw by (simpl; lia).
        exact (Hraw Hlast Hs).
      - destruct pre as [|s1 pre]; [|by destruct pre].
        cbn [app] in *. cbn [refMatch] in Hrest. rewrite Hms, Hm in Hrest.
        destruct (isLevels y') eqn:Hlev; [|done].
        cbn in Hrest. injection Hrest as <-.
        exists [], y'. split; [done|]. split; [done|]. cbn [length].
        destruct y' as [|b y'];
          [rewrite app_nil_r, (split_no_sep "/" body) by done; reflexivity|].
        destruct (Hprefix eq_refl) as [Hs ->]; [done|].
        specialize (Hraw seg eq_refl Hs). cbn [length] in Hraw.
        rewrite split_app_nosep in Hraw by done.
        pose proof (split_not_nil "/" (b :: y')) as Hnil.
        destruct (split "/" (b :: y')) as [|e0 T] eqn:Hsp; [done|].
        simpl in Hraw. injection Hraw as Hraw.
        assert (e0 = []) as -> by (by apply (app_inv_head seg); rewrite app_nil_r).
        exfalso. apply isLevels_head in Hlev.
        simpl in Hsp. destruct (decide (b = "/")) as [->|]; [by vm_compute in Hlev|].
        by destruct (split "/" y'). }
    destruct (startsWith "+" seg) eqn:Hs.
    + destruct (span x) as [r y] eqn:Hx.
      destruct (isLevel r) eqn:Hr; [|done].
      destruct (eatSlash _ y) as [[sl y']|] eqn:He; [|done].
      cbn [mbind option_bind].
      destruct (refMatch _ y') as [c|] eqn:Hrest; [|done].
      cbn [mbind option_bind]. intros [= <-].
      destruct (Hstep r y sl y' c) as (c1 & s & -> & Hl & Hdrop);
        [by apply span_app|by apply isLevel_not_slash|done..| |].
      { intros -> Hy'. exfalso.
        apply eatSlash_app in He as [-> [Hsl|[Hul _]]]; [done|]. cbn [app] in *.
        pose proof (span_maximal _ _ _ Hx) as [_ Hmax].
        destruct pre as [|s1 pre]; [|by destruct pre].
        cbn [app refMatch] in Hrest. rewrite Hms, Hm in Hrest.
        destruct (isLevels y') eqn:Hlev; [|done].
        apply isLevels_head in Hlev. destruct y'; [done|]. congruence. }
      exists ((r ++ sl) :: c1), s. split; [done|]. split; [|done].
      cbn [wildcards List.filter]. unfold isWildcard. rewrite Hs. simpl.
      by rewrite Hl.
    + destruct (strip seg x) as [y|] eqn:Hx; [|done]. cbn [mbind option_bind].
      destruct (eatSlash _ y) as [[sl y']|] eqn:He; [|done].
      cbn [mbind option_bind]. intros Hrest.
      destruct (Hstep seg y sl y' captures) as (c1 & s & -> & Hl & Hdrop);
        [by apply strip_Some|done..| |].
      { intros _ _. split; [|done]. unfold isWildcard. by rewrite Hs, Hsm. }
      exists c1, s. split; [done|]. split; [|done].
      cbn [wildcards List.filter]. unfold isWildcard. by rewrite Hs, Hsm.
Qed.

(** When the pattern ends in a named multi wildcard, and the segment in
    front of it is a wildcard or is met by the topic as a whole segment,
    every matching topic binds the multi wildcard to the list of the
    topic's segments from the wildcard's position on, a last empty
    segment left out. *)
Theorem multi_wildcard_value_is_the_topic_rest
    (pattern : str) (p : Pattern) (pre : list str) (nm : str)
    (topic : str) (arr : list (option str)) :
  Pattern.from pattern = Ok p →
  split "/" pattern = pre ++ [ "#" :: nm ] →
  nm ≠ [] →
  (∀ seg, last pre = Some seg → isWildcard seg = false →
          split "/" topic !! (length pre - 1) = Some seg) →
  Pattern.match_ p topic = Some arr →
  ∃ ps, Pattern.getParameters p (Some arr) = Ok ps
        ∧ ps !! nm
          = Some (Sequence (dropEmptyLast (drop (length pre) (split "/" topic)))).
Proof.
  intros Hp Hsegs Hnm Hraw Hm.
  pose proof (from_Ok _ _ Hp) as (Hne & _ & _ & _ & Htok & _).
  rewrite (match_refMatch _ _ _ Hp) in Hm.
  destruct (refMatch (split "/" pattern) topic) as [captures|] eqn:Href; [|done].
  injection Hm as <-.
  pose proof (refMatch_length _ _ _ Href) as Hlen.
  unfold Pattern.getParameters. rewrite Htok.
  rewrite buildParameterFunction_captures by done.
  rewrite Hsegs in Href, Hne |- *.
  destruct (refMatch_multi_segments pre ("#" :: nm) topic captures)
    as (c1 & s & -> & Hl & Hdrop); [done| |done..|].
  { pose proof (split_segments "/" pattern) as Hall. rewrite Hsegs in Hall.
    by apply Forall_app in Hall as [? _]. }
  eexists. split; [done|].
  rewrite wildcards_app. change (wildcards ["#" :: nm]) with ["#" :: nm].
  rewrite extract_snoc, assign_multi by done.
  change (drop 1 ("#" :: nm)) with nm.
  destruct nm as [|a nm]; [done|]. cbn [truthy].
  rewrite lookup_insert_eq. by rewrite paramOf_dropEmptyLast, Hdrop.
Qed.

Lemma multi_wildcard_value_is_the_topic_rest_witness :
  let p := compiled «"devices/+deviceId/#rest"» in
  ∃ ps, Pattern.getParameters p
          (Some [Some «"devices/42/a/b/"»; Some «"42/"»; Some «"a/b/"»]) = Ok ps
        ∧ ps !! «"rest"»
          = Some (Sequence (dropEmptyLast (drop 2 (split "/" «"devices/42/a/b/"»)))).
Proof.
  intros p.
  apply (multi_wildcard_value_is_the_topic_rest «"devices/+deviceId/#rest"»
           p [«"devices"»; «"+deviceId"»] «"rest"» «"devices/42/a/b/"»).
  - by vm_compute.
  - by vm_compute.
  - done.
  - intros seg [= <-]. by vm_compute.
  - by vm_compute.
Defined.

(** ** Parameters read from a match build a topic that gives them back *)

Lemma typedSeg_paramOf (ps : params) w capture :
  drop 1 w ≠ [] → captureOK w capture →
  ps !! drop 1 w = Some (paramOf w capture) →
  typedSeg ps w = true.
Proof.
  intros Hnm Hok Hps. pose proof (paramOf_levelValue _ _ Hok) as Hlv.
  unfold typedSeg. rewrite Hps.
  assert (truthy (Some (drop 1 w)) = true) as -> by by destruct (drop 1 w).
  destruct (startsWith "+" w) eqn:Hs.
  - assert (startsWith "#" w = false) as Hm.
    { unfold startsWith in *. destruct (head w); [|done].
      by apply Ascii.eqb_eq in Hs as ->. }
    unfold paramOf in *. rewrite Hm in *. by destruct (bool_decide _).
  - destruct (startsWith "#" w) eqn:Hm; [|done].
    unfold paramOf in *. rewrite Hm in *. by destruct (negb _).
Qed.

Lemma fitsSeg_raw ps seg : isWildcard seg = false → fitsSeg ps seg = true.
Proof.
  intros Hw. unfold fitsSeg, typedSeg. rewrite Hw. cbn [andb].
  unfold isWildcard in Hw. by apply orb_false_iff in Hw as [-> ->].
Qed.

Lemma extract_fits ws captures acc :
  Forall2 captureOK ws captures →
  Forall (fun w => drop 1 w ≠ []) ws →
  NoDup (map (drop 1) ws) →
  Forall (fun w => stored w = false → acc !! drop 1 w = None) ws →
  Forall (fun w => fitsSeg (extract ws captures acc) w = true) ws.
Proof.
  intros H. revert acc.
  induction H as [|w capture ws captures Hw Hrest IH]; intros acc Hnm Hnd Hacc;
    [constructor|].
  apply Forall_cons in Hnm as [Hnm Hnms].
  apply Forall_cons in Hacc as [Hacc Haccs].
  cbn [map] in Hnd. apply NoDup_cons in Hnd as [Hnotin Hnd].
  assert (Forall (fun w' => drop 1 w' ≠ drop 1 w) ws) as Hother.
  { apply Forall_forall. intros w' Hw' Heq. apply Hnotin.
    rewrite <- Heq. by apply list_elem_of_fmap_2. }
  cbn [extract]. rewrite assign_paramOf.
  assert (truthy (Some (drop 1 w)) = true) as -> by by destruct (drop 1 w).
  constructor.
  - destruct (isWildcard w) eqn:Hwild; [|by apply fitsSeg_raw].
    unfold fitsSeg. rewrite Hwild. cbn [andb].
    destruct (stored w) eqn:Hst; cbn [negb].
    + apply (typedSeg_paramOf _ _ capture); [done..|].
      by rewrite extract_preserve, lookup_insert_eq.
    + apply bool_decide_eq_true.
      assert (drop 1 w = protoName) as Hname.
      { unfold stored in Hst. apply orb_false_iff in Hst as [_ Hst].
        by apply negb_false_iff, bool_decide_eq_true in Hst. }
      rewrite <- Hname, extract_preserve by done. by apply Hacc.
  - apply IH; [done..|].
    rewrite Forall_forall in Haccs, Hother |- *.
    intros w' Hw' Hst'. destruct (stored w).
    + rewrite lookup_insert_ne by (apply not_eq_sym; by apply Hother).
      by apply Haccs.
    + by apply Haccs.
Qed.

Lemma fits_wildcards ps segs :
  Forall (fun w => fitsSeg ps w = true) (wildcards segs) →
  forallb (fitsSeg ps) segs = true.
Proof.
  intros H. apply forallb_forall. intros seg Hseg.
  destruct (isWildcard seg) eqn:Hw; [|by apply fitsSeg_raw].
  rewrite Forall_forall in H. apply H, list_elem_of_In, filter_In. by split.
Qed.

Lemma covered_extract ws segs captures :
  ws = wildcards segs →
  length captures = length ws →
  covered (extract ws captures ∅) segs = true.
Proof.
  intros -> Hlen. unfold covered. apply forallb_forall.
  intros key ([k v] & <- & Hkv%list_elem_of_In%elem_of_map_to_list)%in_map_iff.
  apply bool_decide_eq_true. cbn [fst].
  assert (is_Some (extract (wildcards segs) captures ∅ !! k)) as Hk by by eexists.
  apply extract_keys in Hk as [[? Hk]|[_ Hk]]; [|..|done].
  - by rewrite lookup_empty in Hk.
  - apply list_elem_of_fmap in Hk as (w & -> & Hw).
    apply list_elem_of_fmap_2.
    apply list_elem_of_In, filter_In in Hw as [Hw _]. by apply list_elem_of_In.
Qed.

(** When every wildcard of the pattern has a name of its own, the
    parameters read from any matching topic build a topic that matches
    again and gives the same parameters back. *)
Theorem rebuilt_topic_gives_the_same_parameters
    (pattern : str) (p : Pattern) (topic : str) (arr : list (option str))
    (ps : params) :
  Pattern.from pattern = Ok p →
  Forall (fun w => drop 1 w ≠ []) (wildcards (split "/" pattern)) →
  NoDup (map (drop 1) (wildcards (split "/" pattern))) →
  Pattern.match_ p topic = Some arr →
  Pattern.getParameters p (Some arr) = Ok ps →
  ∃ arr', Pattern.match_ p (Pattern.buildParameterizedTopic p ps) = Some arr'
          ∧ Pattern.getParameters p (Some arr') = Ok ps.
Proof.
  intros Hp Hnm Hnd Hm Hps.
  destruct (match_sound _ _ _ _ Hp Hm) as (captures & Hacc & _ & Hps').
  rewrite Hps' in Hps. injection Hps as Hps.
  pose proof (accepts_length _ _ _ Hacc) as Hlen.
  assert (forallb (fitsSeg ps) (split "/" pattern) = true) as Hfit.
  { apply fits_wildcards. rewrite <- Hps.
    apply extract_fits; [by eapply accepts_captures|done..|].
    apply Forall_forall. intros w _ _. apply lookup_empty. }
  assert (covered ps (split "/" pattern) = true) as Hcov.
  { rewrite <- Hps. by apply covered_extract. }
  by apply (fitting_bag_reads_back pattern).
Qed.

Lemma rebuilt_topic_gives_the_same_parameters_witness :
  let p := compiled «"devices/+deviceId/#rest"» in
  let ps : params :=
    <[ «"deviceId"» := Scalar «"42"» ]> {[ «"rest"» := Sequence [«"a"»; «"b"»] ]} in
  ∃ arr', Pattern.match_ p (Pattern.buildParameterizedTopic p ps) = Some arr'
          ∧ Pattern.getParameters p (Some arr') = Ok ps.
Proof.
  intros p ps.
  apply (rebuilt_topic_gives_the_same_parameters «"devices/+deviceId/#rest"»
           p «"devices/42/a/b/"»
           [Some «"devices/42/a/b/"»; Some «"42/"»; Some «"a/b/"»] ps).
  - by vm_compute.
  - vm_compute. by repeat constructor.
  - apply (bool_decide_unpack _). by vm_compute.
  - by vm_compute.
  - by vm_compute.
Defined.

(** ** Escaping makes a literal *)

(** Whatever the string, its escaped form between [^] and [$] is a
    regular expression that compiles, and it matches the string itself
    and nothing else. *)
Theorem escaped_string_is_a_literal_regex (s t : str) :
  ∃ re, RegExp_new («"^"» ++ escapeStringRegexp s ++ «"$"») = Ok re
        ∧ exec re t = if bool_decide (t = s) then Some [Some t] else None.
Proof.
  unfold RegExp_new.
  change (parse («"^"» ++ escapeStringRegexp s ++ «"$"») [] frame0 None 0)
    with (parse (escapeStringRegexp s ++ «"$"») []
            (assertion AssertStart frame0) None 0).
  rewrite parse_literal.
  change (parse «"$"» [] ?f None 0) with (Some (flush (assertion AssertEnd f), 0)).
  eexists. split; [done|].
  unfold flush. cbn [assertion terms frame0 app].
  cbn [rev]. rewrite rev_app_distr, rev_involutive. cbn [rev app].
  cbn [foldr].
  assert (∀ tot y c k, length y ≠ tot →
            m tot (Seq AssertStart
                     (foldr Seq Empty (map Chr s ++ [AssertEnd]))) y c k = None)
    as Hstart.
  { intros tot y c k Hy. simpl. by rewrite bool_decide_eq_false_2. }
  assert (m (length t)
            (Seq AssertStart (foldr Seq Empty (map Chr s ++ [AssertEnd])))
            t [] (fun y c => Some (y, c))
          = if bool_decide (t = s) then Some ([], []) else None) as Hm.
  { change (m ?tot (Seq AssertStart ?R) ?y ?c ?k)
      with (if bool_decide (length y = tot) then m tot R y c k else None).
    rewrite bool_decide_eq_true_2 by done. rewrite m_literal.
    destruct (strip s t) as [y|] eqn:Hy.
    - apply strip_Some in Hy as ->. destruct y as [|b y].
      + by rewrite app_nil_r, bool_decide_eq_true_2.
      + rewrite bool_decide_eq_false_2; [done|].
        intros H. apply (f_equal length) in H. rewrite length_app in H.
        simpl in H. lia.
    - rewrite bool_decide_eq_false_2; [done|]. intros ->.
      pose proof (strip_app s []) as H. rewrite app_nil_r in H. congruence. }
  unfold exec. destruct t as [|b x].
  - cbn [exec_from re_body re_groups replicate]. rewrite Hm.
    by destruct (bool_decide _).
  - cbn [exec_from re_body re_groups replicate]. rewrite Hm.
    destruct (bool_decide _).
    + change (length (@nil ascii)) with 0. by rewrite Nat.sub_0_r, firstn_all.
    + apply exec_from_short; [simpl; lia|]. intros. by apply Hstart.
Qed.

(** ** The tokens of a pattern *)

(** The tokenizer, when it returns, gives one token per segment of the
    pattern, in order: the first character of the segment decides the
    type, the name of a wildcard is the rest of its segment and a raw
    token has no name; a [MULTI] token can only be the last one. *)
Theorem tokens_follow_the_segments (pattern : str) (tokens : list Token) :
  tokenize pattern = Ok tokens →
  length tokens = length (split "/" pattern)
  ∧ (∀ i token, tokens !! i = Some token → type token = MULTI →
                i + 1 = length tokens)
  ∧ (∀ i token, tokens !! i = Some token →
       ∃ seg, split "/" pattern !! i = Some seg
              ∧ type token = (if startsWith "+" seg then SINGLE
                              else if startsWith "#" seg then MULTI else RAW)
              ∧ name token = (if isWildcard seg then Some (drop 1 seg)
                              else None)).
Proof.
  rewrite tokenize_eq.
  destruct (noEarlyMulti (split "/" pattern)) eqn:Hne; [|done].
  intros [= <-]. rewrite length_map. split; [done|].
  assert (∀ i token, map tokenOf (split "/" pattern) !! i = Some token →
            ∃ seg, split "/" pattern !! i = Some seg ∧ token = tokenOf seg)
    as Hseg.
  { intros i token Hi. rewrite list_lookup_fmap in Hi.
    destruct (split "/" pattern !! i) as [seg|]; [|done].
    injection Hi as <-. by exists seg. }
  split.
  - intros i token (seg & Hi & ->)%Hseg Hty.
    destruct (decide (i + 1 = length (split "/" pattern))) as [|Hlast]; [done|].
    assert (noEarlyMulti (split "/" pattern) = false); [|congruence].
    apply noEarlyMulti_spec. exists i, seg. split; [done|]. split; [|done].
    rewrite type_tokenOf in Hty.
    destruct (startsWith "+" seg); [done|]. by destruct (startsWith "#" seg).
  - intros i token (seg & Hi & ->)%Hseg. exists seg. split; [done|].
    split; [apply type_tokenOf|]. unfold tokenOf, isWildcard.
    destruct (startsWith "+" seg); [done|]. by destruct (startsWith "#" seg).
Qed.

Lemma tokens_follow_the_segments_witness :
  let tokens := _tokens (compiled «"devices/+id/#rest"») in
  length tokens = length (split "/" «"devices/+id/#rest"»)
  ∧ (∀ i token, tokens !! i = Some token → type token = MULTI →
                i + 1 = length tokens).
Proof.
  intros tokens.
  destruct (tokens_follow_the_segments «"devices/+id/#rest"» tokens)
    as (Hlen & Hlast & _); [by vm_compute|].
  by split.
Defined.

(** ** The capture array *)

(** The array a match returns holds the topic and then one text per
    wildcard of the pattern, each of them defined: no group is left
    undefined, even when a multi wildcard reads nothing. *)
Theorem match_array_has_one_text_per_wildcard
    (pattern : str) (p : Pattern) (topic : str) (arr : list (option str)) :
  Pattern.from pattern = Ok p →
  Pattern.match_ p topic = Some arr →
  ∃ captures, arr = Some topic :: map Some captures
              ∧ length captures = length (wildcards (split "/" pattern)).
Proof.
  intros Hp Hm.
  destruct (match_sound _ _ _ _ Hp Hm) as (captures & Hacc & -> & _).
  exists captures. split; [done|]. by eapply accepts_length.
Qed.

Lemma match_array_has_one_text_per_wildcard_witness :
  ∃ captures,
    [Some «"devices/42"»; Some «"42"»; Some []]
    = Some «"devices/42"» :: map Some captures
    ∧ length captures = length (wildcards (split "/" «"devices/+id/#rest"»)).
Proof.
  apply (match_array_has_one_text_per_wildcard «"devices/+id/#rest"»
           (compiled «"devices/+id/#rest"») «"devices/42"»); by vm_compute.
Defined.

(** ** The segments of the subscribable topic *)

Lemma escapeStringRegexp_plain seg :
  Forall (fun c => isOperator c = false) seg → escapeStringRegexp seg = seg.
Proof.
  induction 1 as [|c seg Hc _ IH]; [done|].
  cbn [escapeStringRegexp]. by rewrite Hc, IH.
Qed.

Lemma render_cases seg :
  render seg = if isWildcard seg then take 1 seg else escapeStringRegexp seg.
Proof.
  unfold render, isWildcard, startsWith. destruct seg as [|c seg]; [done|].
  cbn [head take]. destruct (Ascii.eqb_spec c "+") as [->|_]; [done|].
  by destruct (Ascii.eqb_spec c "#") as [->|_].
Qed.

(** The subscribable topic has the segments of the pattern, in order: a
    wildcard segment is cut down to its first character, a raw segment
    is escaped.  So when no raw segment holds an operator of regular
    expressions, [getTopic] is the pattern with the wildcard names taken
    out. *)
Theorem getTopic_segment_by_segment (pattern : str) (p : Pattern) :
  Pattern.from pattern = Ok p →
  split "/" (Pattern.getTopic p)
  = map (fun seg => if isWildcard seg then take 1 seg
                    else escapeStringRegexp seg) (split "/" pattern)
  ∧ (Forall (fun seg => isWildcard seg = true
                        ∨ Forall (fun c => isOperator c = false) seg)
       (split "/" pattern) →
     Pattern.getTopic p
     = join "/" (map (fun seg => if isWildcard seg then take 1 seg else seg)
                   (split "/" pattern))).
Proof.
  intros (_ & _ & Htopic & _)%from_Ok. unfold Pattern.getTopic.
  rewrite Htopic, buildTopic_render. split.
  - rewrite split_join.
    + apply map_ext, render_cases.
    + pose proof (split_not_nil "/" pattern). by destruct (split "/" pattern).
    + apply Forall_map. eapply Forall_impl; [apply split_segments|].
      intros seg. apply render_no_slash.
  - intros Hplain. f_equal. apply map_ext_Forall.
    eapply Forall_impl; [exact Hplain|]. intros seg Hseg. cbn beta in *.
    rewrite render_cases. destruct (isWildcard seg) eqn:Hw; [done|].
    destruct Hseg as [?|Hseg]; [done|]. by apply escapeStringRegexp_plain.
Qed.

Lemma getTopic_segment_by_segment_witness :
  let p := compiled «"devices/+id/status/#rest"» in
  split "/" (Pattern.getTopic p) = [«"devices"»; «"+"»; «"status"»; «"#"»]
  ∧ Pattern.getTopic p = «"devices/+/status/#"».
Proof.
  intros p.
  destruct (getTopic_segment_by_segment «"devices/+id/status/#rest"» p)
    as [Hsegs Htopic]; [by vm_compute|].
  split; [exact Hsegs|]. apply Htopic.
  repeat constructor; by (left + (right; repeat constructor)).
Defined.

(** ** A multi wildcard at the end also reads nothing *)

Lemma noEarlyMulti_snoc segs m :
  Forall (fun seg => startsWith "#" seg = false) segs →
  noEarlyMulti (segs ++ [m]) = true.
Proof.
  induction 1 as [|seg segs Hseg _ IH]; cbn [app noEarlyMulti].
  - by destruct (startsWith "#" m).
  - by rewrite Hseg, IH.
Qed.

Lemma refMatch_add_multi pre m x captures :
  Forall (fun seg => startsWith "#" seg = false) pre → pre ≠ [] →
  startsWith "#" m = true →
  refMatch pre x = Some captures →
  refMatch (pre ++ [m]) x = Some (captures ++ [[]]).
Proof.
  intros Hpre Hne Hm.
  assert (startsWith "+" m = false) as Hms.
  { unfold startsWith in *. destruct (head m); [|done].
    by apply Ascii.eqb_eq in Hm as ->. }
  assert (refMatch [m] [] = Some [[]]) as Hend.
  { cbn [refMatch]. by rewrite Hms, Hm. }
  revert x captures.
  induction Hpre as [|seg pre Hseg Hpre IH]; [done|]. clear Hne.
  intros x captures. cbn [app refMatch]. rewrite Hseg.
  assert (useLastForm (pre ++ [m]) = useLastForm pre) as ->.
  { destruct Hpre as [|s1 pre Hs1 Hpre]; [done|]. cbn [app useLastForm].
    rewrite Hs1. by destruct pre. }
  assert (∀ y c, refMatch pre y = Some c →
                 refMatch (pre ++ [m]) y = Some (c ++ [[]])) as Hrest.
  { intros y c. destruct pre as [|s1 pre]; [|by apply IH].
    cbn [refMatch app]. destruct y; [|done]. intros [= <-]. exact Hend. }
  destruct (startsWith "+" seg).
  - destruct (span x) as [r y]. destruct (isLevel r); [|done].
    destruct (eatSlash _ y) as [[sl y']|]; [|done]. cbn [mbind option_bind].
    destruct (refMatch pre y') as [c|] eqn:Hc; [|done].
    rewrite (Hrest _ _ Hc). cbn [mbind option_bind]. by intros [= <-].
  - destruct (strip seg x) as [y|]; [|done]. cbn [mbind option_bind].
    destruct (eatSlash _ y) as [[sl y']|]; [|done]. cbn [mbind option_bind].
    apply Hrest.
Qed.

(** A multi wildcard put behind a pattern that has none leaves every
    match in place: a topic the pattern matches is matched by the longer
    pattern as well, the multi wildcard reads nothing, and the parameters
    are the same with the empty list for the multi wildcard's name. *)
Theorem trailing_multi_also_matches_the_parent
    (pattern nm : str) (p : Pattern) (topic : str) (arr : list (option str)) :
  "/" ∉ nm →
  Forall (fun seg => startsWith "#" seg = false) (split "/" pattern) →
  Pattern.from pattern = Ok p →
  Pattern.match_ p topic = Some arr →
  ∃ p' arr' ps,
    Pattern.from (pattern ++ «"/#"» ++ nm) = Ok p'
    ∧ Pattern.match_ p' topic = Some arr'
    ∧ Pattern.getParameters p (Some arr) = Ok ps
    ∧ Pattern.getParameters p' (Some arr')
      = Ok (match nm with [] => ps | _ => <[nm := Sequence []]> ps end).
Proof.
  intros Hnm Hpre Hp Hm.
  assert (split "/" (pattern ++ «"/#"» ++ nm) = split "/" pattern ++ ["#" :: nm])
    as Hsegs.
  { change (pattern ++ «"/#"» ++ nm) with (pattern ++ "/" :: "#" :: nm).
    rewrite split_app_sep. f_equal. apply split_no_sep.
    rewrite not_elem_of_cons. by split. }
  pose proof (noEarlyMulti_snoc _ ("#" :: nm) Hpre) as Hne'.
  pose proof (from_eq (pattern ++ «"/#"» ++ nm)) as Hp'.
  rewrite Hsegs, Hne' in Hp'. rewrite <- Hsegs in Hp'.
  rewrite (match_refMatch _ _ _ Hp) in Hm.
  destruct (refMatch (split "/" pattern) topic) as [captures|] eqn:Href; [|done].
  injection Hm as <-.
  pose proof (refMatch_length _ _ _ Href) as Hlen.
  apply (refMatch_add_multi _ ("#" :: nm)) in Href as Href'; [|done| |done].
  2: { pose proof (split_not_nil "/" pattern). by destruct (split "/" pattern). }
  rewrite <- Hsegs in Href'.
  destruct (match_greedy _ _ _ _ Hp' Href') as [Hm' Hps'].
  destruct (match_greedy _ _ _ _ Hp Href) as [Hm Hps].
  rewrite Hm in Hps. rewrite Hm' in Hps'.
  eexists _, _, _. split; [exact Hp'|]. split; [exact Hm'|].
  split; [exact Hps|]. rewrite Hps'. f_equal.
  rewrite Hsegs, wildcards_app.
  change (wildcards ["#" :: nm]) with ["#" :: nm].
  rewrite extract_snoc by done. change (drop 1 ("#" :: nm)) with nm.
  by destruct nm.
Qed.

Lemma trailing_multi_also_matches_the_parent_witness :
  let p := compiled «"devices/+id"» in
  ∃ p' arr' ps,
    Pattern.from («"devices/+id"» ++ «"/#"» ++ «"rest"») = Ok p'
    ∧ Pattern.match_ p' «"devices/42"» = Some arr'
    ∧ Pattern.getParameters p (Some [Some «"devices/42"»; Some «"42"»]) = Ok ps
    ∧ Pattern.getParameters p' (Some arr')
      = Ok (<[«"rest"» := Sequence []]> ps).
Proof.
  intros p.
  apply (trailing_multi_also_matches_the_parent «"devices/+id"» «"rest"» p
           «"devices/42"» [Some «"devices/42"»; Some «"42"»]).
  - apply (bool_decide_unpack _). by vm_compute.
  - vm_compute. by repeat constructor.
  - by vm_compute.
  - by vm_compute.
Defined.

(** * The message bus *)

(** ** The map of patterns *)

Lemma Map_has_get es key :
  Map_has es key = true ↔ is_Some (Map_get es key).
Proof.
  unfold Map_has. rewrite bool_decide_eq_true.
  induction es as [|[k v] es IH]; cbn [map fst Map_get].
  - split; [by intros ?%elem_of_nil|by intros [? ?]].
  - rewrite elem_of_cons. destruct (decide (k = key)) as [->|Hne].
    + split; [by eexists|by left].
    + rewrite <- IH. split; [by intros [?|?]|by right].
Qed.

Lemma Map_set_fresh es key v :
  Map_has es key = false → Map_set es key v = es ++ [(key, v)].
Proof.
  unfold Map_has. rewrite bool_decide_eq_false.
  induction es as [|[k v'] es IH]; cbn [map fst Map_set app]; [done|].
  rewrite not_elem_of_cons. intros [Hne Hes].
  rewrite decide_False by done. by rewrite IH.
Qed.

Lemma Map_delete_fresh es key :
  Map_has es key = false → Map_delete es key = es.
Proof.
  unfold Map_has, Map_delete. rewrite bool_decide_eq_false.
  induction es as [|[k v'] es IH]; cbn [map fst List.filter]; [done|].
  rewrite not_elem_of_cons. intros [Hne Hes].
  rewrite bool_decide_eq_false_2 by done. cbn [negb]. by rewrite IH.
Qed.

Lemma Map_get_app_fresh before key v after :
  key ∉ map fst before →
  Map_get (before ++ (key, v) :: after) key = Some v.
Proof.
  induction before as [|[k v'] before IH]; cbn [map fst app Map_get].
  - intros _. by rewrite decide_True.
  - rewrite not_elem_of_cons. intros [Hne Hb].
    rewrite decide_False by done. by apply IH.
Qed.

Lemma setPattern_Ok bus label pattern bus' :
  Bus.setPattern bus label pattern = Ok bus' →
  ∃ p, Pattern.from pattern = Ok p
       ∧ Map_has (_patterns bus) label = false
       ∧ bus' = {| _patterns := _patterns bus ++ [(label, p)];
                   _client := _client bus |}.
Proof.
  unfold Bus.setPattern.
  destruct (Map_has (_patterns bus) label) eqn:Hhas; [done|].
  destruct (Pattern.from pattern) as [p|e]; [|done].
  cbn. intros [= <-]. exists p. by rewrite Map_set_fresh.
Qed.

Lemma removePattern_Ok bus label bus' :
  Bus.removePattern bus label = Ok bus' →
  Map_has (_patterns bus) label = false ∧ bus' = bus.
Proof.
  unfold Bus.removePattern.
  destruct (Map_has (_patterns bus) label) eqn:Hhas; [done|].
  intros [= <-]. rewrite Map_delete_fresh by done. by destruct bus.
Qed.

Lemma reachable_invariant bus :
  reachable bus →
  NoDup (map fst (_patterns bus)) ∧ compiledEntries (_patterns bus).
Proof.
  unfold compiledEntries.
  induction 1 as [|bus label pattern bus' _ [IHnd IHc] Hset
                  |bus label bus' _ IH Hrem|bus c _ IH].
  - split; [constructor|constructor].
  - apply setPattern_Ok in Hset as (p & Hp & Hhas & ->). cbn [_patterns].
    split.
    + rewrite map_app. apply NoDup_app. split; [done|].
      split; [|apply NoDup_singleton].
      intros k Hk ->%list_elem_of_singleton.
      unfold Map_has in Hhas. by apply bool_decide_eq_false in Hhas.
    + apply Forall_app. split; [done|]. constructor; [by exists pattern|done].
  - by apply removePattern_Ok in Hrem as [_ ->].
  - done.
Qed.

(** ** Delivering a message *)

Lemma forOfPatterns_spec es topic :
  compiledEntries es →
  match Bus.forOfPatterns es topic with
  | Ok (Some (label, ps)) =>
      ∃ before p after arr,
        es = before ++ (label, p) :: after
        ∧ Forall (fun e => Pattern.match_ e.2 topic = None) before
        ∧ Pattern.match_ p topic = Some arr
        ∧ Pattern.getParameters p (Some arr) = Ok ps
  | Ok None => Forall (fun e => Pattern.match_ e.2 topic = None) es
  | Throw _ => False
  end.
Proof.
  unfold compiledEntries.
  induction 1 as [|[label p] es [pattern Hp] _ IH]; cbn [Bus.forOfPatterns];
    [constructor|].
  cbn [snd] in Hp.
  destruct (Pattern.match_ p topic) as [arr|] eqn:Hm.
  - destruct (match_sound _ _ _ _ Hp Hm) as (captures & _ & _ & Hps).
    rewrite Hps. cbn. exists [], p, es, arr. by repeat split.
  - destruct (Bus.forOfPatterns es topic) as [[[l ps]|]|e]; [| |done].
    + destruct IH as (before & q & after & arr & -> & Hb & Hq & Hps).
      exists ((label, p) :: before), q, after, arr.
      repeat split; [by constructor|done..].
    + by constructor.
Qed.

Lemma forOfPatterns_skip before es topic :
  Forall (fun e => Pattern.match_ e.2 topic = None) before →
  Bus.forOfPatterns (before ++ es) topic = Bus.forOfPatterns es topic.
Proof.
  induction 1 as [|[label p] before Hp _ IH]; [done|].
  cbn [app Bus.forOfPatterns]. cbn [snd] in Hp. by rewrite Hp.
Qed.

Lemma forOfPatterns_hit es more topic d :
  Bus.forOfPatterns es topic = Ok (Some d) →
  Bus.forOfPatterns (es ++ more) topic = Ok (Some d).
Proof.
  induction es as [|[label p] es IH]; [done|].
  cbn [app Bus.forOfPatterns].
  by destruct (Pattern.match_ p topic).
Qed.



(** ** Setting and removing patterns *)

(** [removePattern] never removes a pattern: for a label that is set it
    throws, and for a label that is not set it returns the bus as it
    was. *)
Theorem removePattern_never_removes (bus : Bus) (label : str) :
  match Bus.removePattern bus label with
  | Ok bus' => bus' = bus ∧ Map_get (_patterns bus) label = None
  | Throw e =>
      is_Some (Map_get (_patterns bus) label)
      ∧ e = «"unknown label ("» ++ label ++ «")"»
  end.
Proof.
  destruct (Bus.removePattern bus label) as [bus'|e] eqn:Hrem.
  - apply removePattern_Ok in Hrem as [Hhas ->]. split; [done|].
    destruct (Map_get (_patterns bus) label) eqn:Hget; [|done].
    assert (Map_has (_patterns bus) label = true) as Hhas'
      by (apply Map_has_get; by eexists).
    congruence.
  - unfold Bus.removePattern in Hrem.
    destruct (Map_has (_patterns bus) label) eqn:Hhas; [|done].
    injection Hrem as <-. split; [by apply Map_has_get|done].
Qed.

(** A pattern that [setPattern] adds goes behind those already set, which
    stay as they are: a message that was emitted on a label before is
    emitted on the same label with the same parameters afterwards, and a
    message no pattern matched goes to the new label exactly when the
    new pattern matches it. *)
Theorem setPattern_keeps_earlier_deliveries
    (bus : Bus) (label pattern : str) (bus' : Bus) (topic : str) :
  reachable bus →
  Bus.setPattern bus label pattern = Ok bus' →
  ∃ p, Pattern.from pattern = Ok p
       ∧ _patterns bus' = _patterns bus ++ [(label, p)]
       ∧ Bus._handleMessagePacket bus' topic =
         match Bus._handleMessagePacket bus topic with
         | Ok None =>
             match Pattern.match_ p topic with
             | Some arr =>
                 ps ← Pattern.getParameters p (Some arr); Ok (Some (label, ps))
             | None => Ok None
             end
         | delivered => delivered
         end.
Proof.
  intros [_ Hc]%reachable_invariant (p & Hp & _ & ->)%setPattern_Ok.
  exists p. split; [done|]. split; [done|].
  unfold Bus._handleMessagePacket. cbn [_patterns].
  pose proof (forOfPatterns_spec _ topic Hc) as Hspec.
  destruct (Bus.forOfPatterns (_patterns bus) topic) as [[d|]|e] eqn:Hfor;
    [|by rewrite forOfPatterns_skip|done].
  by apply forOfPatterns_hit.
Qed.

Lemma setPattern_keeps_earlier_deliveries_witness :
  let bus :=
    {| _patterns := [(«"status"», compiled «"devices/+id/status"»)];
       _client := None |} in
  let bus' :=
    {| _patterns := [(«"status"», compiled «"devices/+id/status"»);
                     («"all"», compiled «"devices/#rest"»)];
       _client := None |} in
  ∃ p, Pattern.from «"devices/#rest"» = Ok p
       ∧ _patterns bus' = _patterns bus ++ [(«"all"», p)]
       ∧ Bus._handleMessagePacket bus' «"devices/42/status"» =
         match Bus._handleMessagePacket bus «"devices/42/status"» with
         | Ok None =>
             match Pattern.match_ p «"devices/42/status"» with
             | Some arr =>
                 ps ← Pattern.getParameters p (Some arr); Ok (Some («"all"», ps))
             | None => Ok None
             end
         | delivered => delivered
         end.
Proof.
  intros bus bus'.
  apply (setPattern_keeps_earlier_deliveries bus «"all"» «"devices/#rest"» bus'
           «"devices/42/status"»); [|by vm_compute].
  apply (reachable_set Bus.new «"status"» «"devices/+id/status"»);
    [constructor|by vm_compute].
Defined.

(** ** Publishing and receiving *)

Lemma typedSeg_wildcard ps w :
  isWildcard w = true → typedSeg ps w = true →
  truthy (Some (drop 1 w)) = true ∧ is_Some (ps !! drop 1 w).
Proof.
  unfold isWildcard, typedSeg.
  destruct (startsWith "+" w); [|destruct (startsWith "#" w); [|done]];
    intros _; destruct (ps !! drop 1 w) as [[r|l]|]; try done;
    intros [? _]%andb_true_iff; by eauto.
Qed.

Lemma fitting_bag_size (ps : params) segs :
  wellTyped ps segs = true → covered ps segs = true →
  NoDup (map (drop 1) (wildcards segs)) →
  size ps = length (namedWildcards segs).
Proof.
  intros Hty Hcov Hnd.
  assert (∀ w, w ∈ wildcards segs →
               truthy (Some (drop 1 w)) = true ∧ is_Some (ps !! drop 1 w)) as Hw.
  { intros w [Hin Hwild]%list_elem_of_In%filter_In.
    apply typedSeg_wildcard; [done|].
    unfold wellTyped in Hty. by eapply forallb_forall in Hty. }
  assert (namedWildcards segs = wildcards segs) as ->.
  { unfold namedWildcards. apply forallb_filter_id, forallb_forall.
    intros w Hin%list_elem_of_In. by apply Hw. }
  assert (dom ps = list_to_set (map (drop 1) (wildcards segs))) as Hdom.
  { apply set_eq. intros key. rewrite elem_of_dom, elem_of_list_to_set. split.
    - by apply covered_spec.
    - intros (w & -> & Hin)%list_elem_of_fmap. by apply Hw. }
  by rewrite <- size_dom, Hdom, size_list_to_set, length_map.
Qed.


